(** * NCCLCommunicator: sharding, collectives and state scatter/gather

    A shallow embedding of [marian::NCCLCommunicator] (the NCCL-based
    implementation of [ICommunicator]) and proofs about its shard planner,
    its per-device dispatch, its two collectives, its checkpoint
    scatter/gather and its signal guard.

    Conventions of the embedding:
    - [size_t] values are integers in [Z]; every arithmetic operation of the
      source on [size_t] is followed by its reduction modulo [2^64];
    - a method that can end in [ABORT]/[ABORT_IF] returns an [outcome];
    - tensor elements are integers: the development is about which element
      goes where and what is added to what, not about rounding. *)

From Stdlib Require Import String.
From Stdlib Require Import ZArith List Lia Bool Permutation Arith.
Import ListNotations.
Local Open Scope Z_scope.

Set Implicit Arguments.

(* ------------------------------------------------------------------ *)
(** ** Outcomes of a call *)

(** What a call of the communicator can end in. [ABORT(msg)] logs the
    message and terminates the process.  [Undefined] stands for behaviour
    the C++ standard leaves undefined (division by zero, an index or a
    pointer out of range).  [Hang] is a wait on a future that is never
    fulfilled. *)
Inductive outcome (A : Type) : Type :=
| Ok (a : A)
| Abort (msg : string)
| Undefined
| Hang.

Arguments Ok {A} a.
Arguments Abort {A} msg.
Arguments Undefined {A}.
Arguments Hang {A}.

Definition bind {A B : Type} (m : outcome A) (k : A -> outcome B) : outcome B :=
  match m with
  | Ok a => k a
  | Abort msg => Abort msg
  | Undefined => Undefined
  | Hang => Hang
  end.

Notation "x <- m ;; k" := (bind m (fun x => k))
  (at level 61, m at next level, right associativity).
Notation "' pat <- m ;; k" := (bind m (fun x => match x with pat => k end))
  (at level 61, pat pattern, m at next level, right associativity).

(** Modelled from the spec: the macros [ABORT] and [ABORT_IF] are declared
    in common/logging.h.  A failure they raise is fatal and terminates the
    process, reported with its message before the abort. *)
Definition ABORT_IF (cond : bool) (msg : string) : outcome unit :=
  if cond then Abort msg else Ok tt.

(** Run a fallible body once per element, left to right, collecting results. *)
Fixpoint mapM {A B : Type} (f : A -> outcome B) (l : list A) : outcome (list B) :=
  match l with
  | [] => Ok []
  | a :: l' => b <- f a ;; bs <- mapM f l' ;; Ok (b :: bs)
  end.

(** Whether a call ended in the fatal error. *)
Definition is_abort {A : Type} (m : outcome A) : bool :=
  match m with Abort _ => true | _ => false end.

(* ------------------------------------------------------------------ *)
(** ** [size_t] *)

Definition SIZE_MODULUS : Z := 2 ^ 64.

Definition to_size_t (z : Z) : Z := z mod SIZE_MODULUS.

Definition size_add (a b : Z) : Z := to_size_t (a + b).
Definition size_sub (a b : Z) : Z := to_size_t (a - b).
Definition size_mul (a b : Z) : Z := to_size_t (a * b).

(** A vector's [size()], and the indices [0 .. n-1] of a counting loop. *)
Definition zlen {A : Type} (l : list A) : Z := Z.of_nat (length l).
Definition indices (n : nat) : list Z := map Z.of_nat (seq 0 n).

(* ------------------------------------------------------------------ *)
(** ** Collaborators: tensors, graphs, the MPI wrapper *)

(** Modelled from the spec: the element-type enumeration [Type] is
    declared in the tensor library (common/types.h); the communicator only
    names [Type::float16].  The spec speaks of a declared precision with
    two supported values; the enumeration lists the integer and
    floating-point element types of the tensor library. *)
Inductive Type_ : Type :=
| int8 | int16 | int32 | int64
| uint8 | uint16 | uint32 | uint64
| float16 | float32 | float64.

Definition Type_eqb (a b : Type_) : bool :=
  match a, b with
  | int8, int8 | int16, int16 | int32, int32 | int64, int64
  | uint8, uint8 | uint16, uint16 | uint32, uint32 | uint64, uint64
  | float16, float16 | float32, float32 | float64, float64 => true
  | _, _ => false
  end.

(** The NCCL element types the source passes to the collectives. *)
Inductive ncclDataType_t : Type := ncclFloat16 | ncclFloat32.

Definition ncclDataType_eqb (a b : ncclDataType_t) : bool :=
  match a, b with
  | ncclFloat16, ncclFloat16 | ncclFloat32, ncclFloat32 => true
  | _, _ => false
  end.

(** A tensor: its declared element type and its elements. *)
Record Tensor : Type := mkTensor {
  type : Type_;
  data : list Z
}.

Definition size (t : Tensor) : Z := zlen (data t).

(** [graph->params()] of one device: the gradient and the value buffer. *)
Record ExpressionGraph : Type := mkGraph {
  grads : Tensor;
  vals : Tensor
}.

Record IMPIWrapper : Type := mkMPI {
  myMPIRank : Z;
  numMPIProcesses : Z
}.

(** The communicator of one process.  [devices_], [comms_] and [streams_]
    are sized [graphs.size()] by the constructor, so [devices_.size()] is
    the length of [graphs_]. *)
Record NCCLCommunicator : Type := mkComm {
  graphs_ : list ExpressionGraph;
  mpi_ : option IMPIWrapper
}.

Definition devices_size (c : NCCLCommunicator) : Z := zlen (graphs_ c).

(* ------------------------------------------------------------------ *)
(** ** Ranks and the shard planner *)

Definition myNcclRank (c : NCCLCommunicator) (localDeviceIndex : Z) : Z :=
  match mpi_ c with
  | Some mpi => size_add (size_mul (myMPIRank mpi) (devices_size c)) localDeviceIndex
  | None => localDeviceIndex
  end.

Definition numNcclRanks (c : NCCLCommunicator) : Z :=
  match mpi_ c with
  | Some mpi => size_mul (numMPIProcesses mpi) (devices_size c)
  | None => devices_size c
  end.

(** [graphs_[0]->params()->vals()->size()]; indexing an empty [graphs_] is
    out of range. *)
Definition dataSize (c : NCCLCommunicator) : outcome Z :=
  match graphs_ c with
  | [] => Undefined
  | g :: _ => Ok (size (vals g))
  end.

Definition shardSize (c : NCCLCommunicator) : outcome Z :=
  let numShards := numNcclRanks c in
  total <- dataSize c ;;
  if numShards =? 0 then Undefined else
  let size := size_sub (size_add total numShards) 1 / numShards in
  _ <- ABORT_IF (negb (size_mul size numShards =? total))
                "presently, all shards must have the same size" ;;
  Ok size.

Definition ncclRankShardRange (c : NCCLCommunicator) (rank : Z) : outcome (Z * Z) :=
  size <- shardSize c ;;
  let begin := size_mul rank size in
  let end_ := size_add begin size in
  total <- dataSize c ;;
  let end_ := Z.min end_ total in
  Ok (begin, end_).

Definition localShardRange (c : NCCLCommunicator) (localDeviceIndex : Z) : outcome (Z * Z) :=
  ncclRankShardRange c (myNcclRank c localDeviceIndex).

(** Spec-side notions used to state the planner's properties. *)
Definition ceil_div (a b : Z) : Z :=
  if a mod b =? 0 then a / b else a / b + 1.

(** Number of elements of the range the planner gives a rank (0 when the
    planner does not return). *)
Definition shardLength (c : NCCLCommunicator) (rank : Z) : Z :=
  match ncclRankShardRange c rank with
  | Ok (b, e) => e - b
  | _ => 0
  end.

Definition Zsum (l : list Z) := fold_right Z.add 0 l.

(** A communicator with [d] devices whose buffers hold [total] zeros, of
    element type [ty]; used for concrete instances. *)
Definition blankGraph (ty : Type_) (total : nat) : ExpressionGraph :=
  mkGraph (mkTensor ty (repeat 0 total)) (mkTensor ty (repeat 0 total)).

Definition blankComm (ty : Type_) (d total : nat) (mpi : option IMPIWrapper) : NCCLCommunicator :=
  mkComm (repeat (blankGraph ty total) d) mpi.

(* ------------------------------------------------------------------ *)
(** ** [foreachAcc] and [foreach] *)

(** One enqueued invocation [func(i, begin, end)]. *)
Record Task : Type := mkTask {
  task_device : Z;
  task_begin : Z;
  task_end : Z
}.

Section ForeachAcc.
(** [Ret] is the result type of the per-device function; [S] is whatever
    the function reads and writes besides (the device buffers for
    [resetGrads], nothing for a pure function). *)
Variables Ret S : Type.

Definition ForeachFunc : Type := Z -> Z -> Z -> S -> outcome (Ret * S).

(** A void function of (Ret&, Ret): the new value of the first argument. *)
Definition AccFunc : Type := Ret -> Ret -> Ret.

Variable c : NCCLCommunicator.
Variable func : ForeachFunc.
Variable acc : AccFunc.

(** The first loop: per device, either enqueue on the pool or call and
    fold at once. *)
Fixpoint foreach_dispatch (parallel : bool) (devs : list Z) (retValue : Ret)
         (threadResults : list Task) (s : S) : outcome (Ret * list Task * S) :=
  match devs with
  | [] => Ok (retValue, threadResults, s)
  | i :: devs' =>
      '(begin, end_) <- localShardRange c i ;;
      if parallel then
        foreach_dispatch parallel devs' retValue (threadResults ++ [mkTask i begin end_]) s
      else
        '(r, s') <- func i begin end_ s ;;
        foreach_dispatch parallel devs' (acc retValue r) threadResults s'
  end.

(** Modelled from the spec: the thread pool is declared in
    3rd_party/threadpool.h.  It is the spec's bounded worker pool:
    each enqueued invocation is dispatched to it and runs once, in an
    order the caller does not control.  [schedule] lists the positions of
    the tasks in the order in which they run (the tasks of one call write
    to different devices, so running them one after the other in some
    order covers their overlap in time).  The result is the list of
    fulfilled futures. *)
Fixpoint pool_run (threadResults : list Task) (schedule : list nat) (s : S)
  : outcome (list (nat * Ret) * S) :=
  match schedule with
  | [] => Ok ([], s)
  | k :: rest =>
      match nth_error threadResults k with
      | None => pool_run threadResults rest s
      | Some t =>
          '(r, s1) <- func (task_device t) (task_begin t) (task_end t) s ;;
          '(fulfilled, s2) <- pool_run threadResults rest s1 ;;
          Ok ((k, r) :: fulfilled, s2)
      end
  end.

(** [task.get()]: the value of a fulfilled future; the caller blocks until
    the task has run. *)
Definition future_get (fulfilled : list (nat * Ret)) (k : nat) : outcome Ret :=
  match find (fun d => Nat.eqb (fst d) k) fulfilled with
  | Some d => Ok (snd d)
  | None => Hang
  end.

(** The second loop: fold the futures in index order. *)
Fixpoint foreach_join (fulfilled : list (nat * Ret)) (futures : list nat)
         (retValue : Ret) : outcome Ret :=
  match futures with
  | [] => Ok retValue
  | k :: rest =>
      v <- future_get fulfilled k ;;
      foreach_join fulfilled rest (acc retValue v)
  end.

Definition foreachAcc (init : Ret) (parallel : bool) (schedule : list nat) (s : S)
  : outcome (Ret * S) :=
  let parallel := parallel && (1 <? devices_size c) in
  '(retValue, threadResults, s1) <-
     foreach_dispatch parallel (indices (length (graphs_ c))) init [] s ;;
  if parallel then
    '(fulfilled, s2) <- pool_run threadResults schedule s1 ;;
    retValue' <- foreach_join fulfilled (seq 0 (length threadResults)) retValue ;;
    Ok (retValue', s2)
  else Ok (retValue, s1).

End ForeachAcc.

(** The planner's range of local device [i], for stating results
    ((0,0) where the planner does not return). *)
Definition rangeOf (c : NCCLCommunicator) (i : Z) : Z * Z :=
  match localShardRange c i with
  | Ok be => be
  | _ => (0, 0)
  end.

(** A per-device function without effects. *)
Definition pureFunc {Ret S : Type} (f : Z -> Z -> Z -> Ret) : ForeachFunc Ret S :=
  fun i begin end_ s => Ok (f i begin end_, s).

(** A per-device function that also records each of its invocations. *)
Definition loggedFunc {Ret : Type} (f : Z -> Z -> Z -> Ret) : ForeachFunc Ret (list Z) :=
  fun i begin end_ log => Ok (f i begin end_, log ++ [i]).

(** The tasks a schedule runs, with their positions, in the order it runs
    them. *)
Definition scheduled (threadResults : list Task) (schedule : list nat) : list (nat * Task) :=
  flat_map (fun k => match nth_error threadResults k with
                     | Some t => [(k, t)]
                     | None => []
                     end) schedule.

(** The tasks the first loop makes of the devices [devs]. *)
Definition tasksOf (c : NCCLCommunicator) (devs : list Z) : list Task :=
  map (fun i => mkTask i (fst (rangeOf c i)) (snd (rangeOf c i))) devs.

(** [[](bool& x, bool y) { x = x && y; }] *)
Definition allTrue : AccFunc bool := fun x y => x && y.

(** The [bool] overload of [foreach]. *)
Definition foreach {S : Type} (c : NCCLCommunicator) (func : ForeachFunc bool S)
           (parallel : bool) (schedule : list nat) (s : S) : outcome (bool * S) :=
  foreachAcc c func allTrue true parallel schedule s.

(** The result a call returns, without the state it leaves. *)
Definition returned {Ret S : Type} (m : outcome (Ret * S)) : outcome Ret :=
  r <- m ;; Ok (fst r).


(* ------------------------------------------------------------------ *)
(** ** [BlockSignal] *)

(** A signal set as the kernel keeps it: bit [k-1] is signal [k]. *)
Definition sigset_t : Type := Z.

Definition sigemptyset : sigset_t := 0.
Definition sigaddset (set : sigset_t) (signal : Z) : sigset_t :=
  Z.lor set (Z.shiftl 1 (signal - 1)).
Definition sigismember (set : sigset_t) (signal : Z) : bool :=
  Z.testbit set (signal - 1).

Inductive how_t : Type := SIG_BLOCK | SIG_UNBLOCK | SIG_SETMASK.

Definition change_mask (how : how_t) (set mask : sigset_t) : sigset_t :=
  match how with
  | SIG_BLOCK => Z.lor mask set
  | SIG_UNBLOCK => Z.ldiff mask set
  | SIG_SETMASK => set
  end.

(** The blocked-signal masks the two system calls act on. *)
Record SignalState : Type := mkSignals {
  threadMask : sigset_t;
  procMask : sigset_t
}.

(** A function taking (how, set, oldset) as the two system calls do: the new
    state and the value stored through the third argument. *)
Definition SigMaskFn : Type := how_t -> sigset_t -> SignalState -> SignalState * sigset_t.

Definition pthread_sigmask : SigMaskFn := fun how set st =>
  (mkSignals (change_mask how set (threadMask st)) (procMask st), threadMask st).

Definition sigprocmask : SigMaskFn := fun how set st =>
  (mkSignals (threadMask st) (change_mask how set (procMask st)), procMask st).

(** Where the process mask is the calling thread's mask, [sigprocmask] acts
    on the same mask as [pthread_sigmask]. *)
Definition sigprocmask_same_mask : SigMaskFn := pthread_sigmask.

Record BlockSignal : Type := mkBlockSignal {
  sigMaskFn_ : SigMaskFn;
  oldSigSet_ : sigset_t
}.

(** [BlockSignal(int signal, const SigMaskFn& sigMaskFn)] *)
Definition BlockSignal_ctor (signal : Z) (sigMaskFn : SigMaskFn) (st : SignalState)
  : BlockSignal * SignalState :=
  let newSigSet := sigemptyset in
  let newSigSet := sigaddset newSigSet signal in
  let '(st', oldSigSet) := sigMaskFn SIG_BLOCK newSigSet st in
  (mkBlockSignal sigMaskFn oldSigSet, st').

(** [~BlockSignal()] *)
Definition BlockSignal_dtor (b : BlockSignal) (st : SignalState) : SignalState :=
  fst (sigMaskFn_ b SIG_BLOCK (oldSigSet_ b) st).

Definition SIG_BAD : Z := 27.

(** The part of the constructor from the declaration of the two guards to
    the end of their scope.  [init] stands for the NCCL set-up in between,
    which does not touch the masks; the guards are destroyed in reverse
    order of declaration when the scope is left. *)
Definition guardedInit (procFn : SigMaskFn) (init : outcome unit) (st : SignalState)
  : outcome SignalState :=
  let '(blockThread, st1) := BlockSignal_ctor SIG_BAD pthread_sigmask st in
  let '(blockProc, st2) := BlockSignal_ctor SIG_BAD procFn st1 in
  _ <- init ;;
  Ok (BlockSignal_dtor blockThread (BlockSignal_dtor blockProc st2)).

(** The masks while [init] runs. *)
Definition masksDuringInit (procFn : SigMaskFn) (st : SignalState) : SignalState :=
  snd (BlockSignal_ctor SIG_BAD procFn (snd (BlockSignal_ctor SIG_BAD pthread_sigmask st))).

(* ------------------------------------------------------------------ *)
(** ** The collective library *)

(** The handle [comms_[i]] as the constructor initialises it, with
    [ncclCommInitRank(&comms_[i], numNcclRanks(), uniqueId, myNcclRank(i))]. *)
Record ncclComm_t : Type := mkNcclComm {
  comm_nranks : Z;
  comm_rank : Z
}.

Definition comms_ (c : NCCLCommunicator) (i : Z) : ncclComm_t :=
  mkNcclComm (numNcclRanks c) (myNcclRank c i).

(** One call posted inside a group.  Both calls of the source pass two
    pointers into one tensor: [call_buffer] is that tensor's contents and
    the two offsets are where [sendbuf] and [recvbuf] point in it. *)
Record NcclCall : Type := mkCall {
  call_comm : ncclComm_t;
  call_buffer : list Z;
  call_sendoff : Z;
  call_recvoff : Z;
  call_count : Z;
  call_type : ncclDataType_t
}.

(** Overwrites [new] over [buf] from index [off] on. *)
Definition splice (buf : list Z) (off : Z) (new : list Z) : list Z :=
  firstn (Z.to_nat off) buf ++ new ++ skipn (Z.to_nat off + length new) buf.

(** The calls of a group in rank order: one per rank of the group, or the
    group never completes. *)
Definition rankedCalls (posted : list NcclCall) : outcome (list NcclCall) :=
  match posted with
  | [] => Ok []
  | q0 :: _ =>
      let nranks := comm_nranks (call_comm q0) in
      if negb (zlen posted =? nranks) then Hang else
      mapM (fun r => match find (fun q => comm_rank (call_comm q) =? r) posted with
                     | Some q => Ok q
                     | None => Hang
                     end)
           (indices (Z.to_nat nranks))
  end.

(** All ranks must pass the same count and element type on handles of one
    group. *)
Definition uniformCalls (q0 : NcclCall) (ranked : list NcclCall) : bool :=
  forallb (fun q => (call_count q =? call_count q0)
                    && ncclDataType_eqb (call_type q) (call_type q0)
                    && (comm_nranks (call_comm q) =? comm_nranks (call_comm q0)))
          ranked.

(** Element [j] of the shard of rank [r], summed over the send buffers of
    all ranks, in rank order. *)
Definition reducedShard (ranked : list NcclCall) (count r : Z) : list Z :=
  map (fun j => Zsum (map (fun p => nth (Z.to_nat (call_sendoff p + r * count + j))
                                        (call_buffer p) 0) ranked))
      (indices (Z.to_nat count)).

(** Modelled from the spec: [ncclReduceScatter] belongs to the collective
    library, outside the repository.  Following the spec's CollectiveChannel
    (reduceScatter: sum-reduce the full source buffer across all global
    ranks and scatter the result so that each device's destination holds
    exactly its own shard): rank [r] receives, in [count] elements at
    [recvbuf], the sums over all ranks of elements
    [r*count .. (r+1)*count-1] of [sendbuf].  The two buffers of a call
    may overlap only in the in-place arrangement
    [recvbuf = sendbuf + rank*count].  The result is the new contents of
    every posted buffer. *)
Definition ncclReduceScatter (posted : list (list NcclCall)) : outcome (list (list (list Z))) :=
  ranked <- rankedCalls (concat posted) ;;
  match ranked with
  | [] => Ok (map (map call_buffer) posted)
  | q0 :: _ =>
      let count := call_count q0 in
      let nranks := zlen ranked in
      if negb (uniformCalls q0 ranked) then Undefined else
      if negb (forallb (fun q => (0 <=? call_sendoff q)
                                 && (call_sendoff q + nranks * count <=? zlen (call_buffer q))
                                 && (0 <=? call_recvoff q)
                                 && (call_recvoff q + count <=? zlen (call_buffer q))
                                 && (call_recvoff q
                                       =? call_sendoff q + comm_rank (call_comm q) * count))
                       ranked) then Undefined else
      Ok (map (map (fun q => splice (call_buffer q) (call_recvoff q)
                                    (reducedShard ranked count (comm_rank (call_comm q)))))
              posted)
  end.

(** The [count] elements every rank sends, concatenated in rank order. *)
Definition gatheredShards (ranked : list NcclCall) (count : Z) : list Z :=
  concat (map (fun p => firstn (Z.to_nat count)
                               (skipn (Z.to_nat (call_sendoff p)) (call_buffer p)))
              ranked).

(** Modelled from the spec: [ncclAllGather] belongs to the collective
    library, outside the repository.  Following the spec's CollectiveChannel
    (allGather: each device contributes its own shard and receives the full
    concatenated buffer from all ranks, ordered by global rank): every rank
    receives, in [nranks*count] elements at [recvbuf], the [count] elements
    at the [sendbuf] of rank 0, then those of rank 1, and so on.  The two
    buffers of a call may overlap only in the in-place arrangement
    [sendbuf = recvbuf + rank*count]. *)
Definition ncclAllGather (posted : list (list NcclCall)) : outcome (list (list (list Z))) :=
  ranked <- rankedCalls (concat posted) ;;
  match ranked with
  | [] => Ok (map (map call_buffer) posted)
  | q0 :: _ =>
      let count := call_count q0 in
      let nranks := zlen ranked in
      if negb (uniformCalls q0 ranked) then Undefined else
      if negb (forallb (fun q => (0 <=? call_sendoff q)
                                 && (call_sendoff q + count <=? zlen (call_buffer q))
                                 && (0 <=? call_recvoff q)
                                 && (call_recvoff q + nranks * count <=? zlen (call_buffer q))
                                 && (call_sendoff q
                                       =? call_recvoff q + comm_rank (call_comm q) * count))
                       ranked) then Undefined else
      Ok (map (map (fun q => splice (call_buffer q) (call_recvoff q)
                                    (gatheredShards ranked count)))
              posted)
  end.

(* ------------------------------------------------------------------ *)
(** ** [scatterReduceAndResetGrads] and [allGatherParams] *)

(** [graphs_[i]] *)
Definition graph_at (c : NCCLCommunicator) (i : Z) : outcome ExpressionGraph :=
  match nth_error (graphs_ c) (Z.to_nat i) with
  | Some g => Ok g
  | None => Undefined
  end.

(** The element type passed to the collective for a buffer of type [t]. *)
Definition ncclFloatType (t : Type_) : ncclDataType_t :=
  let ncclFloatType := ncclFloat32 in
  if Type_eqb t float16 then ncclFloat16 else ncclFloatType.

(** Modelled from the spec: [subtensor(offset, size)] of the tensor library
    is a view over the index sub-range [offset .. offset+size-1], whose
    [size()] is [size] and whose [set(v)] overwrites that sub-range of the
    tensor with [v]; a sub-range that leaves the tensor is out of range. *)
Definition subtensor_size (offset size : Z) : Z := size.

Definition subtensor_set (t : Tensor) (offset size : Z) (v : Z) : outcome Tensor :=
  if (0 <=? offset) && (0 <=? size) && (offset + size <=? zlen (data t)) then
    Ok (mkTensor (type t) (splice (data t) offset (repeat v (Z.to_nat size))))
  else Undefined.

(** The body of the loop between [groupStart()] and [groupEnd()] of
    [scatterReduceAndResetGrads], on one process. *)
Definition postReduceScatter (c : NCCLCommunicator) : outcome (list NcclCall) :=
  mapM (fun i =>
          '(begin, end_) <- localShardRange c i ;;
          g <- graph_at c i ;;
          let grads := grads g in
          let sendoff := 0 in
          let recvoff := begin in
          bufsize <- shardSize c ;;
          _ <- ABORT_IF (negb (subtensor_size begin (size_sub end_ begin) =? bufsize))
                        "unexpected subtensor size??" ;;
          Ok (mkCall (comms_ c i) (data grads) sendoff recvoff bufsize
                     (ncclFloatType (type grads))))
       (indices (length (graphs_ c))).

(** The lambda [resetGrads]; it reads and writes the gradient tensors of
    the graphs it captured. *)
Definition resetGrads : ForeachFunc bool (list ExpressionGraph) :=
  fun i begin end_ graphs =>
    match nth_error graphs (Z.to_nat i) with
    | None => Undefined
    | Some g =>
        let size := size (grads g) in
        t1 <- (if 0 <? begin then subtensor_set (grads g) 0 begin 0 else Ok (grads g)) ;;
        t2 <- (if end_ <? size then subtensor_set t1 end_ (size_sub size end_) 0 else Ok t1) ;;
        Ok (true, firstn (Z.to_nat i) graphs ++ mkGraph t2 (vals g)
                    :: skipn (S (Z.to_nat i)) graphs)
    end.

(** All processes of the job, in the order of their MPI ranks. *)
Definition World : Type := list NCCLCommunicator.

Definition set_grads (c : NCCLCommunicator) (bufs : list (list Z)) : NCCLCommunicator :=
  mkComm (map (fun gb => mkGraph (mkTensor (type (grads (fst gb))) (snd gb)) (vals (fst gb)))
              (combine (graphs_ c) bufs))
         (mpi_ c).

Definition set_vals (c : NCCLCommunicator) (bufs : list (list Z)) : NCCLCommunicator :=
  mkComm (map (fun gb => mkGraph (grads (fst gb)) (mkTensor (type (vals (fst gb))) (snd gb)))
              (combine (graphs_ c) bufs))
         (mpi_ c).

(** [scatterReduceAndResetGrads()] called on every process.  The
    collective completes once every process has closed its group, so the
    call is modelled for all processes together: every process posts its
    calls, the library carries the group out, every process then resets
    its gradients through [foreach] (parallel by default), the pool of
    process [p] running its tasks in the order [schedules p]. *)
Definition scatterReduceAndResetGrads (schedules : nat -> list nat) (w : World)
  : outcome World :=
  posted <- mapM postReduceScatter w ;;
  received <- ncclReduceScatter posted ;;
  let w1 := map (fun cb => set_grads (fst cb) (snd cb)) (combine w received) in
  mapM (fun pc =>
          '(_, graphs) <- foreach (snd pc) resetGrads true (schedules (fst pc))
                                  (graphs_ (snd pc)) ;;
          Ok (mkComm graphs (mpi_ (snd pc))))
       (combine (seq 0 (length w1)) w1).

(** The body of the loop of [allGatherParams], on one process. *)
Definition postAllGather (c : NCCLCommunicator) : outcome (list NcclCall) :=
  mapM (fun i =>
          '(begin, end_) <- localShardRange c i ;;
          g <- graph_at c i ;;
          let vals := vals g in
          let sendoff := begin in
          let recvoff := 0 in
          bufsize <- shardSize c ;;
          Ok (mkCall (comms_ c i) (data vals) sendoff recvoff bufsize
                     (ncclFloatType (type vals))))
       (indices (length (graphs_ c))).

(** [allGatherParams()] called on every process. *)
Definition allGatherParams (w : World) : outcome World :=
  posted <- mapM postAllGather w ;;
  received <- ncclAllGather posted ;;
  Ok (map (fun cb => set_vals (fst cb) (snd cb)) (combine w received)).

(* ------------------------------------------------------------------ *)
(** ** [scatterState] and [gatherState] *)

(** Modelled from the spec: [io::Item] is declared in the io library.
    It is the spec's checkpoint item, an opaque byte buffer (with a
    type tag and a name that play no role here); [size()] is the number of
    bytes and [append] appends the bytes of another item. *)
Record Item : Type := mkItem {
  bytes : list Byte.byte
}.

Definition Item_size (it : Item) : Z := zlen (bytes it).
Definition Item_append (a b : Item) : Item := mkItem (bytes a ++ bytes b).
Definition emptyItem : Item := mkItem [].

Section ScatterState.
(** [S] is the state the setter writes to. *)
Variable S : Type.

(** [OptimizerBase::ScatterStateSetFunc]: (local device index, begin, end). *)
Definition ScatterStateSetFunc : Type := Z -> Z -> Z -> S -> outcome S.

Variable c : NCCLCommunicator.
Variable setFn : ScatterStateSetFunc.

(** The loop of [scatterState].  The pointers [data.bytes.data() + begin]
    and [data.bytes.data() + end] are kept as the offsets [begin] and
    [end] from the start of [data.bytes]; the loop hands them to the setter
    without any check. *)
Fixpoint scatterState_loop (dataSize shardSize : Z) (devs : list Z) (s : S) : outcome S :=
  match devs with
  | [] => Ok s
  | localDeviceIndex :: devs' =>
      let ncclRank := myNcclRank c localDeviceIndex in
      let begin := size_mul ncclRank shardSize in
      let end_ := Z.min (size_add begin shardSize) dataSize in
      s' <- setFn localDeviceIndex begin end_ s ;;
      scatterState_loop dataSize shardSize devs' s'
  end.

Definition scatterState (data : Item) (s : S) : outcome S :=
  let dataSize := Item_size data in
  let numShards := numNcclRanks c in
  if numShards =? 0 then Undefined else
  let shardSize := size_sub (size_add dataSize numShards) 1 / numShards in
  scatterState_loop dataSize shardSize (indices (length (graphs_ c))) s.
End ScatterState.

(** A setter that only records the ranges it is called with. *)
Definition recordRange : ScatterStateSetFunc (list (Z * Z * Z)) :=
  fun localDeviceIndex begin end_ log => Ok (log ++ [(localDeviceIndex, begin, end_)]).

(** The elements of [l] from index [begin] up to, not including, [end_]. *)
Definition slice {A : Type} (l : list A) (begin end_ : Z) : list A :=
  firstn (Z.to_nat (end_ - begin)) (skipn (Z.to_nat begin) l).

(** Modelled from the spec: the setter (local device index, byte range
    begin, byte range end) is supplied by the optimizer.  The device keeps
    the bytes from the begin up to the end of the range as its shard (none
    where the end is not after the begin). *)
Definition storeShard (data : Item) : ScatterStateSetFunc (list Item) :=
  fun localDeviceIndex begin end_ shards =>
    Ok (firstn (Z.to_nat localDeviceIndex) shards
          ++ mkItem (slice (bytes data) begin end_)
          :: skipn (S (Z.to_nat localDeviceIndex)) shards).

(** [OptimizerBase::GatherStateGetFunc] *)
Definition GatherStateGetFunc : Type := Z -> Item.

(** Modelled from the spec: the optimizer's getter hands out the shard a
    device keeps. *)
Definition getShard (shards : list Item) : GatherStateGetFunc :=
  fun localDeviceIndex => nth (Z.to_nat localDeviceIndex) shards emptyItem.

(** Modelled from the spec: [IMPIWrapper::bCast] is declared in
    training/communicator.h.  After the messaging layer's broadcast all
    ranks see identical bytes, those of the root.  [mpi_->bCast(tmp, rootRank)]
    as one process sees it: afterwards [tmp] holds what the root passed
    in; [peers r] is what process [r] passes when it is the root. *)
Definition bCast (peers : Z -> Item) (myRank : Z) (tmp : Item) (rootRank : Z) : Item :=
  if rootRank =? myRank then tmp else peers rootRank.

(** The first loop of [gatherState]. *)
Definition localData (c : NCCLCommunicator) (getFn : GatherStateGetFunc) : Item :=
  fold_left (fun localData localDeviceIndex => Item_append localData (getFn localDeviceIndex))
            (map Z.of_nat (seq 1 (length (graphs_ c) - 1)))
            (getFn 0).

Definition gatherState (c : NCCLCommunicator) (getFn : GatherStateGetFunc)
           (peers : Z -> Item) : Item :=
  let localData := localData c getFn in
  match mpi_ c with
  | Some mpi =>
      snd (fold_left
             (fun (st : Item * Item) mpiRank =>
                let '(tmp, data) := st in
                let tmp := if mpiRank =? myMPIRank mpi then localData else tmp in
                let tmp := bCast peers (myMPIRank mpi) tmp mpiRank in
                let data := if mpiRank =? 0 then tmp else Item_append data tmp in
                (tmp, data))
             (indices (Z.to_nat (numMPIProcesses mpi)))
             (emptyItem, emptyItem))
  | None => localData
  end.

(** [scatterState(B, setFn)] on every process of the job, every device
    starting without a shard. *)
Definition scatterAll (w : World) (B : Item) : outcome (list (list Item)) :=
  mapM (fun c => scatterState c (storeShard B) B (repeat emptyItem (length (graphs_ c)))) w.

(** [gatherState(getFn)] on every process of the job: in round [r] of the
    second loop the root is process [r], which passes its local
    concatenation. *)
Definition gatherAll (w : World) (stores : list (list Item)) : list Item :=
  let locals := map (fun cs => localData (fst cs) (getShard (snd cs))) (combine w stores) in
  let peers := fun r => nth (Z.to_nat r) locals emptyItem in
  map (fun cs => gatherState (fst cs) (getShard (snd cs)) peers) (combine w stores).

Definition scatterThenGather (w : World) (B : Item) : outcome (list Item) :=
  stores <- scatterAll w B ;;
  Ok (gatherAll w stores).

(** The ranges [scatterState] passes to the setter, over all processes, in
    global-rank order. *)
Definition scatterRanges (w : World) (B : Item) : outcome (list (Z * Z)) :=
  logs <- mapM (fun c => scatterState c recordRange B []) w ;;
  Ok (map (fun x => (snd (fst x), snd x)) (concat logs)).

(* ------------------------------------------------------------------ *)
(** ** Jobs *)

(** A job of [P] processes with [D] devices each.  A process either has an
    MPI wrapper reporting its rank and [P], or it is the only process and
    has none. *)
Definition processOf (P D p : nat) (c : NCCLCommunicator) : Prop :=
  length (graphs_ c) = D /\
  (mpi_ c = Some (mkMPI (Z.of_nat p) (Z.of_nat P))
   \/ (mpi_ c = None /\ P = 1%nat /\ p = 0%nat)).

Definition worldOf (P D : nat) (w : World) : Prop :=
  length w = P /\
  forall p c, nth_error w p = Some c -> processOf P D p c.

(** Every gradient and value buffer has [total] elements, and the buffers
    of a kind have one element type, which is one of the two the
    collectives are called with. *)
Definition buffersOf (total : nat) (gty vty : Type_) (w : World) : Prop :=
  (gty = float16 \/ gty = float32) /\ (vty = float16 \/ vty = float32) /\
  forall c g, In c w -> In g (graphs_ c) ->
    length (data (grads g)) = total /\ length (data (vals g)) = total /\
    type (grads g) = gty /\ type (vals g) = vty.

(** A job whose size the planner accepts: [P] processes of [D] devices,
    buffers of [total] elements, [total] a multiple of the number of
    ranks, and [total] plus the number of ranks within [size_t]. *)
Definition jobOf (P D total : nat) (gty vty : Type_) (w : World) : Prop :=
  worldOf P D w /\ buffersOf total gty vty w /\
  (0 < P)%nat /\ (0 < D)%nat /\
  Z.of_nat total + Z.of_nat (P * D) < SIZE_MODULUS /\
  Z.of_nat total mod Z.of_nat (P * D) = 0.

(** A process of such a job, at position [p]. *)
Definition sizedProcess (P D total p : nat) (c : NCCLCommunicator) : Prop :=
  processOf P D p c /\ (p < P)%nat /\
  forall g, In g (graphs_ c) ->
            length (data (grads g)) = total /\ length (data (vals g)) = total.

(* ------------------------------------------------------------------ *)
(** ** Notions used to state and prove the properties *)

(** The buffers of all devices of the job, in global-rank order. *)
Definition allGrads (w : World) : list (list Z) :=
  concat (map (fun c => map (fun g => data (grads g)) (graphs_ c)) w).

Definition allVals (w : World) : list (list Z) :=
  concat (map (fun c => map (fun g => data (vals g)) (graphs_ c)) w).

(** Element [k] summed over a list of buffers. *)
Definition sumAt (bufs : list (list Z)) (k : nat) : Z :=
  Zsum (map (fun b => nth k b 0) bufs).

(** Where the shard of global rank [r] begins when [B] is scattered over
    [N] ranks, clipped to the size of [B]. *)
Definition cutPoint (B : Item) (N : nat) (r : nat) : Z :=
  Z.min (Z.of_nat r * ceil_div (Item_size B) (Z.of_nat N)) (Item_size B).

(** The shards the [D] devices of a process keep once [B] has been
    scattered over [N] ranks. *)
Definition scatteredShards (B : Item) (N D : nat) (c : NCCLCommunicator) : list Item :=
  map (fun i => mkItem (slice (bytes B)
                              (myNcclRank c i * ceil_div (Item_size B) (Z.of_nat N))
                              (Z.min ((myNcclRank c i + 1) * ceil_div (Item_size B) (Z.of_nat N))
                                     (Item_size B))))
      (indices D).

(** What [resetGrads] leaves of a gradient buffer [d] when called with the
    range from [begin] to [end_]. *)
Definition zeroOutside (begin end_ : Z) (d : list Z) : list Z :=
  let d1 := if 0 <? begin then splice d 0 (repeat 0 (Z.to_nat begin)) else d in
  if end_ <? zlen d
  then splice d1 end_ (repeat 0 (Z.to_nat (size_sub (zlen d) end_)))
  else d1.

Definition emptyGraph : ExpressionGraph :=
  mkGraph (mkTensor float32 []) (mkTensor float32 []).

(** The calls a process posts for the buffers [buf] of its graphs, with
    shard size [s]: the send and receive offsets are given from the offset
    of the device's shard. *)
Definition callsOf (buf : ExpressionGraph -> Tensor) (sendoff recvoff : Z -> Z) (s : Z)
           (c : NCCLCommunicator) : list NcclCall :=
  map (fun i =>
         let g := nth (Z.to_nat i) (graphs_ c) emptyGraph in
         mkCall (comms_ c i) (data (buf g))
                (sendoff (myNcclRank c i * s)) (recvoff (myNcclRank c i * s)) s
                (ncclFloatType (type (buf g))))
      (indices (length (graphs_ c))).

(** The buffers [buf] of all devices of the job, in global-rank order. *)
Definition allBuffers (buf : ExpressionGraph -> Tensor) (w : World) : list (list Z) :=
  concat (map (fun c => map (fun g => data (buf g)) (graphs_ c)) w).

(** The call of global rank [r] in a job of [N] ranks. *)
Definition callOfRank (bufs : list (list Z)) (sendoff recvoff : Z -> Z) (s : Z)
           (ty : ncclDataType_t) (N : nat) (r : nat) : NcclCall :=
  mkCall (mkNcclComm (Z.of_nat N) (Z.of_nat r)) (nth r bufs [])
         (sendoff (Z.of_nat r * s)) (recvoff (Z.of_nat r * s)) s ty.

(* ------------------------------------------------------------------ *)
(** ** Concrete jobs *)

(** [P] processes under MPI with [D] devices each, every buffer holding
    [total] copies of [v]. *)
Definition constGraph (ty : Type_) (total : nat) (v : Z) : ExpressionGraph :=
  mkGraph (mkTensor ty (repeat v total)) (mkTensor ty (repeat v total)).

Definition mpiWorld (ty : Type_) (P D total : nat) (v : Z) : World :=
  map (fun p => mkComm (repeat (constGraph ty total v) D)
                       (Some (mkMPI (Z.of_nat p) (Z.of_nat P))))
      (seq 0 P).

(** One process without MPI. *)
Definition soloWorld (ty : Type_) (D total : nat) (v : Z) : World :=
  [mkComm (repeat (constGraph ty total v) D) None].

(** Two processes with two devices each; device of global rank [r] holds
    the values [10*r+1 .. 10*r+4]. *)
Definition rampGraph (r : Z) : ExpressionGraph :=
  let d := map (fun k => 10 * r + k) [1; 2; 3; 4] in
  mkGraph (mkTensor float32 d) (mkTensor float32 d).

Definition rampWorld : World :=
  [ mkComm [rampGraph 0; rampGraph 1] (Some (mkMPI 0 2));
    mkComm [rampGraph 2; rampGraph 3] (Some (mkMPI 1 2)) ].

(* ------------------------------------------------------------------ *)
(** ** The NCCL version string *)

From Stdlib Require DecimalString.

(** [std::to_string(int)]: the decimal digits, after a minus sign for a
    negative value. *)
Definition to_string (n : Z) : string :=
  DecimalString.NilZero.string_of_int (Z.to_int n).

(** The macro the header defines in place of the library function when
    [NCCL_MAJOR<3 || NCCL_MINOR<2]: the value it stores through [pv]. *)
Definition ncclGetVersion (NCCL_MAJOR NCCL_MINOR NCCL_PATCH : Z) : Z :=
  NCCL_MAJOR * 1000 + NCCL_MINOR * 100 + NCCL_PATCH.

(** [ncclVersionString()], as a function of the number [ncclGetVersion]
    stores in [ncclVersion]; [/] and [%] on [int] truncate towards zero. *)
Definition ncclVersionString (ncclVersion : Z) : string :=
  ((((to_string (Z.quot ncclVersion 1000) ++ ".")
       ++ to_string (Z.rem (Z.quot ncclVersion 100) 10)) ++ ".")
     ++ to_string (Z.rem ncclVersion 100))%string.

(* ------------------------------------------------------------------ *)
(** ** The constructor *)

(** Modelled from the spec: [DeviceId] and [DeviceType] are declared in
    common/definitions.h.  Every graph exposes a device identifier, which
    must report a GPU-class device or the synchronizer fails fatally at
    construction; the identifier is a device number with the class of the
    device. *)
Inductive DeviceType : Type := gpu | cpu.

Definition DeviceType_eqb (a b : DeviceType) : bool :=
  match a, b with
  | gpu, gpu | cpu, cpu => true
  | _, _ => false
  end.

Record DeviceId : Type := mkDeviceId {
  DeviceId_no : Z;
  DeviceId_type : DeviceType
}.

(** The conversion of a [size_t] to [int] in [devices_[i] = device.no]. *)
Definition to_int (z : Z) : Z := (z + 2 ^ 31) mod 2 ^ 32 - 2 ^ 31.

(** The rendezvous token, [NCCL_UNIQUE_ID_BYTES] bytes. *)
Definition ncclUniqueId : Type := list Byte.byte.
Definition NCCL_UNIQUE_ID_BYTES : nat := 128.

(** The arguments of one call
    [ncclCommInitRank(&comms_[i], nranks, commId, rank)]. *)
Record CommInitRank : Type := mkCommInitRank {
  init_nranks : Z;
  init_commId : ncclUniqueId;
  init_rank : Z
}.

(** Modelled from the spec: [IMPIWrapper::bCast(buf, count, MPI_BYTE,
    rootRank)] is declared in training/communicator.h; after the messaging
    layer's broadcast all ranks see identical bytes, those of the root.
    As one process sees it: afterwards the buffer holds what the root
    passed in, [root]. *)
Definition bCast_bytes (root : ncclUniqueId) (myRank : Z) (buf : ncclUniqueId) (rootRank : Z)
  : ncclUniqueId :=
  if rootRank =? myRank then buf else root.

(** The token a process holds before the broadcast: [{ 0 }], overwritten
    by [ncclGetUniqueId] (which stores [generated]) on the process without
    MPI or of MPI rank 0. *)
Definition ctor_uniqueId (mpi : option IMPIWrapper) (generated : ncclUniqueId) : ncclUniqueId :=
  let uniqueId := repeat Byte.x00 NCCL_UNIQUE_ID_BYTES in
  if match mpi with
     | None => true
     | Some m => myMPIRank m =? 0
     end
  then generated else uniqueId.

(** What the constructor leaves: the communicator, [devices_], the calls
    of [ncclCommInitRank] made in the group, the two log messages and the
    signal masks. *)
Record Constructed : Type := mkConstructed {
  this : NCCLCommunicator;
  devices_ : list Z;
  inits : list CommInitRank;
  logged : list string;
  masks : SignalState
}.

(** [NCCLCommunicator(graphs, mpi)], each graph given with the device its
    backend reports.  [ncclVersion] is the number [ncclGetVersion] stores,
    [generated] the token [ncclGetUniqueId] stores if it is called, [root]
    what the process of MPI rank 0 passes to the broadcast, [st] the
    signal masks before.  The barriers only order the log output.  The
    CUDA and NCCL calls are taken to succeed (a call that reports an error
    ends the process through [CUDA_CHECK] or [NCCL_CHECK]). *)
Definition NCCLCommunicator_ctor (graphs : list (ExpressionGraph * DeviceId))
           (mpi : option IMPIWrapper) (ncclVersion : Z) (generated root : ncclUniqueId)
           (st : SignalState) : outcome Constructed :=
  let c := mkComm (map fst graphs) mpi in
  let log1 :=
    (((("[comm] Using NCCL " ++ ncclVersionString ncclVersion) ++ " ")
        ++ match mpi with
           | Some m => if (1 <? numMPIProcesses m)%Z then "and MPI " else EmptyString
           | None => EmptyString
           end)
       ++ "for GPU communication")%string in
  devices <- mapM (fun gd : ExpressionGraph * DeviceId =>
                     let device := snd gd in
                     _ <- ABORT_IF (negb (DeviceType_eqb (DeviceId_type device) gpu))
                                   "NCCL communicator can only be used with GPUs" ;;
                     Ok (to_int (DeviceId_no device)))
                  graphs ;;
  let uniqueId := ctor_uniqueId mpi generated in
  let uniqueId := match mpi with
                  | Some m => bCast_bytes root (myMPIRank m) uniqueId 0
                  | None => uniqueId
                  end in
  let calls := map (fun localDeviceIndex =>
                      mkCommInitRank (numNcclRanks c) uniqueId (myNcclRank c localDeviceIndex))
                   (indices (length devices)) in
  st' <- guardedInit sigprocmask (Ok tt) st ;;
  Ok (mkConstructed c devices calls
        [log1; "[comm] NCCLCommunicator constructed successfully"%string] st').

(** The constructor run on every process of a job, the processes listed
    in the order of their MPI ranks: process [p] would be given the token
    [generated p] by [ncclGetUniqueId], and the root of the broadcast is
    the first process. *)
Definition constructAll (launch : list (list (ExpressionGraph * DeviceId) * option IMPIWrapper))
           (ncclVersion : Z) (generated : nat -> ncclUniqueId) (st : SignalState)
  : outcome (list Constructed) :=
  let root := match launch with
              | [] => []
              | l0 :: _ => ctor_uniqueId (snd l0) (generated 0%nat)
              end in
  mapM (fun pl : nat * (list (ExpressionGraph * DeviceId) * option IMPIWrapper) =>
          NCCLCommunicator_ctor (fst (snd pl)) (snd (snd pl)) ncclVersion
                                (generated (fst pl)) root st)
       (combine (seq 0 (length launch)) launch).

(** The handle a call of [ncclCommInitRank] initialises. *)
Definition handleOf (q : CommInitRank) : ncclComm_t :=
  mkNcclComm (init_nranks q) (init_rank q).

(** [P] processes with [D] GPUs each, numbered from 0 on every process,
    under MPI. *)
Definition gpuLaunch (P D total : nat)
  : list (list (ExpressionGraph * DeviceId) * option IMPIWrapper) :=
  map (fun p => (map (fun i => (blankGraph float32 total, mkDeviceId (Z.of_nat i) gpu))
                     (seq 0 D),
                 Some (mkMPI (Z.of_nat p) (Z.of_nat P))))
      (seq 0 P).

(* ------------------------------------------------------------------ *)
(** ** Logging *)

(** [spdlog::level::level_enum] *)
Inductive level_enum : Type := trace | debug | info | warn | err | critical | off.

(** [std::string::c_str()] read as a C string, as the formatter of the
    logging library and [setenv] read it: the characters before the first
    NUL. *)
Fixpoint c_str (s : string) : string :=
  match s with
  | EmptyString => EmptyString
  | String a rest => if Ascii.eqb a Ascii.zero then EmptyString else String a (c_str rest)
  end.

Fixpoint has_nul (s : string) : bool :=
  match s with
  | EmptyString => false
  | String a rest => Ascii.eqb a Ascii.zero || has_nul rest
  end.

(** The sinks the loggers are built from.  [stderr_sink_mt::instance()] is
    one shared object.  A file sink is an object of its own, made by
    [std::make_shared] with its file name and truncate flag; [object]
    tells it from the file sinks made before and after it (it is the number
    of file sinks made before it). *)
Inductive sink : Type :=
| stderr_sink_mt
| simple_file_sink_st (object : nat) (filename : string) (truncate : bool).

(** Modelled from the spec: [spdlog::logger] belongs to the logging
    library (3rd_party/spdlog), which the spec leaves to process
    bootstrapping.  A logger has a name, its sinks, a pattern and a level
    (messages below the level are dropped; a new logger has level [info]
    and the pattern "%+"); [logger_warn] lists the messages passed to
    [warn], oldest first. *)
Record logger : Type := mkLogger {
  logger_name : string;
  logger_sinks : list sink;
  logger_pattern : string;
  logger_level : level_enum;
  logger_warn : list string
}.

Definition set_level (lg : logger) (l : level_enum) : logger :=
  mkLogger (logger_name lg) (logger_sinks lg) (logger_pattern lg) l (logger_warn lg).

Definition set_pattern (lg : logger) (pattern : string) : logger :=
  mkLogger (logger_name lg) (logger_sinks lg) pattern (logger_level lg) (logger_warn lg).

Definition logger_warn_call (lg : logger) (msg : string) : logger :=
  mkLogger (logger_name lg) (logger_sinks lg) (logger_pattern lg) (logger_level lg)
           (logger_warn lg ++ [msg]).

(** A call that returns or throws. *)
Inductive thrown (A : Type) : Type :=
| Returns (a : A)
| Throws.

Arguments Returns {A} a.
Arguments Throws {A}.

Definition tbind {A B : Type} (m : thrown A) (k : A -> thrown B) : thrown B :=
  match m with
  | Returns a => k a
  | Throws => Throws
  end.

Notation "x <~ m ;; k" := (tbind m (fun x => k))
  (at level 61, m at next level, right associativity).

(** Modelled from the spec: the registry of loggers belongs to the
    logging library.  [spdlog::get(name)] finds the registered logger of
    that name; [spdlog::register_logger] throws when the name is taken.
    The loggers are shared objects: a logger held by the caller is the
    registered one, so a change made through the caller's pointer is a
    change of the registry's entry. *)
Definition spdlog_get (name : string) (registry : list logger) : option logger :=
  find (fun lg => (logger_name lg =? name)%string) registry.

Definition register_logger (lg : logger) (registry : list logger) : thrown (list logger) :=
  match spdlog_get (logger_name lg) registry with
  | Some _ => Throws
  | None => Returns (registry ++ [lg])
  end.

Definition update_logger (name : string) (f : logger -> logger) (registry : list logger)
  : list logger :=
  map (fun lg => if (logger_name lg =? name)%string then f lg else lg) registry.

(** What the logging set-up acts on: the registry of loggers, the
    environment variable TZ and the number of file sinks made so far. *)
Record LogEnv : Type := mkLogEnv {
  registry : list logger;
  TZ : option string;
  sinks_made : nat
}.

(** [stderrLogger(name, pattern, files, quiet)]: the environment with the
    new logger registered.  [openable] tells whether a file can be opened
    for writing; the constructor of a file sink throws when it cannot. *)
Definition stderrLogger (name pattern : string) (files : list string) (quiet : bool)
           (openable : string -> bool) (env : LogEnv) : thrown LogEnv :=
  let sinks := [] in
  let sinks := if negb quiet then sinks ++ [stderr_sink_mt] else sinks in
  made <~ fold_left (fun (acc : thrown (nat * list sink)) file =>
                       st <~ acc ;;
                       if openable file
                       then Returns (S (fst st),
                                     snd st ++ [simple_file_sink_st (fst st) file true])
                       else Throws)
                    files (Returns (sinks_made env, sinks)) ;;
  let lg := mkLogger name (snd made) "%+" info [] in
  reg <~ register_logger lg (registry env) ;;
  Returns (mkLogEnv (update_logger name (fun lg => set_pattern lg pattern) reg)
                    (TZ env) (fst made)).

(** [setLoggingLevel(logger, level)]: the logger afterwards and the
    result.  The warning is formatted from [level.c_str()] and
    [logger.name().c_str()]. *)
Definition setLoggingLevel (lg : logger) (level : string) : logger * bool :=
  if (level =? "trace")%string then (set_level lg trace, true)
  else if (level =? "debug")%string then (set_level lg debug, true)
  else if (level =? "info")%string then (set_level lg info, true)
  else if (level =? "warn")%string then (set_level lg warn, true)
  else if ((level =? "err") || (level =? "error"))%string then (set_level lg err, true)
  else if (level =? "critical")%string then (set_level lg critical, true)
  else if (level =? "off")%string then (set_level lg off, true)
  else (logger_warn_call lg
          (((("Unknown log level '" ++ c_str level) ++ "' for logger '")
              ++ c_str (logger_name lg)) ++ "'")%string,
        false).

(** [setLoggingLevel] applied through a pointer to the registered logger
    of the given name. *)
Definition setLoggingLevel_of (name : string) (level : string) (registry : list logger)
  : list logger * bool :=
  match spdlog_get name registry with
  | Some lg => (update_logger name (fun lg => fst (setLoggingLevel lg level)) registry,
                snd (setLoggingLevel lg level))
  | None => (registry, false)
  end.

(** Modelled from the spec: [marian::Config] is declared in
    common/config.h; configuration is a collaborator the spec leaves to
    process bootstrapping.  [has(key)] tells whether the option is set and
    [get<T>(key)] reads it, throwing when it is not set.  The record lists
    the five options [createLoggers] reads. *)
Record Config : Type := mkConfig {
  opt_log : option string;
  opt_valid_log : option string;
  opt_quiet : option bool;
  opt_log_level : option string;
  opt_log_time_zone : option string
}.

(** [createLoggers(options)], built without [_WIN32]; [options] may be the
    null pointer.  [setenv] is passed [timezone.c_str()]. *)
Definition createLoggers (options : option Config) (openable : string -> bool) (env : LogEnv)
  : thrown LogEnv :=
  let generalLogs : list string := [] in
  let validLogs : list string := [] in
  let '(generalLogs, validLogs) :=
    match options with
    | Some o => match opt_log o with
                | Some f => (generalLogs ++ [f], validLogs ++ [f])
                | None => (generalLogs, validLogs)
                end
    | None => (generalLogs, validLogs)
    end in
  let validLogs :=
    match options with
    | Some o => match opt_valid_log o with
                | Some f => if negb (f =? EmptyString)%string then validLogs ++ [f] else validLogs
                | None => validLogs
                end
    | None => validLogs
    end in
  quiet <~ match options with
           | Some o => match opt_quiet o with
                       | Some q => Returns q
                       | None => Throws
                       end
           | None => Returns false
           end ;;
  env <~ stderrLogger "general" "[%Y-%m-%d %T] %v" generalLogs quiet openable env ;;
  env <~ stderrLogger "valid" "[%Y-%m-%d %T] [valid] %v" validLogs quiet openable env ;;
  let reg := registry env in
  let levelled :=
    match options with
    | Some o => match opt_log_level o with
                | Some loglevel =>
                    let '(reg1, ok) := setLoggingLevel_of "general" loglevel reg in
                    if negb ok then (reg1, false)
                    else (fst (setLoggingLevel_of "valid" loglevel reg1), true)
                | None => (reg, true)
                end
    | None => (reg, true)
    end in
  if negb (snd levelled)
  then Returns (mkLogEnv (fst levelled) (TZ env) (sinks_made env)) else
  let tz :=
    match options with
    | Some o => match opt_log_time_zone o with
                | Some timezone => if negb (timezone =? EmptyString)%string
                                   then Some (c_str timezone)
                                   else TZ env
                | None => TZ env
                end
    | None => TZ env
    end in
  Returns (mkLogEnv (fst levelled) tz (sinks_made env)).

(** [switchtoMultinodeLogging(nodeIdStr)] *)
Definition switchtoMultinodeLogging (nodeIdStr : string) (registry : list logger)
  : list logger :=
  match spdlog_get "general" registry with
  | Some _ =>
      update_logger "general"
        (fun lg => set_pattern lg (("[%Y-%m-%d %T " ++ nodeIdStr) ++ "] %v")%string)
        registry
  | None => registry
  end.

(** The names [setLoggingLevel] knows, with their levels. *)
Definition levelNames : list (string * level_enum) :=
  [ ("trace", trace); ("debug", debug); ("info", info); ("warn", warn);
    ("err", err); ("error", err); ("critical", critical); ("off", off) ]%string.

Definition levelOfName (level : string) : option level_enum :=
  option_map snd (find (fun nl => (fst nl =? level)%string) levelNames).

(** Notions used to state what [createLoggers] builds: the value of
    [quiet], the files of the general logger and those of the validation
    logger. *)
Definition quietOf (options : option Config) : option bool :=
  match options with
  | Some o => opt_quiet o
  | None => Some false
  end.

Definition logFiles (options : option Config) : list string :=
  match options with
  | Some o => match opt_log o with Some f => [f] | None => [] end
  | None => []
  end.

Definition validLogFiles (options : option Config) : list string :=
  logFiles options ++
  match options with
  | Some o => match opt_valid_log o with
              | Some f => if (f =? EmptyString)%string then [] else [f]
              | None => []
              end
  | None => []
  end.

(** File sinks made one after the other, the first one being the file
    sink number [start]. *)
Fixpoint fileSinks (start : nat) (files : list string) : list sink :=
  match files with
  | [] => []
  | f :: files' => simple_file_sink_st start f true :: fileSinks (S start) files'
  end.

Definition sinksOf (quiet : bool) (start : nat) (files : list string) : list sink :=
  (if quiet then [] else [stderr_sink_mt]) ++ fileSinks start files.

(** The names of the files a list of sinks writes to. *)
Definition sinkFiles (sinks : list sink) : list string :=
  flat_map (fun s => match s with
                     | stderr_sink_mt => []
                     | simple_file_sink_st _ filename _ => [filename]
                     end) sinks.

Definition logLevelOf (options : option Config) : option string :=
  match options with
  | Some o => opt_log_level o
  | None => None
  end.

(** The value of TZ once the option "log-time-zone" has been applied. *)
Definition timeZoneOf (options : option Config) (old : option string) : option string :=
  match options with
  | Some o => match opt_log_time_zone o with
              | Some timezone => if (timezone =? EmptyString)%string then old
                                 else Some (c_str timezone)
              | None => old
              end
  | None => old
  end.

(** A configuration with a log file, a validation log, the given log level
    and a time zone. *)
Definition someConfig (loglevel : string) : Config :=
  mkConfig (Some "train.log"%string) (Some "valid.log"%string) (Some false)
           (Some loglevel) (Some "UTC"%string).

(* ================================================================== *)
(** * Properties *)

(* ------------------------------------------------------------------ *)
(** ** Arithmetic on [size_t] *)

Lemma SIZE_MODULUS_pos : 0 < SIZE_MODULUS.
Proof. reflexivity. Qed.

Lemma to_size_t_small (z : Z) : 0 <= z < SIZE_MODULUS -> to_size_t z = z.
Proof. intros H. unfold to_size_t. now apply Z.mod_small. Qed.

Lemma size_add_small (a b : Z) : 0 <= a + b < SIZE_MODULUS -> size_add a b = a + b.
Proof. apply to_size_t_small. Qed.

Lemma size_sub_small (a b : Z) : 0 <= a - b < SIZE_MODULUS -> size_sub a b = a - b.
Proof. apply to_size_t_small. Qed.

Lemma size_mul_small (a b : Z) : 0 <= a * b < SIZE_MODULUS -> size_mul a b = a * b.
Proof. apply to_size_t_small. Qed.

Lemma rounded_up_numerator (total N : Z) :
  0 <= total + N - 1 < SIZE_MODULUS ->
  size_sub (size_add total N) 1 = total + N - 1.
Proof.
  intros H. unfold size_sub, size_add, to_size_t.
  rewrite Zminus_mod_idemp_l. now apply Z.mod_small.
Qed.

Lemma ceil_div_rounded_up (a b : Z) : 0 < b -> ceil_div a b = (a + b - 1) / b.
Proof.
  intros Hb. unfold ceil_div.
  pose proof (Z.div_mod a b ltac:(lia)) as Hdm.
  pose proof (Z.mod_pos_bound a b Hb) as Hr.
  destruct (a mod b =? 0) eqn:E.
  - apply Z.eqb_eq in E.
    apply Z.div_unique with (r := b - 1); lia.
  - apply Z.eqb_neq in E.
    apply Z.div_unique with (r := a mod b - 1); lia.
Qed.

Lemma ceil_div_exact (a b : Z) : 0 < b -> a mod b = 0 -> ceil_div a b * b = a.
Proof.
  intros Hb Hm. unfold ceil_div. rewrite Hm. simpl.
  pose proof (Z.div_mod a b ltac:(lia)). lia.
Qed.

Lemma ceil_div_bounds (a b : Z) :
  0 < b -> 0 <= a -> a <= ceil_div a b * b < a + b /\ 0 <= ceil_div a b.
Proof.
  intros Hb Ha. unfold ceil_div.
  pose proof (Z.div_mod a b ltac:(lia)) as Hdm.
  pose proof (Z.mod_pos_bound a b Hb) as Hr.
  pose proof (Z.div_pos a b Ha Hb) as Hq.
  destruct (a mod b =? 0) eqn:E.
  - apply Z.eqb_eq in E. lia.
  - apply Z.eqb_neq in E. lia.
Qed.

Lemma ceil_div_inexact (a b : Z) :
  0 < b -> 0 <= a -> a mod b <> 0 -> a < ceil_div a b * b.
Proof.
  intros Hb Ha Hm. unfold ceil_div.
  pose proof (Z.div_mod a b ltac:(lia)) as Hdm.
  pose proof (Z.mod_pos_bound a b Hb) as Hr.
  apply Z.eqb_neq in Hm. rewrite Hm. lia.
Qed.

Lemma zlen_nonneg {A : Type} (l : list A) : 0 <= zlen l.
Proof. unfold zlen. lia. Qed.

Lemma Zsum_map_const {A : Type} (f : A -> Z) (v : Z) (l : list A) :
  (forall x, In x l -> f x = v) -> Zsum (map f l) = v * zlen l.
Proof.
  induction l as [|x l IH]; intros H.
  - unfold zlen. simpl. lia.
  - change (Zsum (map f (x :: l))) with (f x + Zsum (map f l)).
    rewrite (H x (or_introl eq_refl)).
    rewrite IH by (intros; apply H; now right).
    unfold zlen. simpl length. lia.
Qed.

Lemma in_indices (n : nat) (z : Z) : In z (indices n) <-> 0 <= z < Z.of_nat n.
Proof.
  unfold indices. rewrite in_map_iff. split.
  - intros (k & <- & Hk). apply in_seq in Hk. lia.
  - intros H. exists (Z.to_nat z). split; [lia|]. apply in_seq. lia.
Qed.

Lemma length_indices (n : nat) : length (indices n) = n.
Proof. unfold indices. now rewrite length_map, length_seq. Qed.

(* ------------------------------------------------------------------ *)
(** ** The shard planner *)

Lemma dataSize_nonneg (c : NCCLCommunicator) (total : Z) :
  dataSize c = Ok total -> 0 <= total.
Proof.
  unfold dataSize. destruct (graphs_ c); [discriminate|].
  intros [= <-]. apply zlen_nonneg.
Qed.

(** What [shardSize] computes before its check, for sizes that fit. *)
Lemma shardSize_cases (c : NCCLCommunicator) (total N : Z) :
  dataSize c = Ok total -> numNcclRanks c = N -> 0 < N ->
  total + N - 1 < SIZE_MODULUS ->
  shardSize c =
    if ceil_div total N * N =? total then Ok (ceil_div total N)
    else Abort "presently, all shards must have the same size".
Proof.
  intros Hd HN Hpos Hfit.
  pose proof (dataSize_nonneg c Hd) as H0.
  unfold shardSize. rewrite Hd, HN. simpl.
  destruct (N =? 0) eqn:E; [apply Z.eqb_eq in E; lia|].
  rewrite rounded_up_numerator by lia.
  rewrite <- ceil_div_rounded_up by assumption.
  pose proof (ceil_div_bounds Hpos H0) as [Hb Hq].
  rewrite size_mul_small by lia.
  now destruct (ceil_div total N * N =? total).
Qed.

Lemma shardSize_even (c : NCCLCommunicator) (total N : Z) :
  dataSize c = Ok total -> numNcclRanks c = N -> 0 < N ->
  total + N - 1 < SIZE_MODULUS -> total mod N = 0 ->
  shardSize c = Ok (ceil_div total N).
Proof.
  intros Hd HN Hpos Hfit Hm.
  rewrite (shardSize_cases c Hd HN Hpos Hfit).
  rewrite ceil_div_exact by assumption. now rewrite Z.eqb_refl.
Qed.

Lemma shardSize_uneven (c : NCCLCommunicator) (total N : Z) :
  dataSize c = Ok total -> numNcclRanks c = N -> 0 < N ->
  total + N - 1 < SIZE_MODULUS -> total mod N <> 0 ->
  shardSize c = Abort "presently, all shards must have the same size".
Proof.
  intros Hd HN Hpos Hfit Hm.
  rewrite (shardSize_cases c Hd HN Hpos Hfit).
  pose proof (ceil_div_inexact Hpos (dataSize_nonneg c Hd) Hm).
  destruct (ceil_div total N * N =? total) eqn:E; [apply Z.eqb_eq in E; lia|reflexivity].
Qed.

Lemma ncclRankShardRange_even (c : NCCLCommunicator) (total N rank : Z) :
  dataSize c = Ok total -> numNcclRanks c = N -> 0 < N ->
  total + N - 1 < SIZE_MODULUS -> total mod N = 0 -> 0 <= rank < N ->
  ncclRankShardRange c rank =
    Ok (rank * ceil_div total N, Z.min ((rank + 1) * ceil_div total N) total).
Proof.
  intros Hd HN Hpos Hfit Hm Hr.
  pose proof (dataSize_nonneg c Hd) as H0.
  pose proof (ceil_div_exact total Hpos Hm) as Hex.
  pose proof (ceil_div_bounds Hpos H0) as [_ Hq].
  unfold ncclRankShardRange.
  rewrite (shardSize_even c Hd HN Hpos Hfit Hm), Hd. simpl.
  set (s := ceil_div total N) in *.
  assert (0 <= rank * s /\ (rank + 1) * s <= total) as [Hlo Hhi] by nia.
  rewrite size_mul_small by lia.
  rewrite size_add_small by lia.
  do 2 f_equal. lia.
Qed.

(** C3: for a size divisible by the number of ranks (and such that the
    rounding-up numerator fits [size_t]), [shardSize] returns
    ceil(total/N), [ncclRankShardRange] returns
    [rank*shardSize, min((rank+1)*shardSize, total)) for every rank below
    N, the ranges of distinct ranks are disjoint, they cover [0, total)
    exactly, and the range lengths add up to total. *)
Theorem shard_ranges_partition (c : NCCLCommunicator) (total N : Z) :
  dataSize c = Ok total -> numNcclRanks c = N -> 0 < N ->
  total + N - 1 < SIZE_MODULUS -> total mod N = 0 ->
  shardSize c = Ok (ceil_div total N) /\
  (forall rank, 0 <= rank < N ->
     ncclRankShardRange c rank =
       Ok (rank * ceil_div total N, Z.min ((rank + 1) * ceil_div total N) total)) /\
  (forall r1 r2 b1 e1 b2 e2 k,
     0 <= r1 < N -> 0 <= r2 < N -> r1 <> r2 ->
     ncclRankShardRange c r1 = Ok (b1, e1) ->
     ncclRankShardRange c r2 = Ok (b2, e2) ->
     ~ (b1 <= k < e1 /\ b2 <= k < e2)) /\
  (forall k, 0 <= k < total <->
     exists r b e, 0 <= r < N /\ ncclRankShardRange c r = Ok (b, e) /\ b <= k < e) /\
  Zsum (map (shardLength c) (indices (Z.to_nat N))) = total.
Proof.
  intros Hd HN Hpos Hfit Hm.
  pose proof (dataSize_nonneg c Hd) as H0.
  pose proof (ceil_div_exact total Hpos Hm) as Hex.
  pose proof (ceil_div_bounds Hpos H0) as [_ Hq].
  pose proof (fun rank => @ncclRankShardRange_even c total N rank Hd HN Hpos Hfit Hm) as Hrange.
  set (s := ceil_div total N) in *.
  split; [now apply shardSize_even|].
  split; [exact Hrange|].
  split; [|split].
  - intros r1 r2 b1 e1 b2 e2 k H1 H2 Hne E1 E2 [K1 K2].
    rewrite Hrange in E1 by assumption. rewrite Hrange in E2 by assumption.
    injection E1 as <- <-. injection E2 as <- <-.
    assert (r1 < r2 \/ r2 < r1) as [Hlt|Hlt] by lia; nia.
  - intros k. split.
    + intros Hk.
      assert (0 < s) as Hs by nia.
      exists (k / s), (k / s * s), (Z.min ((k / s + 1) * s) total).
      pose proof (Z.div_mod k s ltac:(lia)) as Hdm.
      pose proof (Z.mod_pos_bound k s Hs) as Hrem.
      assert (0 <= k / s) by (apply Z.div_pos; lia).
      assert (k / s < N) by nia.
      split; [lia|]. split; [apply Hrange; lia|]. nia.
    + intros (r & b & e & Hr & E & Hk).
      rewrite Hrange in E by assumption. injection E as <- <-. nia.
  - rewrite (@Zsum_map_const _ (shardLength c) s).
    + unfold zlen. rewrite length_indices. lia.
    + intros r Hr. apply in_indices in Hr.
      unfold shardLength. rewrite Hrange by lia. nia.
Qed.

(** C3, at three devices with twelve elements each. *)
Lemma shard_ranges_partition_witness :
  let c := blankComm float32 3 12 None in
  shardSize c = Ok (ceil_div 12 3) /\
  (forall rank, 0 <= rank < 3 ->
     ncclRankShardRange c rank =
       Ok (rank * ceil_div 12 3, Z.min ((rank + 1) * ceil_div 12 3) 12)) /\
  (forall r1 r2 b1 e1 b2 e2 k,
     0 <= r1 < 3 -> 0 <= r2 < 3 -> r1 <> r2 ->
     ncclRankShardRange c r1 = Ok (b1, e1) ->
     ncclRankShardRange c r2 = Ok (b2, e2) ->
     ~ (b1 <= k < e1 /\ b2 <= k < e2)) /\
  (forall k, 0 <= k < 12 <->
     exists r b e, 0 <= r < 3 /\ ncclRankShardRange c r = Ok (b, e) /\ b <= k < e) /\
  Zsum (map (shardLength c) (indices (Z.to_nat 3))) = 12.
Proof.
  intro c.
  apply (@shard_ranges_partition c 12 3);
    [reflexivity | reflexivity | lia | reflexivity | reflexivity].
Defined.

(** C4: for a size not divisible by the number of ranks, [shardSize] ends
    in the fatal error; so it does for 10 elements on 3 ranks, while 12
    elements on 3 ranks give shard size 4 and the ranges [0,4), [4,8),
    [8,12). *)
Theorem uneven_division_aborts (c : NCCLCommunicator) (total N : Z) :
  dataSize c = Ok total -> numNcclRanks c = N -> 0 < N ->
  total + N - 1 < SIZE_MODULUS -> total mod N <> 0 ->
  shardSize c = Abort "presently, all shards must have the same size" /\
  (forall rank, ncclRankShardRange c rank
                = Abort "presently, all shards must have the same size") /\
  shardSize (blankComm float32 3 10 None)
    = Abort "presently, all shards must have the same size" /\
  shardSize (blankComm float32 3 12 None) = Ok 4 /\
  map (ncclRankShardRange (blankComm float32 3 12 None)) [0; 1; 2]
    = [Ok (0, 4); Ok (4, 8); Ok (8, 12)].
Proof.
  intros Hd HN Hpos Hfit Hm.
  pose proof (shardSize_uneven c Hd HN Hpos Hfit Hm) as Hs.
  split; [exact Hs|].
  split.
  - intros rank. unfold ncclRankShardRange. now rewrite Hs.
  - repeat split; reflexivity.
Qed.

(** C4, at three devices with ten elements each. *)
Lemma uneven_division_aborts_witness :
  let c := blankComm float32 3 10 None in
  shardSize c = Abort "presently, all shards must have the same size" /\
  (forall rank, ncclRankShardRange c rank
                = Abort "presently, all shards must have the same size") /\
  shardSize (blankComm float32 3 10 None)
    = Abort "presently, all shards must have the same size" /\
  shardSize (blankComm float32 3 12 None) = Ok 4 /\
  map (ncclRankShardRange (blankComm float32 3 12 None)) [0; 1; 2]
    = [Ok (0, 4); Ok (4, 8); Ok (8, 12)].
Proof.
  intro c.
  apply (@uneven_division_aborts c 10 3);
    [reflexivity | reflexivity | lia | reflexivity | discriminate].
Defined.

(* ------------------------------------------------------------------ *)
(** ** The signal guard *)

Lemma lor_absorb (m b : Z) : Z.lor (Z.lor m b) m = Z.lor m b.
Proof.
  rewrite (Z.lor_comm m b), <- Z.lor_assoc, Z.lor_diag. reflexivity.
Qed.

(** One guard: while it lives the signal is in the mask; once destroyed
    the mask is the old one with the signal added. *)
Lemma BlockSignal_thread_scope (signal : Z) (st : SignalState) :
  let '(b, st1) := BlockSignal_ctor signal pthread_sigmask st in
  threadMask st1 = Z.lor (threadMask st) (sigaddset sigemptyset signal) /\
  oldSigSet_ b = threadMask st /\
  threadMask (BlockSignal_dtor b st1) = Z.lor (threadMask st) (sigaddset sigemptyset signal).
Proof.
  unfold BlockSignal_ctor. cbv zeta.
  generalize (sigaddset sigemptyset signal). intros b.
  unfold BlockSignal_dtor. simpl. repeat split. apply lor_absorb.
Qed.

Lemma sigismember_block (mask : sigset_t) (signal : Z) :
  1 <= signal ->
  sigismember (Z.lor mask (sigaddset sigemptyset signal)) signal = true.
Proof.
  intros H. unfold sigismember, sigaddset, sigemptyset.
  rewrite Z.lor_spec, Z.lor_0_l, Z.shiftl_1_l, Z.pow2_bits_true by lia.
  apply orb_true_r.
Qed.

(** During the initialisation both masks hold SIGPROF. *)
Lemma signal_blocked_during_init (st : SignalState) :
  sigismember (threadMask (masksDuringInit sigprocmask st)) SIG_BAD = true /\
  sigismember (procMask (masksDuringInit sigprocmask st)) SIG_BAD = true.
Proof.
  unfold masksDuringInit, BlockSignal_ctor. cbv zeta.
  split; cbn [snd fst pthread_sigmask sigprocmask threadMask procMask change_mask];
    apply sigismember_block; unfold SIG_BAD; lia.
Qed.

(** After the scope both masks are the previous ones with SIGPROF added. *)
Lemma guardedInit_masks (st : SignalState) :
  guardedInit sigprocmask (Ok tt) st =
    Ok (mkSignals (Z.lor (threadMask st) (sigaddset sigemptyset SIG_BAD))
                  (Z.lor (procMask st) (sigaddset sigemptyset SIG_BAD))).
Proof.
  unfold guardedInit, BlockSignal_ctor. cbv zeta.
  generalize (sigaddset sigemptyset SIG_BAD). intros b.
  unfold BlockSignal_dtor. simpl. now rewrite !lor_absorb.
Qed.

Lemma guardedInit_same_mask (st : SignalState) :
  guardedInit sigprocmask_same_mask (Ok tt) st =
    Ok (mkSignals (Z.lor (threadMask st) (sigaddset sigemptyset SIG_BAD)) (procMask st)).
Proof.
  unfold guardedInit, BlockSignal_ctor. cbv zeta.
  generalize (sigaddset sigemptyset SIG_BAD). intros b.
  unfold BlockSignal_dtor, sigprocmask_same_mask. simpl. f_equal. f_equal.
  apply Z.bits_inj'. intros n _. rewrite !Z.lor_spec.
  destruct (Z.testbit (threadMask st) n), (Z.testbit b n); reflexivity.
Qed.

(** The masks come back as they were exactly when SIGPROF was blocked
    before. *)
Lemma guardedInit_restores_iff (st : SignalState) :
  guardedInit sigprocmask (Ok tt) st = Ok st <->
  sigismember (threadMask st) SIG_BAD = true /\ sigismember (procMask st) SIG_BAD = true.
Proof.
  rewrite guardedInit_masks. destruct st as [t p]. simpl.
  assert (forall m, Z.lor m (sigaddset sigemptyset SIG_BAD) = m <->
                    sigismember m SIG_BAD = true) as Hone.
  { intros m. unfold sigismember, sigaddset, sigemptyset, SIG_BAD.
    rewrite Z.lor_0_l, Z.shiftl_1_l. split.
    - intros E. rewrite <- E, Z.lor_spec, Z.pow2_bits_true by lia. apply orb_true_r.
    - intros E. apply Z.bits_inj'. intros n Hn.
      rewrite Z.lor_spec.
      destruct (Z.eq_dec n (27 - 1)) as [->|Hne].
      + rewrite E. reflexivity.
      + rewrite Z.pow2_bits_false by lia. apply orb_false_r. }
  split.
  - intros [= Ht Hp]. split; now apply Hone.
  - intros [Ht Hp]. f_equal. f_equal; now apply Hone.
Qed.

(** C9 (evaluation at the failing input): with no signal blocked before,
    SIGPROF is blocked during the initialisation, and it is still blocked
    in both masks after the two guards are destroyed: the destructor calls
    the mask function with [SIG_BLOCK], which adds the old set to the mask
    and removes nothing.  The same holds where both calls act on one mask.
    A failing initialisation ends the process inside the scope. *)
Theorem BlockSignal_leaves_signal_blocked :
  sigismember (threadMask (mkSignals 0 0)) SIG_BAD = false /\
  sigismember (threadMask (masksDuringInit sigprocmask (mkSignals 0 0))) SIG_BAD = true /\
  guardedInit sigprocmask (Ok tt) (mkSignals 0 0)
    = Ok (mkSignals (Z.shiftl 1 26) (Z.shiftl 1 26)) /\
  guardedInit sigprocmask_same_mask (Ok tt) (mkSignals 0 0)
    = Ok (mkSignals (Z.shiftl 1 26) 0) /\
  guardedInit sigprocmask (Abort "NCCL error") (mkSignals 0 0) = Abort "NCCL error".
Proof.
  repeat split; reflexivity.
Qed.

(* ------------------------------------------------------------------ *)
(** ** [foreachAcc] *)

Lemma bind_not_ok {A B : Type} (m : outcome A) (k k' : A -> outcome B) :
  (forall a, m <> Ok a) -> bind m k = bind m k'.
Proof.
  intros H. destruct m; try reflexivity. now elim (H a).
Qed.

Lemma bind_assoc {A B C : Type} (m : outcome A) (k : A -> outcome B) (h : B -> outcome C) :
  bind (bind m k) h = bind m (fun a => bind (k a) h).
Proof. now destruct m. Qed.

(** The planner answers for every device or for none: whether it returns
    does not depend on the device. *)
Lemma localShardRange_all_or_none (c : NCCLCommunicator) :
  (forall i, localShardRange c i = Ok (rangeOf c i)) \/
  (forall i a, localShardRange c i <> Ok a).
Proof.
  destruct (shardSize c) as [sz| | |] eqn:E.
  - left. intros i. unfold rangeOf.
    destruct (localShardRange c i) eqn:L; try reflexivity;
      unfold localShardRange, ncclRankShardRange in L; rewrite E in L; simpl in L;
      unfold shardSize in E; destruct (dataSize c); simpl in *; discriminate.
  - right. intros i a. unfold localShardRange, ncclRankShardRange. rewrite E. discriminate.
  - right. intros i a. unfold localShardRange, ncclRankShardRange. rewrite E. discriminate.
  - right. intros i a. unfold localShardRange, ncclRankShardRange. rewrite E. discriminate.
Qed.

Lemma shardSize_localShardRange (c : NCCLCommunicator) (sz : Z) :
  shardSize c = Ok sz -> forall i, localShardRange c i = Ok (rangeOf c i).
Proof.
  intros E. destruct (localShardRange_all_or_none c) as [H|H]; [exact H|].
  exfalso. specialize (H 0).
  unfold localShardRange, ncclRankShardRange in H. rewrite E in H. simpl in H.
  unfold shardSize in E. destruct (dataSize c); simpl in *; try discriminate.
  eapply H. reflexivity.
Qed.

Lemma length_tasksOf (c : NCCLCommunicator) (devs : list Z) :
  length (tasksOf c devs) = length devs.
Proof. unfold tasksOf. apply length_map. Qed.

Section ForeachFacts.
Variables Ret St : Type.
Variable c : NCCLCommunicator.
Variable func : ForeachFunc Ret St.
Variable acc : AccFunc Ret.

(** The function, on the tasks [good] and the states [Inv], returns
    [res t] and leaves the state [upd t s]. *)
Variable good : Task -> Prop.
Variable Inv : St -> Prop.
Variable res : Task -> Ret.
Variable upd : Task -> St -> St.
Hypothesis func_behaves : forall t s, good t -> Inv s ->
  func (task_device t) (task_begin t) (task_end t) s = Ok (res t, upd t s) /\ Inv (upd t s).

Hypothesis planner_returns : forall i, localShardRange c i = Ok (rangeOf c i).

Lemma dispatch_sequential (devs : list Z) :
  forall retValue threadResults s,
    Forall good (tasksOf c devs) -> Inv s ->
    foreach_dispatch c func acc false devs retValue threadResults s =
      Ok (fold_left acc (map res (tasksOf c devs)) retValue, threadResults,
          fold_left (fun s t => upd t s) (tasksOf c devs) s).
Proof.
  induction devs as [|i devs IH]; intros retValue threadResults s Hgood Hinv.
  - reflexivity.
  - simpl in Hgood. inversion Hgood as [|t ts Ht Hts]; subst.
    simpl. rewrite planner_returns. simpl.
    destruct (rangeOf c i) as [b e] eqn:R. simpl in Ht.
    destruct (func_behaves Ht Hinv) as [Hf Hinv']. simpl in Hf.
    rewrite Hf. simpl. rewrite IH by assumption. reflexivity.
Qed.

Lemma dispatch_parallel (devs : list Z) :
  forall retValue threadResults s,
    foreach_dispatch c func acc true devs retValue threadResults s =
      Ok (retValue, threadResults ++ tasksOf c devs, s).
Proof.
  induction devs as [|i devs IH]; intros retValue threadResults s.
  - simpl. now rewrite app_nil_r.
  - simpl. rewrite planner_returns. simpl.
    destruct (rangeOf c i) as [b e] eqn:R. simpl.
    rewrite IH, <- app_assoc. reflexivity.
Qed.

Lemma scheduled_good (tasks : list Task) (schedule : list nat) :
  Forall good tasks -> Forall (fun kt => good (snd kt)) (scheduled tasks schedule).
Proof.
  intros Hgood. induction schedule as [|k rest IH]; simpl.
  - constructor.
  - destruct (nth_error tasks k) as [t|] eqn:E; simpl; [|exact IH].
    constructor; [|exact IH]. simpl.
    rewrite Forall_forall in Hgood. apply Hgood. eapply nth_error_In; eauto.
Qed.

Lemma pool_run_scheduled (tasks : list Task) (schedule : list nat) :
  forall s, Forall good tasks -> Inv s ->
    pool_run func tasks schedule s =
      Ok (map (fun kt => (fst kt, res (snd kt))) (scheduled tasks schedule),
          fold_left (fun s kt => upd (snd kt) s) (scheduled tasks schedule) s).
Proof.
  induction schedule as [|k rest IH]; intros s Hgood Hinv.
  - reflexivity.
  - simpl. destruct (nth_error tasks k) as [t|] eqn:E.
    + assert (good t) as Ht.
      { rewrite Forall_forall in Hgood. apply Hgood. eapply nth_error_In; eauto. }
      destruct (func_behaves Ht Hinv) as [Hf Hinv'].
      rewrite Hf. simpl. rewrite IH by assumption. reflexivity.
    + simpl. now apply IH.
Qed.

Lemma future_get_scheduled (tasks : list Task) (schedule : list nat) (k : nat) (t : Task) :
  In k schedule -> nth_error tasks k = Some t ->
  future_get (map (fun kt => (fst kt, res (snd kt))) (scheduled tasks schedule)) k
    = Ok (res t).
Proof.
  intros Hin Hk. unfold future_get.
  induction schedule as [|k' rest IH]; [contradiction|].
  simpl. destruct (Nat.eq_dec k' k) as [->|Hne].
  - rewrite Hk. simpl. now rewrite Nat.eqb_refl.
  - destruct Hin as [Heq|Hin]; [contradiction|].
    destruct (nth_error tasks k') as [t'|]; simpl.
    + apply Nat.eqb_neq in Hne. rewrite Hne. now apply IH.
    + now apply IH.
Qed.

Lemma join_fulfilled (fulfilled : list (nat * Ret)) (futures : list nat) (rs : list Ret) :
  Forall2 (fun k r => future_get fulfilled k = Ok r) futures rs ->
  forall retValue,
    foreach_join acc fulfilled futures retValue = Ok (fold_left acc rs retValue).
Proof.
  induction 1 as [|k r futures rs Hk _ IH]; intros retValue.
  - reflexivity.
  - simpl. rewrite Hk. simpl. apply IH.
Qed.

Lemma futures_in_order (P : nat -> Ret -> Prop) (tasks : list Task) :
  forall a, (forall k t, nth_error tasks k = Some t -> P (a + k)%nat (res t)) ->
  Forall2 P (seq a (length tasks)) (map res tasks).
Proof.
  induction tasks as [|t tasks IH]; intros a H; simpl.
  - constructor.
  - constructor.
    + specialize (H 0%nat t eq_refl). now rewrite Nat.add_0_r in H.
    + apply IH. intros k t' Hk.
      replace (S a + k)%nat with (a + S k)%nat by lia.
      now apply H.
Qed.

(** The parallel branch: every task runs once, in schedule order on the
    state; the results are folded in device order. *)
Lemma foreachAcc_parallel (init : Ret) (schedule : list nat) (s : St) :
  let tasks := tasksOf c (indices (length (graphs_ c))) in
  (1 < length (graphs_ c))%nat ->
  Forall good tasks -> Inv s ->
  Permutation schedule (seq 0 (length (graphs_ c))) ->
  foreachAcc c func acc init true schedule s =
    Ok (fold_left acc (map res tasks) init,
        fold_left (fun s kt => upd (snd kt) s) (scheduled tasks schedule) s).
Proof.
  intros tasks Hn Hgood Hinv Hperm.
  unfold foreachAcc.
  assert ((1 <? devices_size c) = true) as ->.
  { apply Z.ltb_lt. unfold devices_size, zlen. lia. }
  simpl andb. rewrite dispatch_parallel. simpl.
  fold tasks. rewrite pool_run_scheduled by assumption. simpl.
  rewrite (@join_fulfilled _ _ (map res tasks)).
  - reflexivity.
  - apply futures_in_order. intros k t Hk. simpl.
    apply future_get_scheduled; [|exact Hk].
    apply (Permutation_in _ (Permutation_sym Hperm)).
    apply in_seq.
    assert (k < length tasks)%nat as Hlt by (apply nth_error_Some; congruence).
    unfold tasks in Hlt. rewrite length_tasksOf, length_indices in Hlt. lia.
Qed.

(** The sequential branch. *)
Lemma foreachAcc_sequential (init : Ret) (parallel : bool) (schedule : list nat) (s : St) :
  let tasks := tasksOf c (indices (length (graphs_ c))) in
  parallel && (1 <? devices_size c) = false ->
  Forall good tasks -> Inv s ->
  foreachAcc c func acc init parallel schedule s =
    Ok (fold_left acc (map res tasks) init,
        fold_left (fun s t => upd t s) tasks s).
Proof.
  intros tasks Hseq Hgood Hinv.
  unfold foreachAcc. rewrite Hseq.
  rewrite dispatch_sequential by assumption. reflexivity.
Qed.
End ForeachFacts.

Lemma nth_error_indices (n k : nat) :
  (k < n)%nat -> nth_error (indices n) k = Some (Z.of_nat k).
Proof.
  intros H. unfold indices. rewrite nth_error_map, nth_error_seq.
  apply Nat.ltb_lt in H. now rewrite H.
Qed.

Lemma nth_error_tasksOf (c : NCCLCommunicator) (n k : nat) :
  (k < n)%nat ->
  nth_error (tasksOf c (indices n)) k =
    Some (mkTask (Z.of_nat k) (fst (rangeOf c (Z.of_nat k))) (snd (rangeOf c (Z.of_nat k)))).
Proof.
  intros H. unfold tasksOf. rewrite nth_error_map, nth_error_indices by assumption.
  reflexivity.
Qed.

(** The devices a schedule runs, when it only names enqueued tasks. *)
Lemma scheduled_devices (c : NCCLCommunicator) (n : nat) (schedule : list nat) :
  (forall k, In k schedule -> (k < n)%nat) ->
  map (fun kt => task_device (snd kt)) (scheduled (tasksOf c (indices n)) schedule)
    = map Z.of_nat schedule.
Proof.
  induction schedule as [|k rest IH]; intros H; simpl.
  - reflexivity.
  - rewrite nth_error_tasksOf by (apply H; now left).
    simpl. f_equal. apply IH. intros k' Hk'. apply H. now right.
Qed.

Lemma permutation_below (schedule : list nat) (n : nat) :
  Permutation schedule (seq 0 n) -> forall k, In k schedule -> (k < n)%nat.
Proof.
  intros Hperm k Hk. apply (Permutation_in _ Hperm) in Hk.
  apply in_seq in Hk. lia.
Qed.

Lemma fold_left_keep {A B : Type} (l : list B) (a : A) :
  fold_left (fun s _ => s) l a = a.
Proof. induction l; simpl; auto. Qed.

Lemma fold_left_log {A B : Type} (dev : B -> A) (l : list B) (log : list A) :
  fold_left (fun s x => s ++ [dev x]) l log = log ++ map dev l.
Proof.
  revert log. induction l as [|x l IH]; intros log; simpl.
  - now rewrite app_nil_r.
  - rewrite IH, <- app_assoc. reflexivity.
Qed.

Lemma fold_left_allTrue (l : list bool) (b : bool) :
  fold_left allTrue l b = b && forallb (fun x => x) l.
Proof.
  revert b. induction l as [|x l IH]; intros b; simpl.
  - now rewrite andb_true_r.
  - rewrite IH. unfold allTrue. now rewrite andb_assoc.
Qed.

Lemma map_tasksOf {Ret : Type} (c : NCCLCommunicator) (f : Z -> Z -> Z -> Ret) (devs : list Z) :
  map (fun t => f (task_device t) (task_begin t) (task_end t)) (tasksOf c devs)
    = map (fun i => f i (fst (rangeOf c i)) (snd (rangeOf c i))) devs.
Proof. unfold tasksOf. now rewrite map_map. Qed.

Lemma Forall_trivial {A : Type} (l : list A) : Forall (fun _ => True) l.
Proof. apply Forall_forall. trivial. Qed.

(** C6: for a pure per-device function, any reducer and any initial value,
    [foreachAcc] returns the same with [parallel = true] as with
    [parallel = false], whatever the order in which the pool runs the
    tasks; where the planner returns, both are the fold of the per-device
    results in ascending device order. *)
Theorem foreachAcc_parallel_agrees_sequential
        (Ret St : Type) (c : NCCLCommunicator) (f : Z -> Z -> Z -> Ret)
        (acc : AccFunc Ret) (init : Ret) (schedule : list nat) (s : St) :
  Permutation schedule (seq 0 (length (graphs_ c))) ->
  foreachAcc c (pureFunc f) acc init true schedule s
    = foreachAcc c (pureFunc f) acc init false schedule s /\
  (forall sz, shardSize c = Ok sz ->
     foreachAcc c (pureFunc f) acc init true schedule s =
       Ok (fold_left acc
                     (map (fun i => f i (fst (rangeOf c i)) (snd (rangeOf c i)))
                          (indices (length (graphs_ c))))
                     init, s)).
Proof.
  intros Hperm.
  set (res := fun t : Task => f (task_device t) (task_begin t) (task_end t)).
  assert (forall t (s : St), True -> True ->
            pureFunc f (task_device t) (task_begin t) (task_end t) s = Ok (res t, s) /\ True)
    as Hfunc by (intros; split; [reflexivity|exact I]).
  assert ((forall i, localShardRange c i = Ok (rangeOf c i)) ->
          forall parallel,
            foreachAcc c (pureFunc f) acc init parallel schedule s =
              Ok (fold_left acc
                            (map (fun i => f i (fst (rangeOf c i)) (snd (rangeOf c i)))
                                 (indices (length (graphs_ c))))
                            init, s)) as Hboth.
  { intros Hplan parallel.
    destruct (parallel && (1 <? devices_size c)) eqn:E.
    - apply andb_true_iff in E. destruct E as [-> E].
      apply Z.ltb_lt in E. unfold devices_size, zlen in E.
      rewrite (@foreachAcc_parallel Ret St c (pureFunc f) acc
                 (fun _ => True) (fun _ => True) res (fun _ s => s) Hfunc Hplan);
        [| lia | apply Forall_trivial | exact I | exact Hperm].
      unfold res. rewrite map_tasksOf, fold_left_keep. reflexivity.
    - rewrite (@foreachAcc_sequential Ret St c (pureFunc f) acc
                 (fun _ => True) (fun _ => True) res (fun _ s => s) Hfunc Hplan);
        [| exact E | apply Forall_trivial | exact I].
      unfold res. rewrite map_tasksOf, fold_left_keep. reflexivity. }
  split.
  - destruct (localShardRange_all_or_none c) as [Hplan|Hnone].
    + now rewrite !Hboth.
    + unfold foreachAcc.
      destruct (1 <? devices_size c) eqn:E; [|reflexivity].
      apply Z.ltb_lt in E. unfold devices_size, zlen in E.
      destruct (length (graphs_ c)) as [|n]; [lia|].
      unfold indices. simpl seq. simpl map. simpl andb.
      cbn [foreach_dispatch]. rewrite !bind_assoc.
      apply bind_not_ok. apply Hnone.
  - intros sz Hsz. apply Hboth. now apply shardSize_localShardRange with sz.
Qed.

(** C6, at three devices with twelve elements and the pool running the
    tasks in the order 2, 0, 1; the reducer is a subtraction, which is
    neither commutative nor associative. *)
Lemma foreachAcc_parallel_agrees_sequential_witness :
  foreachAcc (blankComm float32 3 12 None) (pureFunc (fun i b e => i + b + e))
             (fun x y => x - y) 100 true [2; 0; 1]%nat tt
    = foreachAcc (blankComm float32 3 12 None) (pureFunc (fun i b e => i + b + e))
                 (fun x y => x - y) 100 false [2; 0; 1]%nat tt /\
  (forall sz, shardSize (blankComm float32 3 12 None) = Ok sz ->
     foreachAcc (blankComm float32 3 12 None) (pureFunc (fun i b e => i + b + e))
                (fun x y => x - y) 100 true [2; 0; 1]%nat tt =
       Ok (fold_left (fun x y => x - y)
                     (map (fun i => i + fst (rangeOf (blankComm float32 3 12 None) i)
                                      + snd (rangeOf (blankComm float32 3 12 None) i))
                          (indices (length (graphs_ (blankComm float32 3 12 None)))))
                     100, tt)).
Proof.
  apply (@foreachAcc_parallel_agrees_sequential Z unit (blankComm float32 3 12 None)
           (fun i b e => i + b + e) (fun x y => x - y) 100 [2; 0; 1]%nat tt).
  simpl. apply perm_trans with [0; 2; 1]%nat.
  - apply perm_swap.
  - apply perm_skip. apply perm_swap.
Defined.

(** C7: where the planner returns, the boolean [foreach] returns the
    conjunction of the per-device results, starting from [true]: [true]
    when the function returns [true] on every device and [false] as soon
    as it returns [false] on one, in either mode and whatever the order in
    which the pool runs the tasks; the function is invoked once for each
    local device. *)
Theorem foreach_bool_conjunction
        (c : NCCLCommunicator) (f : Z -> Z -> Z -> bool)
        (parallel : bool) (schedule : list nat) (sz : Z) :
  shardSize c = Ok sz ->
  Permutation schedule (seq 0 (length (graphs_ c))) ->
  exists log,
    foreach c (loggedFunc f) parallel schedule [] =
      Ok (forallb (fun i => f i (fst (rangeOf c i)) (snd (rangeOf c i)))
                  (indices (length (graphs_ c))), log) /\
    Permutation log (indices (length (graphs_ c))) /\
    (returned (foreach c (loggedFunc f) parallel schedule []) = Ok true <->
     forall i, 0 <= i < devices_size c ->
               f i (fst (rangeOf c i)) (snd (rangeOf c i)) = true).
Proof.
  intros Hsz Hperm.
  pose proof (shardSize_localShardRange c Hsz) as Hplan.
  set (res := fun t : Task => f (task_device t) (task_begin t) (task_end t)).
  set (upd := fun (t : Task) (log : list Z) => log ++ [task_device t]).
  assert (forall t (s : list Z), True -> True ->
            loggedFunc f (task_device t) (task_begin t) (task_end t) s
              = Ok (res t, upd t s) /\ True)
    as Hfunc by (intros; split; [reflexivity|exact I]).
  set (n := length (graphs_ c)) in *.
  assert (forall l, fold_left allTrue (map res (tasksOf c l)) true
                    = forallb (fun i => f i (fst (rangeOf c i)) (snd (rangeOf c i))) l)
    as Hfold.
  { intros l. rewrite fold_left_allTrue. simpl.
    unfold res. rewrite map_tasksOf. clear. induction l; simpl; [reflexivity|].
    now rewrite IHl. }
  assert (exists log,
            foreach c (loggedFunc f) parallel schedule [] =
              Ok (forallb (fun i => f i (fst (rangeOf c i)) (snd (rangeOf c i)))
                          (indices n), log) /\
            Permutation log (indices n)) as (log & Hrun & Hlog).
  { unfold foreach.
    destruct (parallel && (1 <? devices_size c)) eqn:E.
    - apply andb_true_iff in E. destruct E as [-> E].
      apply Z.ltb_lt in E. unfold devices_size, zlen in E.
      rewrite (@foreachAcc_parallel bool (list Z) c (loggedFunc f) allTrue
                 (fun _ => True) (fun _ => True) res upd Hfunc Hplan);
        [| lia | apply Forall_trivial | exact I | exact Hperm].
      fold n. rewrite Hfold.
      eexists. split; [reflexivity|].
      unfold upd.
      rewrite (fold_left_log (fun kt : nat * Task => task_device (snd kt))).
      simpl. rewrite scheduled_devices by (now apply permutation_below).
      unfold indices. now apply Permutation_map.
    - rewrite (@foreachAcc_sequential bool (list Z) c (loggedFunc f) allTrue
                 (fun _ => True) (fun _ => True) res upd Hfunc Hplan);
        [| exact E | apply Forall_trivial | exact I].
      fold n. rewrite Hfold.
      eexists. split; [reflexivity|].
      unfold upd. rewrite (fold_left_log task_device). simpl.
      unfold tasksOf. rewrite map_map. simpl. rewrite map_id. apply Permutation_refl. }
  exists log. split; [exact Hrun|]. split; [exact Hlog|].
  rewrite Hrun. unfold returned. simpl. split.
  - intros [= Hall] i Hi. rewrite forallb_forall in Hall.
    apply Hall. apply in_indices. exact Hi.
  - intros Hall. f_equal. apply forallb_forall. intros i Hi.
    apply Hall. now apply in_indices.
Qed.

(** C7, at four devices with twelve elements, in parallel mode, the pool
    running the tasks in the order 3, 1, 0, 2, with a function that is
    true on every device. *)
Lemma foreach_bool_conjunction_witness :
  exists log,
    foreach (blankComm float32 4 12 None) (loggedFunc (fun _ b e => b <? e))
            true [3; 1; 0; 2]%nat [] =
      Ok (forallb (fun i => fst (rangeOf (blankComm float32 4 12 None) i)
                              <? snd (rangeOf (blankComm float32 4 12 None) i))
                  (indices (length (graphs_ (blankComm float32 4 12 None)))), log) /\
    Permutation log (indices (length (graphs_ (blankComm float32 4 12 None)))) /\
    (returned (foreach (blankComm float32 4 12 None) (loggedFunc (fun _ b e => b <? e))
                       true [3; 1; 0; 2]%nat []) = Ok true <->
     forall i, 0 <= i < devices_size (blankComm float32 4 12 None) ->
               (fst (rangeOf (blankComm float32 4 12 None) i)
                  <? snd (rangeOf (blankComm float32 4 12 None) i)) = true).
Proof.
  apply (@foreach_bool_conjunction (blankComm float32 4 12 None)
           (fun _ b e => b <? e) true [3; 1; 0; 2]%nat 3).
  - reflexivity.
  - simpl.
    apply perm_trans with [1; 3; 0; 2]%nat; [apply perm_swap|].
    apply perm_trans with [1; 0; 3; 2]%nat; [apply perm_skip, perm_swap|].
    apply perm_trans with [0; 1; 3; 2]%nat; [apply perm_swap|].
    do 2 apply perm_skip. apply perm_swap.
Defined.

(* ------------------------------------------------------------------ *)
(** ** Ranks of a job *)

Lemma process_ranks (P D p : nat) (c : NCCLCommunicator) :
  processOf P D p c -> (p < P)%nat -> Z.of_nat (P * D) < SIZE_MODULUS ->
  numNcclRanks c = Z.of_nat (P * D) /\
  forall i, 0 <= i < Z.of_nat D ->
            myNcclRank c i = Z.of_nat (p * D) + i.
Proof.
  intros [HD Hmpi] Hp Hfit.
  assert (Z.of_nat (p * D) + Z.of_nat D <= Z.of_nat (P * D)) as Hle by nia.
  unfold numNcclRanks, myNcclRank, devices_size, zlen. rewrite HD.
  destruct Hmpi as [-> | (-> & -> & ->)]; simpl.
  - split.
    + rewrite size_mul_small by nia. lia.
    + intros i Hi.
      rewrite (size_mul_small (Z.of_nat p) (Z.of_nat D)) by nia.
      rewrite size_add_small by nia. lia.
  - split; [lia|]. intros i Hi. lia.
Qed.

(* ------------------------------------------------------------------ *)
(** ** Lists of processes and devices *)

Lemma mapM_ok {A B : Type} (f : A -> outcome B) (g : A -> B) (l : list A) :
  (forall x, In x l -> f x = Ok (g x)) -> mapM f l = Ok (map g l).
Proof.
  induction l as [|x l IH]; intros H; simpl.
  - reflexivity.
  - rewrite (H x (or_introl eq_refl)). simpl.
    rewrite IH by (intros; apply H; now right). reflexivity.
Qed.

Lemma map_by_position {A B : Type} (h : A -> B) (h' : nat -> B) (l : list A) :
  forall a, (forall p x, nth_error l p = Some x -> h x = h' (a + p)%nat) ->
            map h l = map h' (seq a (length l)).
Proof.
  induction l as [|x l IH]; intros a H; simpl.
  - reflexivity.
  - f_equal.
    + specialize (H 0%nat x eq_refl). now rewrite Nat.add_0_r in H.
    + apply IH. intros p y Hp.
      replace (S a + p)%nat with (a + S p)%nat by lia. now apply H.
Qed.

Lemma map_seq_shift {B : Type} (F : nat -> B) (a n : nat) :
  map (fun i => F (a + i)%nat) (seq 0 n) = map F (seq a n).
Proof.
  revert a. induction n as [|n IH]; intros a; simpl.
  - reflexivity.
  - rewrite Nat.add_0_r. f_equal.
    rewrite <- seq_shift, map_map.
    rewrite <- (IH (S a)). apply map_ext. intros i. f_equal. lia.
Qed.

(** [P] blocks of [D] consecutive ranks are the ranks [0 .. P*D-1]. *)
Lemma concat_blocks {B : Type} (F : nat -> B) (P D : nat) :
  concat (map (fun p => map (fun i => F (p * D + i)%nat) (seq 0 D)) (seq 0 P))
    = map F (seq 0 (P * D)).
Proof.
  induction P as [|P IH].
  - reflexivity.
  - rewrite seq_S, map_app, concat_app, IH. simpl.
    rewrite app_nil_r, map_seq_shift.
    replace (D + P * D)%nat with (P * D + D)%nat by lia.
    now rewrite seq_app, map_app.
Qed.

Lemma fold_left_map {A B C : Type} (f : A -> B -> A) (h : C -> B) (l : list C) (a : A) :
  fold_left f (map h l) a = fold_left (fun a x => f a (h x)) l a.
Proof.
  revert a. induction l as [|x l IH]; intros a; simpl; [reflexivity|apply IH].
Qed.

Lemma fold_left_ext_in {A B : Type} (f g : A -> B -> A) (l : list B) (a : A) :
  (forall x b, In x l -> f b x = g b x) -> fold_left f l a = fold_left g l a.
Proof.
  revert a. induction l as [|x l IH]; intros a H; simpl.
  - reflexivity.
  - rewrite H by now left. apply IH. intros; apply H; now right.
Qed.

(* ------------------------------------------------------------------ *)
(** ** [scatterState] *)

Section ScatterFacts.
Variable St : Type.
Variable c : NCCLCommunicator.
Variable setFn : ScatterStateSetFunc St.

(** The setter returns for every pair of offsets. *)
Variable upd : Z -> Z -> Z -> St -> St.
Hypothesis setFn_behaves : forall i b e st, setFn i b e st = Ok (upd i b e st).

Variables P D p : nat.
Hypothesis process : processOf P D p c.
Hypothesis below : (p < P)%nat.

Variables dataSize s : Z.
Hypothesis size_nonneg : 0 <= dataSize.
Hypothesis shard_nonneg : 0 <= s.
Hypothesis fits : Z.of_nat (P * D) * s < SIZE_MODULUS.
Hypothesis ranks_fit : Z.of_nat (P * D) < SIZE_MODULUS.

Lemma scatterState_loop_ok (devs : list Z) :
  forall st, (forall i, In i devs -> 0 <= i < Z.of_nat D) ->
  scatterState_loop c setFn dataSize s devs st =
    Ok (fold_left (fun st i => upd i ((Z.of_nat (p * D) + i) * s)
                                   (Z.min ((Z.of_nat (p * D) + i + 1) * s) dataSize) st)
                  devs st).
Proof.
  destruct (process_ranks process below ranks_fit) as [_ Hrank].
  induction devs as [|i devs IH]; intros st Hdevs.
  - reflexivity.
  - assert (0 <= i < Z.of_nat D) as Hi by (apply Hdevs; now left).
    simpl. rewrite Hrank by assumption.
    set (r := Z.of_nat (p * D) + i).
    assert (0 <= r /\ r + 1 <= Z.of_nat (P * D)) as [Hr0 Hr1] by (unfold r; nia).
    assert (0 <= r * s /\ (r + 1) * s < SIZE_MODULUS) as (Hb0 & Hb2) by nia.
    rewrite size_mul_small by lia.
    rewrite size_add_small by lia.
    replace (r * s + s) with ((r + 1) * s) by lia.
    rewrite setFn_behaves. simpl.
    apply IH. intros j Hj. apply Hdevs. now right.
Qed.
End ScatterFacts.

Lemma scatterState_ok (St : Type) (c : NCCLCommunicator) (setFn : ScatterStateSetFunc St)
      (upd : Z -> Z -> Z -> St -> St) (P D p : nat) (B : Item) (st : St) :
  (forall i b e st, setFn i b e st = Ok (upd i b e st)) ->
  processOf P D p c -> (p < P)%nat -> (0 < D)%nat ->
  Item_size B + Z.of_nat (P * D) < SIZE_MODULUS ->
  scatterState c setFn B st =
    Ok (fold_left (fun st i =>
                     upd i ((Z.of_nat (p * D) + i) * ceil_div (Item_size B) (Z.of_nat (P * D)))
                         (Z.min ((Z.of_nat (p * D) + i + 1)
                                   * ceil_div (Item_size B) (Z.of_nat (P * D)))
                                (Item_size B)) st)
                  (indices D) st).
Proof.
  intros Hset Hproc Hp HD Hfit.
  pose proof (zlen_nonneg (bytes B)) as H0. fold (Item_size B) in H0.
  assert (0 < Z.of_nat (P * D)) as HN by nia.
  assert (Z.of_nat (P * D) < SIZE_MODULUS) as HNfit by lia.
  destruct (process_ranks Hproc Hp HNfit) as [Hnum _].
  pose proof (ceil_div_bounds HN H0) as [Hb Hq].
  unfold scatterState. rewrite Hnum.
  destruct (Z.of_nat (P * D) =? 0) eqn:E; [apply Z.eqb_eq in E; lia|].
  rewrite rounded_up_numerator by lia.
  rewrite <- ceil_div_rounded_up by assumption.
  destruct Hproc as [HlenD Hmpi]. rewrite HlenD.
  apply scatterState_loop_ok with (P := P); try assumption; try lia.
  - now split.
  - intros i Hi. now apply in_indices in Hi.
Qed.

Lemma recordRange_behaves (i b e : Z) (log : list (Z * Z * Z)) :
  recordRange i b e log = Ok (log ++ [(i, b, e)]).
Proof. reflexivity. Qed.

Lemma worldOf_position (P D : nat) (w : World) (c : NCCLCommunicator) :
  worldOf P D w -> In c w ->
  exists p, (p < P)%nat /\ nth_error w p = Some c /\ processOf P D p c.
Proof.
  intros [Hlen Hw] Hin. apply In_nth_error in Hin. destruct Hin as [p Hp].
  exists p. split; [|split; [assumption|now apply Hw]].
  rewrite <- Hlen. apply nth_error_Some. congruence.
Qed.

(** The ranges handed to the setter, in closed form. *)
Lemma scatterRanges_ok (P D : nat) (w : World) (B : Item) :
  worldOf P D w -> (0 < D)%nat ->
  Item_size B + Z.of_nat (P * D) < SIZE_MODULUS ->
  scatterRanges w B =
    Ok (map (fun r => (Z.of_nat r * ceil_div (Item_size B) (Z.of_nat (P * D)),
                       Z.min ((Z.of_nat r + 1) * ceil_div (Item_size B) (Z.of_nat (P * D)))
                             (Item_size B)))
            (seq 0 (P * D))).
Proof.
  intros Hw HD Hfit.
  set (s := ceil_div (Item_size B) (Z.of_nat (P * D))) in *.
  set (rangeN := fun r : nat => (Z.of_nat r * s, Z.min ((Z.of_nat r + 1) * s) (Item_size B))).
  unfold scatterRanges.
  rewrite (@mapM_ok _ _ _
             (fun c => map (fun i => (i, (myNcclRank c i) * s,
                                      Z.min ((myNcclRank c i + 1) * s) (Item_size B)))
                           (indices D))).
  - simpl. f_equal.
    rewrite concat_map, map_map.
    rewrite <- (concat_blocks rangeN P D).
    f_equal. destruct Hw as [Hlen Hw].
    assert (seq 0 P = seq 0 (length w)) as -> by now rewrite Hlen.
    apply map_by_position. intros p c Hp. simpl.
    assert (p < P)%nat as HpP by (rewrite <- Hlen; apply nth_error_Some; congruence).
    destruct (@process_ranks P D p c (Hw p c Hp) HpP ltac:(unfold Item_size in *; pose proof (zlen_nonneg (bytes B)); lia))
      as [_ Hrank].
    rewrite map_map. unfold indices. rewrite map_map.
    apply map_ext_in. intros i Hi. apply in_seq in Hi. simpl.
    rewrite Hrank by lia. unfold rangeN.
    replace (Z.of_nat (p * D) + Z.of_nat i) with (Z.of_nat (p * D + i)) by lia.
    reflexivity.
  - intros c Hc.
    destruct (@worldOf_position P D w c Hw Hc) as (p & HpP & Hp & Hproc).
    rewrite (@scatterState_ok _ c recordRange (fun i b e log => log ++ [(i, b, e)])
               P D p B [] recordRange_behaves Hproc HpP HD Hfit).
    f_equal. fold s.
    rewrite (fold_left_log (fun i => (i, (Z.of_nat (p * D) + i) * s,
                                      Z.min ((Z.of_nat (p * D) + i + 1) * s) (Item_size B)))).
    simpl. apply map_ext_in. intros i Hi. apply in_indices in Hi.
    destruct (@process_ranks P D p c Hproc HpP ltac:(unfold Item_size in *; pose proof (zlen_nonneg (bytes B)); lia))
      as [_ Hrank].
    now rewrite Hrank.
Qed.

(** C10: [scatterState] has no check on uneven division (10 bytes on 3
    ranks are scattered while the planner aborts on 10 elements); its shard
    size is ceil(dataSize/numShards) and its ends, not its begins, are
    clipped to dataSize.  When (numShards-1)*ceil(dataSize/numShards) <=
    dataSize (and dataSize plus the number of ranks fits [size_t]), the
    ranges passed to the setter over all global ranks ascend with the rank,
    are pairwise disjoint and cover [0, dataSize) exactly. *)
Theorem scatterState_ranges_partition (P D : nat) (w : World) (B : Item) :
  worldOf P D w -> (0 < P)%nat -> (0 < D)%nat ->
  Item_size B + Z.of_nat (P * D) < SIZE_MODULUS ->
  (Z.of_nat (P * D) - 1) * ceil_div (Item_size B) (Z.of_nat (P * D)) <= Item_size B ->
  (exists ranges,
     scatterRanges w B = Ok ranges /\
     length ranges = (P * D)%nat /\
     (forall r, (r < P * D)%nat ->
        nth_error ranges r =
          Some (Z.of_nat r * ceil_div (Item_size B) (Z.of_nat (P * D)),
                Z.min ((Z.of_nat r + 1) * ceil_div (Item_size B) (Z.of_nat (P * D)))
                      (Item_size B))) /\
     (forall r1 r2 b1 e1 b2 e2, (r1 < r2)%nat ->
        nth_error ranges r1 = Some (b1, e1) -> nth_error ranges r2 = Some (b2, e2) ->
        b1 <= e1 /\ e1 <= b2 /\ b2 <= e2) /\
     (forall r1 r2 b1 e1 b2 e2 k, r1 <> r2 ->
        nth_error ranges r1 = Some (b1, e1) -> nth_error ranges r2 = Some (b2, e2) ->
        ~ (b1 <= k < e1 /\ b2 <= k < e2)) /\
     (forall k, 0 <= k < Item_size B <->
        exists r b e, nth_error ranges r = Some (b, e) /\ b <= k < e)) /\
  shardSize (blankComm float32 3 10 None)
    = Abort "presently, all shards must have the same size" /\
  scatterRanges (soloWorld float32 3 10 0) (mkItem (repeat Byte.x00 10))
    = Ok [(0, 4); (4, 8); (8, 10)].
Proof.
  intros Hw HP HD Hfit Hin.
  split; [|split; reflexivity].
  pose proof (zlen_nonneg (bytes B)) as H0. fold (Item_size B) in H0.
  assert (0 < Z.of_nat (P * D)) as HN by nia.
  pose proof (ceil_div_bounds HN H0) as [Hb Hq].
  set (s := ceil_div (Item_size B) (Z.of_nat (P * D))) in *.
  set (size := Item_size B) in *.
  set (rangeN := fun r : nat => (Z.of_nat r * s, Z.min ((Z.of_nat r + 1) * s) size)).
  exists (map rangeN (seq 0 (P * D))).
  assert (forall r b e, nth_error (map rangeN (seq 0 (P * D))) r = Some (b, e) ->
                        (r < P * D)%nat /\ b = Z.of_nat r * s
                        /\ e = Z.min ((Z.of_nat r + 1) * s) size) as Hnth.
  { intros r b e H. rewrite nth_error_map, nth_error_seq in H.
    destruct (r <? P * D)%nat eqn:E; [|discriminate].
    apply Nat.ltb_lt in E. simpl in H. injection H as <- <-. auto. }
  assert (forall r, (r < P * D)%nat ->
                    nth_error (map rangeN (seq 0 (P * D))) r = Some (rangeN r)) as Hget.
  { intros r Hr. rewrite nth_error_map, nth_error_seq.
    apply Nat.ltb_lt in Hr. now rewrite Hr. }
  split; [now apply scatterRanges_ok|].
  split; [now rewrite length_map, length_seq|].
  split; [exact Hget|].
  split; [|split].
  - intros r1 r2 b1 e1 b2 e2 Hlt E1 E2.
    apply Hnth in E1. apply Hnth in E2.
    destruct E1 as (L1 & -> & ->). destruct E2 as (L2 & -> & ->).
    assert (Z.of_nat r1 + 1 <= Z.of_nat r2) by lia.
    assert (Z.of_nat r2 <= Z.of_nat (P * D) - 1) by lia.
    nia.
  - intros r1 r2 b1 e1 b2 e2 k Hne E1 E2 [K1 K2].
    apply Hnth in E1. apply Hnth in E2.
    destruct E1 as (L1 & -> & ->). destruct E2 as (L2 & -> & ->).
    assert (r1 < r2 \/ r2 < r1)%nat as [Hlt|Hlt] by lia.
    + assert (Z.of_nat r1 + 1 <= Z.of_nat r2) by lia. nia.
    + assert (Z.of_nat r2 + 1 <= Z.of_nat r1) by lia. nia.
  - intros k. split.
    + intros Hk.
      assert (0 < s) as Hs by nia.
      pose proof (Z.div_mod k s ltac:(lia)) as Hdm.
      pose proof (Z.mod_pos_bound k s Hs) as Hrem.
      assert (0 <= k / s) as Hq0 by (apply Z.div_pos; lia).
      assert (k / s < Z.of_nat (P * D)) as HqN by nia.
      exists (Z.to_nat (k / s)), (k / s * s), (Z.min ((k / s + 1) * s) size).
      split.
      * rewrite Hget by lia. unfold rangeN. rewrite Z2Nat.id by lia. reflexivity.
      * nia.
    + intros (r & b & e & E & Hk).
      apply Hnth in E. destruct E as (L & -> & ->).
      nia.
Qed.

(** C10, at two processes of two devices and seven bytes. *)
Lemma scatterState_ranges_partition_witness :
  (exists ranges,
     scatterRanges (mpiWorld float32 2 2 0 0) (mkItem (repeat Byte.x2a 7)) = Ok ranges /\
     length ranges = (2 * 2)%nat /\
     (forall r, (r < 2 * 2)%nat ->
        nth_error ranges r =
          Some (Z.of_nat r * ceil_div (Item_size (mkItem (repeat Byte.x2a 7)))
                                      (Z.of_nat (2 * 2)),
                Z.min ((Z.of_nat r + 1) * ceil_div (Item_size (mkItem (repeat Byte.x2a 7)))
                                                   (Z.of_nat (2 * 2)))
                      (Item_size (mkItem (repeat Byte.x2a 7))))) /\
     (forall r1 r2 b1 e1 b2 e2, (r1 < r2)%nat ->
        nth_error ranges r1 = Some (b1, e1) -> nth_error ranges r2 = Some (b2, e2) ->
        b1 <= e1 /\ e1 <= b2 /\ b2 <= e2) /\
     (forall r1 r2 b1 e1 b2 e2 k, r1 <> r2 ->
        nth_error ranges r1 = Some (b1, e1) -> nth_error ranges r2 = Some (b2, e2) ->
        ~ (b1 <= k < e1 /\ b2 <= k < e2)) /\
     (forall k, 0 <= k < Item_size (mkItem (repeat Byte.x2a 7)) <->
        exists r b e, nth_error ranges r = Some (b, e) /\ b <= k < e)) /\
  shardSize (blankComm float32 3 10 None)
    = Abort "presently, all shards must have the same size" /\
  scatterRanges (soloWorld float32 3 10 0) (mkItem (repeat Byte.x00 10))
    = Ok [(0, 4); (4, 8); (8, 10)].
Proof.
  apply (@scatterState_ranges_partition 2 2 (mpiWorld float32 2 2 0 0)
           (mkItem (repeat Byte.x2a 7))).
  - split; [reflexivity|].
    intros p c Hp. split.
    + destruct p as [|[|p]]; simpl in Hp; try (injection Hp as <-; reflexivity).
      destruct p; discriminate.
    + left. destruct p as [|[|p]]; simpl in Hp; try (injection Hp as <-; reflexivity).
      destruct p; discriminate.
  - lia.
  - lia.
  - reflexivity.
  - vm_compute. discriminate.
Defined.

(* ------------------------------------------------------------------ *)
(** ** Slices *)

Lemma firstn_plus {A : Type} (n m : nat) (l : list A) :
  firstn (n + m) l = firstn n l ++ firstn m (skipn n l).
Proof.
  revert l. induction n as [|n IH]; intros l; simpl.
  - reflexivity.
  - destruct l as [|x l]; simpl.
    + now rewrite firstn_nil.
    + now rewrite IH.
Qed.

Lemma slice_app {A : Type} (l : list A) (a b c : Z) :
  0 <= a <= b -> b <= c -> slice l a b ++ slice l b c = slice l a c.
Proof.
  intros Hab Hbc. unfold slice.
  replace (Z.to_nat (c - a)) with (Z.to_nat (b - a) + Z.to_nat (c - b))%nat by lia.
  rewrite firstn_plus, skipn_skipn.
  replace (Z.to_nat (b - a) + Z.to_nat a)%nat with (Z.to_nat b) by lia.
  reflexivity.
Qed.

Lemma slice_empty {A : Type} (l : list A) (a : Z) : slice l a a = [].
Proof. unfold slice. now rewrite Z.sub_diag. Qed.

Lemma slice_all {A : Type} (l : list A) : slice l 0 (zlen l) = l.
Proof.
  unfold slice, zlen. simpl. rewrite Z.sub_0_r, Nat2Z.id. apply firstn_all.
Qed.

(** Consecutive slices between ascending cut points make one slice. *)
Lemma concat_slices {A : Type} (l : list A) (cut : nat -> Z) (n : nat) :
  forall a, (forall j, (a <= j < a + n)%nat -> 0 <= cut j <= cut (S j)) ->
  concat (map (fun j => slice l (cut j) (cut (S j))) (seq a n)) = slice l (cut a) (cut (a + n)%nat).
Proof.
  induction n as [|n IH]; intros a H; simpl.
  - rewrite Nat.add_0_r. now rewrite slice_empty.
  - rewrite IH by (intros j Hj; apply H; lia).
    replace (a + S n)%nat with (S a + n)%nat by lia.
    apply slice_app.
    + apply H. lia.
    + clear IH. induction n as [|n IHn].
      * rewrite Nat.add_0_r. lia.
      * etransitivity; [apply IHn; intros j Hj; apply H; lia|].
        replace (S a + S n)%nat with (S (S a + n)) by lia.
        apply H. lia.
Qed.

(* ------------------------------------------------------------------ *)
(** ** The setter and the getter *)

Lemma storeShard_behaves (B : Item) (i b e : Z) (shards : list Item) :
  storeShard B i b e shards =
    Ok (firstn (Z.to_nat i) shards ++ mkItem (slice (bytes B) b e)
          :: skipn (S (Z.to_nat i)) shards).
Proof. reflexivity. Qed.

(** A range whose begin is not before its end holds no bytes. *)
Lemma slice_inverted {A : Type} (l : list A) (a b : Z) : b <= a -> slice l a b = [].
Proof.
  intros H. unfold slice. now replace (Z.to_nat (b - a)) with 0%nat by lia.
Qed.

Lemma indices_S (n : nat) : indices (S n) = indices n ++ [Z.of_nat n].
Proof. unfold indices. now rewrite seq_S, map_app. Qed.

(** Writing slot [i] for every [i] in turn fills the whole list. *)
Lemma fill_slots {A : Type} (g : Z -> A) (l : list A) (k : nat) :
  (k <= length l)%nat ->
  fold_left (fun l i => firstn (Z.to_nat i) l ++ g i :: skipn (S (Z.to_nat i)) l)
            (indices k) l
    = map g (indices k) ++ skipn k l.
Proof.
  induction k as [|k IH]; intros Hk.
  - reflexivity.
  - rewrite indices_S, fold_left_app, IH by lia. cbn [fold_left].
    rewrite Nat2Z.id.
    assert (length (map g (indices k)) = k) as Hlen
      by now rewrite length_map, length_indices.
    rewrite firstn_app, Hlen, Nat.sub_diag, firstn_O, app_nil_r.
    rewrite firstn_all2 by lia.
    rewrite skipn_app, Hlen.
    rewrite skipn_all2 by lia.
    replace (S k - k)%nat with 1%nat by lia.
    rewrite skipn_skipn. simpl.
    rewrite map_app, <- app_assoc. reflexivity.
Qed.

Lemma fill_all_slots {A : Type} (g : Z -> A) (l : list A) :
  fold_left (fun l i => firstn (Z.to_nat i) l ++ g i :: skipn (S (Z.to_nat i)) l)
            (indices (length l)) l
    = map g (indices (length l)).
Proof.
  rewrite fill_slots by lia. now rewrite skipn_all, app_nil_r.
Qed.

Lemma getShard_map (g : Z -> Item) (D : nat) (i : Z) :
  0 <= i < Z.of_nat D -> getShard (map g (indices D)) i = g i.
Proof.
  intros Hi. unfold getShard.
  apply nth_error_nth. rewrite nth_error_map, nth_error_indices by lia.
  simpl. now rewrite Z2Nat.id by lia.
Qed.

Lemma bytes_fold_append (getFn : GatherStateGetFunc) (l : list Z) (a : Item) :
  bytes (fold_left (fun localData i => Item_append localData (getFn i)) l a)
    = bytes a ++ concat (map (fun i => bytes (getFn i)) l).
Proof.
  revert a. induction l as [|i l IH]; intros a; simpl.
  - now rewrite app_nil_r.
  - rewrite IH. simpl. now rewrite <- app_assoc.
Qed.

(** The first loop of [gatherState] concatenates the local shards in
    device order. *)
Lemma bytes_localData (c : NCCLCommunicator) (getFn : GatherStateGetFunc) :
  (0 < length (graphs_ c))%nat ->
  bytes (localData c getFn)
    = concat (map (fun i => bytes (getFn i)) (indices (length (graphs_ c)))).
Proof.
  intros Hn. unfold localData. rewrite bytes_fold_append.
  destruct (length (graphs_ c)) as [|n]; [lia|].
  unfold indices. simpl. rewrite Nat.sub_0_r. reflexivity.
Qed.

Lemma Item_eta (it : Item) : mkItem (bytes it) = it.
Proof. now destruct it. Qed.

Lemma Item_bytes_inj (a b : Item) : bytes a = bytes b -> a = b.
Proof. destruct a, b. simpl. now intros ->. Qed.

Lemma combine_with_map {A B : Type} (f : A -> B) (l : list A) :
  combine l (map f l) = map (fun x => (x, f x)) l.
Proof. induction l; simpl; congruence. Qed.

Lemma firstn_succ {A : Type} (l : list A) (k : nat) (d : A) :
  (k < length l)%nat -> firstn (S k) l = firstn k l ++ [nth k l d].
Proof.
  revert k. induction l as [|x l IH]; intros k Hk; simpl in Hk; [lia|].
  destruct k as [|k]; simpl.
  - reflexivity.
  - f_equal. apply IH. lia.
Qed.

(** The second loop of [gatherState] under MPI: after round [k-1] the
    gathered data is the concatenation of what the first [k] processes
    passed, when this process passes in its own round what the others
    receive from it. *)
Lemma gatherState_rounds (peers : Z -> Item) (locals : list Item) (mine : Item)
      (myRank : Z) (k : nat) :
  (forall r, (r < length locals)%nat -> peers (Z.of_nat r) = nth r locals emptyItem) ->
  (0 <= myRank < Z.of_nat (length locals) -> mine = nth (Z.to_nat myRank) locals emptyItem) ->
  (k <= length locals)%nat ->
  bytes (snd (fold_left
                (fun (st : Item * Item) mpiRank =>
                   let '(tmp, data) := st in
                   let tmp := if mpiRank =? myRank then mine else tmp in
                   let tmp := bCast peers myRank tmp mpiRank in
                   let data := if mpiRank =? 0 then tmp else Item_append data tmp in
                   (tmp, data))
                (indices k) (emptyItem, emptyItem)))
    = concat (map bytes (firstn k locals)).
Proof.
  intros Hpeers Hmine.
  induction k as [|k IH]; intros Hk.
  - reflexivity.
  - rewrite indices_S, fold_left_app. cbn [fold_left].
    specialize (IH ltac:(lia)).
    destruct (fold_left _ (indices k) (emptyItem, emptyItem)) as [tmp data].
    simpl in IH.
    assert (bCast peers myRank (if Z.of_nat k =? myRank then mine else tmp) (Z.of_nat k)
            = nth k locals emptyItem) as ->.
    { unfold bCast. destruct (Z.of_nat k =? myRank) eqn:E.
      - apply Z.eqb_eq in E. rewrite Hmine by lia. f_equal. lia.
      - apply Hpeers. lia. }
    rewrite (firstn_succ locals emptyItem) by lia.
    rewrite map_app, concat_app. simpl. rewrite app_nil_r.
    destruct (Z.of_nat k =? 0) eqn:E0; simpl.
    + apply Z.eqb_eq in E0. assert (k = 0)%nat as -> by lia. reflexivity.
    + now rewrite IH.
Qed.

Section RoundTrip.
Variables P D : nat.
Variable w : World.
Variable B : Item.
Hypothesis world : worldOf P D w.
Hypothesis processes : (0 < P)%nat.
Hypothesis devices : (0 < D)%nat.
Hypothesis fits : Item_size B + Z.of_nat (P * D) < SIZE_MODULUS.

Local Abbreviation s := (ceil_div (Item_size B) (Z.of_nat (P * D))).
Local Abbreviation cut := (cutPoint B (P * D)).
Local Abbreviation shardsOf := (scatteredShards B (P * D) D).

Lemma size_facts :
  0 <= Item_size B /\ 0 < Z.of_nat (P * D) /\ Z.of_nat (P * D) < SIZE_MODULUS /\
  0 <= s /\ Item_size B <= s * Z.of_nat (P * D).
Proof.
  pose proof (zlen_nonneg (bytes B)) as H0. fold (Item_size B) in H0.
  assert (0 < Z.of_nat (P * D)) as HN by nia.
  pose proof (ceil_div_bounds HN H0) as [Hb Hq].
  repeat split; lia.
Qed.

Lemma scatterAll_ok : scatterAll w B = Ok (map shardsOf w).
Proof.
  destruct size_facts as (H0 & HN & HNfit & Hs & Hcover).
  unfold scatterAll. apply mapM_ok. intros c Hc.
  destruct (@worldOf_position P D w c world Hc) as (p & HpP & Hp & Hproc).
  rewrite (@scatterState_ok _ c (storeShard B)
             (fun i b e shards => firstn (Z.to_nat i) shards ++ mkItem (slice (bytes B) b e)
                                    :: skipn (S (Z.to_nat i)) shards)
             P D p B _ (storeShard_behaves B) Hproc HpP devices fits).
  f_equal.
  destruct (process_ranks Hproc HpP HNfit) as [_ Hrank].
  destruct Hproc as [HlenD _]. rewrite HlenD.
  pose proof (@fill_all_slots Item
                (fun i => mkItem (slice (bytes B) ((Z.of_nat (p * D) + i) * s)
                                        (Z.min ((Z.of_nat (p * D) + i + 1) * s) (Item_size B))))
                (repeat emptyItem D)) as Hfill.
  rewrite repeat_length in Hfill. rewrite Hfill.
  unfold scatteredShards. apply map_ext_in. intros i Hi. apply in_indices in Hi.
  now rewrite Hrank.
Qed.

(** What the process at position [p] contributes. *)
Lemma localData_process (p : nat) (c : NCCLCommunicator) :
  nth_error w p = Some c ->
  bytes (localData c (getShard (shardsOf c)))
    = slice (bytes B) (cut (p * D)) (cut (S p * D)).
Proof.
  intros Hp.
  destruct size_facts as (H0 & HN & HNfit & Hs & Hcover).
  destruct world as [Hlen Hw].
  assert (p < P)%nat as HpP by (rewrite <- Hlen; apply nth_error_Some; congruence).
  pose proof (Hw p c Hp) as Hproc.
  destruct (process_ranks Hproc HpP HNfit) as [_ Hrank].
  destruct Hproc as [HlenD _].
  rewrite bytes_localData by lia. rewrite HlenD.
  replace (S p * D)%nat with (p * D + D)%nat by lia.
  rewrite <- (concat_slices (bytes B) cut).
  - f_equal. rewrite <- map_seq_shift. unfold indices. rewrite map_map.
    apply map_ext_in. intros j Hj. apply in_seq in Hj.
    unfold scatteredShards. rewrite getShard_map by lia. simpl.
    rewrite Hrank by lia. unfold cutPoint.
    replace (Z.of_nat (p * D + j)) with (Z.of_nat (p * D) + Z.of_nat j) by lia.
    replace (Z.of_nat (S (p * D + j))) with (Z.of_nat (p * D) + Z.of_nat j + 1) by lia.
    destruct (Z.le_gt_cases ((Z.of_nat (p * D) + Z.of_nat j) * s) (Item_size B)) as [Hin | Hout].
    + now rewrite (Z.min_l _ _ Hin).
    + rewrite !slice_inverted; [reflexivity | lia | nia].
  - intros j Hj. unfold cutPoint. nia.
Qed.

Lemma locals_concat :
  concat (map bytes (map (fun c => localData c (getShard (shardsOf c))) w)) = bytes B.
Proof.
  destruct size_facts as (H0 & HN & HNfit & Hs & Hcover).
  rewrite map_map.
  rewrite (@map_by_position _ _ _
             (fun p => slice (bytes B) (cut (p * D)) (cut (S p * D))) w 0%nat)
    by (intros p c Hp; now apply localData_process).
  destruct world as [Hlen _]. rewrite Hlen.
  rewrite (concat_slices (bytes B) (fun p => cut (p * D))).
  - unfold cutPoint. simpl. rewrite Z.min_l by lia.
    rewrite Z.min_r by nia. apply slice_all.
  - intros j Hj. unfold cutPoint. nia.
Qed.

Lemma gatherState_process (p : nat) (c : NCCLCommunicator) :
  nth_error w p = Some c ->
  gatherState c (getShard (shardsOf c))
              (fun r => nth (Z.to_nat r)
                            (map (fun c => localData c (getShard (shardsOf c))) w)
                            emptyItem)
    = B.
Proof.
  intros Hp.
  set (locals := map (fun c => localData c (getShard (shardsOf c))) w).
  assert (length locals = P) as Hlocals.
  { unfold locals. rewrite length_map. apply world. }
  assert (p < P)%nat as HpP.
  { destruct world as [Hlen _]. rewrite <- Hlen. apply nth_error_Some. congruence. }
  assert (localData c (getShard (shardsOf c)) = nth p locals emptyItem) as Hmine.
  { symmetry. apply nth_error_nth. unfold locals. rewrite nth_error_map, Hp. reflexivity. }
  apply Item_bytes_inj. rewrite <- locals_concat. fold locals.
  destruct world as [Hlen Hw].
  destruct (Hw p c Hp) as [HlenD [Hmpi | (Hmpi & HP1 & Hp0)]].
  - unfold gatherState. rewrite Hmpi. simpl.
    rewrite Nat2Z.id.
    rewrite (@gatherState_rounds _ locals).
    + rewrite <- Hlocals. now rewrite firstn_all.
    + intros r Hr. now rewrite Nat2Z.id.
    + intros _. now rewrite Nat2Z.id.
    + lia.
  - unfold gatherState. rewrite Hmpi. rewrite Hmine. subst p.
    destruct locals as [|x [|y locals']]; simpl in Hlocals; try lia.
    simpl. now rewrite app_nil_r.
Qed.

Lemma scatterThenGather_ok : scatterThenGather w B = Ok (repeat B P).
Proof.
  unfold scatterThenGather. rewrite scatterAll_ok. simpl. f_equal.
  unfold gatherAll. rewrite combine_with_map, !map_map. simpl.
  destruct world as [Hlen _].
  replace (repeat B P) with (map (fun _ : NCCLCommunicator => B) w)
    by (rewrite map_const; now rewrite Hlen).
  apply map_ext_in. intros c Hc.
  apply In_nth_error in Hc. destruct Hc as [p Hp].
  exact (gatherState_process p Hp).
Qed.
End RoundTrip.

(** C5: for every byte buffer B and every job of P processes with D
    devices each (at least one process and one device, the size of B plus
    the number of ranks within [size_t]), with MPI or without: scattering B
    with [scatterState] into per-device slices and gathering those slices
    with [gatherState] yields B exactly on every process.  This includes
    the buffers shorter than (P*D - 1) * ceil(size/(P*D)) bytes, where the
    last ranks are handed a begin past the clipped end and keep no bytes. *)
Theorem scatter_gather_roundtrip (P D : nat) (w : World) (B : Item) :
  worldOf P D w -> (0 < P)%nat -> (0 < D)%nat ->
  Item_size B + Z.of_nat (P * D) < SIZE_MODULUS ->
  scatterThenGather w B = Ok (repeat B P).
Proof.
  intros. now apply scatterThenGather_ok with (D := D).
Qed.

Lemma mpiWorld_worldOf (ty : Type_) (P D total : nat) (v : Z) :
  worldOf P D (mpiWorld ty P D total v).
Proof.
  unfold worldOf, mpiWorld. split.
  - now rewrite length_map, length_seq.
  - intros p c Hp. rewrite nth_error_map, nth_error_seq in Hp.
    destruct (p <? P)%nat; [|discriminate].
    simpl in Hp. injection Hp as <-. split; simpl.
    + apply repeat_length.
    + now left.
Defined.

Lemma soloWorld_worldOf (ty : Type_) (D total : nat) (v : Z) :
  worldOf 1 D (soloWorld ty D total v).
Proof.
  unfold worldOf, soloWorld. split; [reflexivity|].
  intros p c Hp. destruct p as [|p].
  - simpl in Hp. injection Hp as <-. split; simpl.
    + apply repeat_length.
    + right. auto.
  - simpl in Hp. destruct p; discriminate.
Defined.

(** C5, at two processes of two devices under MPI and seven bytes (shards
    of 2, 2, 2 and 1 bytes). *)
Lemma scatter_gather_roundtrip_witness :
  scatterThenGather (mpiWorld float32 2 2 4 0)
                    (mkItem [Byte.x61; Byte.x62; Byte.x63; Byte.x64; Byte.x65; Byte.x66; Byte.x67])
    = Ok (repeat (mkItem [Byte.x61; Byte.x62; Byte.x63; Byte.x64; Byte.x65; Byte.x66; Byte.x67])
                 2).
Proof.
  apply (@scatter_gather_roundtrip 2 2 (mpiWorld float32 2 2 4 0)
           (mkItem [Byte.x61; Byte.x62; Byte.x63; Byte.x64; Byte.x65; Byte.x66; Byte.x67])).
  - apply mpiWorld_worldOf.
  - lia.
  - lia.
  - reflexivity.
Defined.

(** The round trip in a single process without MPI, by evaluation: five
    bytes over three devices, and one byte over three devices, where the
    third device is handed the begin 2 and the end 1. *)
Lemma roundtrip_solo_evaluated :
  scatterThenGather (soloWorld float32 3 3 0)
                    (mkItem [Byte.x61; Byte.x62; Byte.x63; Byte.x64; Byte.x65])
    = Ok [mkItem [Byte.x61; Byte.x62; Byte.x63; Byte.x64; Byte.x65]] /\
  scatterThenGather (soloWorld float32 3 3 0) (mkItem [Byte.x2a])
    = Ok [mkItem [Byte.x2a]] /\
  scatterThenGather (mpiWorld float32 2 2 4 0) (mkItem [Byte.x2a])
    = Ok [mkItem [Byte.x2a]; mkItem [Byte.x2a]].
Proof. repeat split; reflexivity. Qed.

(* ------------------------------------------------------------------ *)
(** ** Buffers: splicing and updating by position *)

Lemma nth_error_combine {A B : Type} (l : list A) (l' : list B) (n : nat) :
  nth_error (combine l l') n =
    match nth_error l n, nth_error l' n with
    | Some a, Some b => Some (a, b)
    | _, _ => None
    end.
Proof.
  revert l' n. induction l as [|a l IH]; intros l' n.
  - destruct n; reflexivity.
  - destruct l' as [|b l'].
    + destruct n; simpl; [reflexivity|]. now destruct (nth_error l n).
    + destruct n; simpl; [reflexivity|apply IH].
Qed.

Lemma length_splice (buf : list Z) (off : Z) (new : list Z) :
  (Z.to_nat off + length new <= length buf)%nat ->
  length (splice buf off new) = length buf.
Proof.
  intros H. unfold splice.
  rewrite !length_app, length_firstn, length_skipn. lia.
Qed.

Lemma nth_splice (buf : list Z) (off : Z) (new : list Z) (k : nat) :
  (Z.to_nat off + length new <= length buf)%nat ->
  nth k (splice buf off new) 0 =
    if (Z.to_nat off <=? k)%nat && (k <? Z.to_nat off + length new)%nat
    then nth (k - Z.to_nat off) new 0
    else nth k buf 0.
Proof.
  intros H. unfold splice.
  assert (length (firstn (Z.to_nat off) buf) = Z.to_nat off) as Hf
    by (rewrite length_firstn; lia).
  destruct (Z.to_nat off <=? k)%nat eqn:E1; simpl.
  - apply Nat.leb_le in E1.
    rewrite app_nth2 by lia. rewrite Hf.
    destruct (k <? Z.to_nat off + length new)%nat eqn:E2.
    + apply Nat.ltb_lt in E2. rewrite app_nth1 by lia. reflexivity.
    + apply Nat.ltb_ge in E2. rewrite app_nth2 by lia.
      rewrite nth_skipn. f_equal. lia.
  - apply Nat.leb_gt in E1.
    rewrite app_nth1 by lia. now rewrite nth_firstn, (proj2 (Nat.ltb_lt _ _) E1).
Qed.

Lemma nth_error_update {A : Type} (l : list A) (k j : nat) (x : A) :
  (k < length l)%nat ->
  nth_error (firstn k l ++ x :: skipn (S k) l) j =
    if (j =? k)%nat then Some x else nth_error l j.
Proof.
  intros Hk.
  assert (length (firstn k l) = k) as Hf by (rewrite length_firstn; lia).
  destruct (j =? k)%nat eqn:E.
  - apply Nat.eqb_eq in E. subst j.
    rewrite nth_error_app2 by lia. now rewrite Hf, Nat.sub_diag.
  - apply Nat.eqb_neq in E.
    destruct (Nat.lt_ge_cases j k) as [Hlt|Hge].
    + rewrite nth_error_app1 by lia.
      rewrite nth_error_firstn. now rewrite (proj2 (Nat.ltb_lt _ _) Hlt).
    + rewrite nth_error_app2 by lia. rewrite Hf.
      destruct (j - k)%nat as [|m] eqn:Em; [lia|]. cbn [nth_error].
      rewrite nth_error_skipn. f_equal. lia.
Qed.

Lemma length_update {A : Type} (l : list A) (k : nat) (x : A) :
  (k < length l)%nat -> length (firstn k l ++ x :: skipn (S k) l) = length l.
Proof.
  intros Hk. rewrite length_app, length_firstn. cbn [length]. rewrite length_skipn. lia.
Qed.

(** Updating distinct positions one after the other, in any order: each
    listed position holds its update, the others keep their element. *)
Lemma fold_updates {A : Type} (h : nat -> A -> A) (d : A) (ks : list nat) :
  forall l, NoDup ks -> (forall k, In k ks -> (k < length l)%nat) ->
  let l' := fold_left (fun l k => firstn k l ++ h k (nth k l d) :: skipn (S k) l) ks l in
  length l' = length l /\
  forall j, nth_error l' j =
            if in_dec Nat.eq_dec j ks then option_map (h j) (nth_error l j)
            else nth_error l j.
Proof.
  induction ks as [|k ks IH]; intros l Hnd Hlt; cbv zeta; cbn [fold_left].
  - split; [reflexivity|]. intros j. reflexivity.
  - inversion Hnd as [|k' ks' Hnotin Hnd']; subst.
    assert (k < length l)%nat as Hk by (apply Hlt; now left).
    set (l1 := firstn k l ++ h k (nth k l d) :: skipn (S k) l).
    assert (length l1 = length l) as Hlen1 by now apply length_update.
    destruct (IH l1 Hnd') as [Hlen Hnth].
    { intros k' Hk'. rewrite Hlen1. apply Hlt. now right. }
    cbv zeta in Hlen, Hnth. fold l1.
    split; [congruence|].
    intros j. rewrite Hnth. unfold l1.
    rewrite nth_error_update by assumption.
    destruct (in_dec Nat.eq_dec j (k :: ks)) as [Hin|Hnin];
      destruct (in_dec Nat.eq_dec j ks) as [Hin'|Hnin'];
      destruct (Nat.eqb_spec j k) as [->|Hne];
      try reflexivity; try contradiction.
    + rewrite (nth_error_nth' l d Hk). reflexivity.
    + destruct Hin as [E|Hin]; [congruence|contradiction].
    + elim Hnin. now right.
    + elim Hnin. now left.
Qed.

Lemma fold_updates_all {A : Type} (h : nat -> A -> A) (d : A) (ks : list nat) (l : list A) :
  Permutation ks (seq 0 (length l)) ->
  let l' := fold_left (fun l k => firstn k l ++ h k (nth k l d) :: skipn (S k) l) ks l in
  length l' = length l /\
  forall j, nth_error l' j = option_map (h j) (nth_error l j).
Proof.
  intros Hperm.
  assert (NoDup ks) as Hnd.
  { apply (Permutation_NoDup (Permutation_sym Hperm)). apply seq_NoDup. }
  assert (forall k, In k ks -> (k < length l)%nat) as Hlt
    by (intros k Hk; now apply (@permutation_below ks (length l) Hperm)).
  destruct (fold_updates h d l Hnd Hlt) as [Hlen Hnth].
  split; [exact Hlen|]. intros j. rewrite Hnth.
  destruct (in_dec Nat.eq_dec j ks) as [_|Hnotin]; [reflexivity|].
  destruct (nth_error l j) eqn:E; [|reflexivity].
  exfalso. apply Hnotin. apply (Permutation_in _ (Permutation_sym Hperm)).
  apply in_seq. split; [lia|]. simpl. apply nth_error_Some. congruence.
Qed.

(* ------------------------------------------------------------------ *)
(** ** The planner on the processes of a job *)

Section PlannerOfJob.
Variables P D total : nat.
Hypothesis processes : (0 < P)%nat.
Hypothesis devices : (0 < D)%nat.
Hypothesis fits : Z.of_nat total + Z.of_nat (P * D) < SIZE_MODULUS.
Hypothesis divides : Z.of_nat total mod Z.of_nat (P * D) = 0.

Local Abbreviation N := (Z.of_nat (P * D)).
Local Abbreviation s := (ceil_div (Z.of_nat total) (Z.of_nat (P * D))).

Lemma job_arith : 0 < N /\ N < SIZE_MODULUS /\ 0 <= s /\ s * N = Z.of_nat total.
Proof.
assert (0 < N) as HN by nia.
pose proof (ceil_div_exact (Z.of_nat total) HN divides).
pose proof (ceil_div_bounds HN (Nat2Z.is_nonneg total)) as [_ Hq].
repeat split; lia.
Qed.

Lemma sized_dataSize (p : nat) (c : NCCLCommunicator) :
sizedProcess P D total p c -> dataSize c = Ok (Z.of_nat total).
Proof.
intros ([HlenD _] & _ & Hbuf). unfold dataSize.
destruct (graphs_ c) as [|g gs]; [simpl in HlenD; lia|].
destruct (Hbuf g (or_introl eq_refl)) as [_ Hv].
unfold size, zlen. now rewrite Hv.
Qed.

Lemma sized_numNcclRanks (p : nat) (c : NCCLCommunicator) :
sizedProcess P D total p c -> numNcclRanks c = N.
Proof.
intros (Hproc & Hp & _).
destruct job_arith as (HN & HNfit & _).
now destruct (process_ranks Hproc Hp HNfit).
Qed.

Lemma sized_myNcclRank (p : nat) (c : NCCLCommunicator) (i : Z) :
sizedProcess P D total p c -> 0 <= i < Z.of_nat D ->
myNcclRank c i = Z.of_nat (p * D) + i.
Proof.
intros (Hproc & Hp & _) Hi.
destruct job_arith as (HN & HNfit & _).
destruct (process_ranks Hproc Hp HNfit) as [_ H]. now apply H.
Qed.

Lemma sized_shardSize (p : nat) (c : NCCLCommunicator) :
sizedProcess P D total p c -> shardSize c = Ok s.
Proof.
intros Hc. destruct job_arith as (HN & HNfit & _).
apply shardSize_even; try assumption.
- now apply sized_dataSize with p.
- now apply sized_numNcclRanks with p.
- lia.
Qed.

Lemma sized_localShardRange (p : nat) (c : NCCLCommunicator) (i : Z) :
sizedProcess P D total p c -> 0 <= i < Z.of_nat D ->
localShardRange c i =
  Ok ((Z.of_nat (p * D) + i) * s, (Z.of_nat (p * D) + i + 1) * s).
Proof.
intros Hc Hi. destruct job_arith as (HN & HNfit & Hs & Hex).
unfold localShardRange. rewrite (sized_myNcclRank Hc Hi).
assert (p < P)%nat as Hp by apply Hc.
assert (0 <= Z.of_nat (p * D) + i /\ Z.of_nat (p * D) + i + 1 <= N) as [Hr0 Hr1] by nia.
rewrite (@ncclRankShardRange_even c (Z.of_nat total) N);
  try assumption.
- do 2 f_equal. apply Z.min_l. nia.
- now apply sized_dataSize with p.
- now apply sized_numNcclRanks with p.
- lia.
- lia.
Qed.

Lemma sized_rangeOf (p : nat) (c : NCCLCommunicator) (i : Z) :
sizedProcess P D total p c -> 0 <= i < Z.of_nat D ->
rangeOf c i = ((Z.of_nat (p * D) + i) * s, (Z.of_nat (p * D) + i + 1) * s).
Proof.
intros Hc Hi. unfold rangeOf. now rewrite (sized_localShardRange Hc Hi).
Qed.

Lemma sized_graph_at (p : nat) (c : NCCLCommunicator) (i : Z) :
sizedProcess P D total p c -> 0 <= i < Z.of_nat D ->
graph_at c i = Ok (nth (Z.to_nat i) (graphs_ c) emptyGraph).
Proof.
intros ([HlenD _] & _) Hi. unfold graph_at.
rewrite (@nth_error_nth' _ (graphs_ c) (Z.to_nat i) emptyGraph) by lia.
reflexivity.
Qed.
End PlannerOfJob.

Lemma job_sized (P D total p : nat) (gty vty : Type_) (w : World) (c : NCCLCommunicator) :
  jobOf P D total gty vty w -> nth_error w p = Some c ->
  sizedProcess P D total p c /\
  forall g, In g (graphs_ c) -> type (grads g) = gty /\ type (vals g) = vty.
Proof.
  intros ([Hlen Hw] & (_ & _ & Hbuf) & _) Hp.
  assert (In c w) as Hin by (eapply nth_error_In; eauto).
  split; [split; [|split]|].
  - now apply Hw.
  - rewrite <- Hlen. apply nth_error_Some. congruence.
  - intros g Hg. destruct (Hbuf c g Hin Hg) as (? & ? & _). now split.
  - intros g Hg. destruct (Hbuf c g Hin Hg) as (_ & _ & ? & ?). now split.
Qed.

(* ------------------------------------------------------------------ *)
(** ** The calls of a group *)

Lemma map_nth_positions {A : Type} (l : list A) (d : A) :
  map (fun r => nth r l d) (seq 0 (length l)) = l.
Proof.
  apply nth_error_ext. intros n.
  rewrite nth_error_map, nth_error_seq.
  destruct (n <? length l)%nat eqn:E; simpl.
  - apply Nat.ltb_lt in E. symmetry. now apply nth_error_nth'.
  - apply Nat.ltb_ge in E. symmetry. now apply nth_error_None.
Qed.

Lemma nth_concat_blocks {A : Type} (D : nat) (ll : list (list A)) (d : A) :
  (forall l, In l ll -> length l = D) ->
  forall p j, (p < length ll)%nat -> (j < D)%nat ->
              nth (p * D + j) (concat ll) d = nth j (nth p ll []) d.
Proof.
  intros Hlen. induction ll as [|l0 ll IH]; intros p j Hp Hj; simpl in Hp; [lia|].
  assert (length l0 = D) as H0 by (apply Hlen; now left).
  simpl concat. destruct p as [|p]; simpl.
  - apply app_nth1. lia.
  - rewrite app_nth2 by lia. rewrite H0.
    replace (D + p * D + j - D)%nat with (p * D + j)%nat by lia.
    apply IH; [|lia|lia]. intros l Hl. apply Hlen. now right.
Qed.

Lemma length_concat_blocks {A : Type} (D : nat) (ll : list (list A)) :
  (forall l, In l ll -> length l = D) -> length (concat ll) = (length ll * D)%nat.
Proof.
  intros Hlen. induction ll as [|l0 ll IH]; simpl; [reflexivity|].
  rewrite length_app, IH by (intros; apply Hlen; now right).
  rewrite (Hlen l0) by now left. reflexivity.
Qed.

(** The call with a given rank stands at that rank's position when the
    calls are listed by rank. *)
Lemma find_by_rank (l : list NcclCall) :
  forall a, map (fun q => comm_rank (call_comm q)) l = map Z.of_nat (seq a (length l)) ->
  forall k, (k < length l)%nat ->
            find (fun q => comm_rank (call_comm q) =? Z.of_nat (a + k)) l = nth_error l k.
Proof.
  induction l as [|x l IH]; intros a Hmap k Hk; simpl in Hk; [lia|].
  simpl in Hmap. injection Hmap as Hx Hmap.
  simpl. rewrite Hx. destruct k as [|k].
  - rewrite Nat.add_0_r, Z.eqb_refl. reflexivity.
  - assert ((Z.of_nat a =? Z.of_nat (a + S k)) = false) as -> by (apply Z.eqb_neq; lia).
    simpl. replace (a + S k)%nat with (S a + k)%nat by lia.
    apply IH; [assumption|lia].
Qed.

Lemma rankedCalls_by_rank (l : list NcclCall) (q0 : NcclCall) :
  hd_error l = Some q0 ->
  comm_nranks (call_comm q0) = zlen l ->
  map (fun q => comm_rank (call_comm q)) l = indices (length l) ->
  rankedCalls l = Ok l.
Proof.
  intros Hhd Hn Hranks. unfold rankedCalls.
  destruct l as [|x l']; [discriminate|].
  simpl in Hhd. injection Hhd as ->.
  rewrite Hn, Z.eqb_refl. simpl negb. cbv iota.
  unfold zlen. rewrite Nat2Z.id.
  rewrite (@mapM_ok _ _ _ (fun r => nth (Z.to_nat r) (q0 :: l') q0)).
  - f_equal. unfold indices. rewrite map_map.
    rewrite <- (map_nth_positions (q0 :: l') q0) at 2.
    apply map_ext. intros r. now rewrite Nat2Z.id.
  - intros r Hr. apply in_indices in Hr.
    pose proof (@find_by_rank (q0 :: l') 0%nat Hranks (Z.to_nat r) ltac:(lia)) as Hf.
    rewrite Nat.add_0_l, Z2Nat.id in Hf by lia.
    rewrite Hf.
    rewrite (@nth_error_nth' _ (q0 :: l') (Z.to_nat r) q0) by lia.
    reflexivity.
Qed.

Section CallsOfJob.
Variables P D total : nat.
Hypothesis processes : (0 < P)%nat.
Hypothesis devices : (0 < D)%nat.
Hypothesis fits : Z.of_nat total + Z.of_nat (P * D) < SIZE_MODULUS.
Hypothesis divides : Z.of_nat total mod Z.of_nat (P * D) = 0.

Variable w : World.
Hypothesis sized : forall p c, nth_error w p = Some c -> sizedProcess P D total p c.
Hypothesis processes_listed : length w = P.

(** Which buffer the calls are about, its element type, and the two
    offsets. *)
Variable buf : ExpressionGraph -> Tensor.
Variable bty : Type_.
Hypothesis buf_type : forall c g, In c w -> In g (graphs_ c) -> type (buf g) = bty.
Hypothesis buf_length : forall c g, In c w -> In g (graphs_ c) ->
                                    length (data (buf g)) = total.
Variables sendoff recvoff : Z -> Z.

Local Abbreviation s := (ceil_div (Z.of_nat total) (Z.of_nat (P * D))).
Local Abbreviation bufs := (allBuffers buf w).
Local Abbreviation flat := (concat (map (callsOf buf sendoff recvoff s) w)).
Local Abbreviation byRank :=
  (callOfRank bufs sendoff recvoff s (ncclFloatType bty) (P * D)).

Lemma length_allBuffers : length bufs = (P * D)%nat.
Proof.
unfold allBuffers. rewrite (@length_concat_blocks _ D).
- now rewrite length_map, processes_listed.
- intros l Hl. apply in_map_iff in Hl. destruct Hl as (c & <- & Hc).
  rewrite length_map. apply In_nth_error in Hc. destruct Hc as [p Hp].
  apply (@sized p c Hp).
Qed.

Lemma nth_allBuffers (p j : nat) (c : NCCLCommunicator) :
nth_error w p = Some c -> (j < D)%nat ->
nth (p * D + j) bufs [] = data (buf (nth j (graphs_ c) emptyGraph)).
Proof.
intros Hp Hj. unfold allBuffers.
assert (p < length w)%nat as Hlt by (apply nth_error_Some; congruence).
rewrite (@nth_concat_blocks _ D).
- rewrite (@nth_error_nth _ _ p (map (fun g => data (buf g)) (graphs_ c)))
    by (rewrite nth_error_map, Hp; reflexivity).
  assert (j < length (graphs_ c))%nat as Hjc.
  { destruct (@sized p c Hp) as ([HlenD _] & _). lia. }
  apply nth_error_nth. rewrite nth_error_map.
  now rewrite (nth_error_nth' (graphs_ c) emptyGraph Hjc).
- intros l Hl. apply in_map_iff in Hl. destruct Hl as (c' & <- & Hc').
  rewrite length_map. apply In_nth_error in Hc'. destruct Hc' as [p' Hp'].
  apply (@sized p' c' Hp').
- now rewrite length_map.
- exact Hj.
Qed.

(** The calls of all processes, listed by process and device, are the
  calls of the ranks [0 .. P*D-1] in order. *)
Lemma posted_by_rank : flat = map byRank (seq 0 (P * D)).
Proof.
rewrite <- (concat_blocks byRank P D). f_equal.
replace (seq 0 P) with (seq 0 (length w)) by (now rewrite processes_listed).
apply map_by_position. intros p c Hp. simpl.
pose proof (@sized p c Hp) as Hc.
destruct Hc as ([HlenD Hmpi] & HpP & Hbuf).
unfold callsOf. rewrite HlenD. unfold indices. rewrite map_map.
apply map_ext_in. intros j Hj. apply in_seq in Hj.
rewrite Nat2Z.id.
assert (In (nth j (graphs_ c) emptyGraph) (graphs_ c)) as Hg by (apply nth_In; lia).
assert (In c w) as Hcw by (eapply nth_error_In; eauto).
rewrite (@buf_type c _ Hcw Hg).
unfold callOfRank. rewrite (@nth_allBuffers p j c Hp) by lia.
unfold comms_.
rewrite (@sized_numNcclRanks P D total processes devices fits divides p c (@sized p c Hp)).
rewrite (@sized_myNcclRank P D total processes devices fits divides p c (Z.of_nat j)
           (@sized p c Hp)) by lia.
replace (Z.of_nat (p * D) + Z.of_nat j) with (Z.of_nat (p * D + j)) by lia.
reflexivity.
Qed.

Lemma posted_ranked : rankedCalls flat = Ok flat.
Proof.
rewrite posted_by_rank.
assert (exists n, (P * D)%nat = S n) as [n Hn] by (exists (P * D - 1)%nat; nia).
apply rankedCalls_by_rank with (q0 := byRank 0%nat).
- rewrite Hn. reflexivity.
- unfold zlen. now rewrite length_map, length_seq.
- rewrite length_map, length_seq, map_map. reflexivity.
Qed.

Lemma posted_buffers : map call_buffer flat = bufs.
Proof.
rewrite posted_by_rank, map_map. simpl.
rewrite <- length_allBuffers. apply map_nth_positions.
Qed.

Lemma posted_uniform (q0 : NcclCall) : In q0 flat -> uniformCalls q0 flat = true.
Proof.
rewrite posted_by_rank. intros Hq0.
apply in_map_iff in Hq0. destruct Hq0 as (r0 & <- & _).
unfold uniformCalls. apply forallb_forall. intros q Hq.
apply in_map_iff in Hq. destruct Hq as (r & <- & _). simpl.
rewrite !Z.eqb_refl. simpl.
now destruct (ncclFloatType bty).
Qed.

Lemma length_posted : zlen flat = Z.of_nat (P * D).
Proof.
rewrite posted_by_rank. unfold zlen. now rewrite length_map, length_seq.
Qed.

Lemma posted_buffer_length (q : NcclCall) :
In q flat -> zlen (call_buffer q) = Z.of_nat total.
Proof.
intros Hq. unfold zlen. f_equal.
apply in_concat in Hq. destruct Hq as (l & Hl & Hq).
apply in_map_iff in Hl. destruct Hl as (c & <- & Hc).
unfold callsOf in Hq. apply in_map_iff in Hq. destruct Hq as (i & <- & Hi).
simpl. apply in_indices in Hi.
apply (@buf_length c); [assumption|]. apply nth_In. lia.
Qed.
End CallsOfJob.

(* ------------------------------------------------------------------ *)
(** ** [resetGrads] *)

Lemma length_zeroOutside (b e : Z) (d : list Z) :
  0 <= b <= e -> e <= zlen d -> zlen d < SIZE_MODULUS ->
  length (zeroOutside b e d) = length d.
Proof.
  intros Hbe He Hfit. unfold zeroOutside, zlen in *.
  assert (length (if 0 <? b then splice d 0 (repeat 0 (Z.to_nat b)) else d) = length d) as H1.
  { destruct (0 <? b); [|reflexivity].
    apply length_splice. rewrite repeat_length. lia. }
  destruct (e <? Z.of_nat (length d)) eqn:E; [|exact H1].
  rewrite length_splice; [exact H1|].
  rewrite repeat_length, H1. rewrite size_sub_small by lia. lia.
Qed.

Lemma nth_zeroOutside (b e : Z) (d : list Z) (k : nat) :
  0 <= b <= e -> e <= zlen d -> zlen d < SIZE_MODULUS -> (k < length d)%nat ->
  nth k (zeroOutside b e d) 0 =
    if (b <=? Z.of_nat k) && (Z.of_nat k <? e) then nth k d 0 else 0.
Proof.
  intros Hbe He Hfit Hk. unfold zeroOutside, zlen in *.
  set (d1 := if 0 <? b then splice d 0 (repeat 0 (Z.to_nat b)) else d).
  assert (length d1 = length d) as Hlen1.
  { unfold d1. destruct (0 <? b); [|reflexivity].
    apply length_splice. rewrite repeat_length. lia. }
  assert (nth k d1 0 = if b <=? Z.of_nat k then nth k d 0 else 0) as Hd1.
  { unfold d1. destruct (0 <? b) eqn:E0.
    - rewrite nth_splice by (rewrite repeat_length; lia).
      rewrite repeat_length. simpl.
      destruct (k <? Z.to_nat b)%nat eqn:E.
      + apply Nat.ltb_lt in E.
        assert ((b <=? Z.of_nat k) = false) as -> by (apply Z.leb_gt; lia).
        rewrite Nat.sub_0_r. apply nth_repeat.
      + apply Nat.ltb_ge in E.
        assert ((b <=? Z.of_nat k) = true) as -> by (apply Z.leb_le; lia).
        reflexivity.
    - apply Z.ltb_ge in E0.
      assert ((b <=? Z.of_nat k) = true) as -> by (apply Z.leb_le; lia).
      reflexivity. }
  destruct (e <? Z.of_nat (length d)) eqn:E.
  - apply Z.ltb_lt in E.
    rewrite nth_splice by (rewrite repeat_length, Hlen1, size_sub_small; lia).
    rewrite repeat_length, size_sub_small by lia.
    destruct (Z.to_nat e <=? k)%nat eqn:Ek; simpl.
    + apply Nat.leb_le in Ek.
      assert ((k <? Z.to_nat e + Z.to_nat (Z.of_nat (length d) - e))%nat = true) as ->
        by (apply Nat.ltb_lt; lia).
      assert ((Z.of_nat k <? e) = false) as -> by (apply Z.ltb_ge; lia).
      rewrite andb_false_r. apply nth_repeat.
    + apply Nat.leb_gt in Ek.
      assert ((Z.of_nat k <? e) = true) as -> by (apply Z.ltb_lt; lia).
      rewrite andb_true_r. exact Hd1.
  - apply Z.ltb_ge in E.
    assert ((Z.of_nat k <? e) = true) as -> by (apply Z.ltb_lt; lia).
    rewrite andb_true_r. exact Hd1.
Qed.

(** One call of the lambda on a device whose range lies in its buffer. *)
Lemma resetGrads_ok (graphs : list ExpressionGraph) (j : nat) (g : ExpressionGraph) (b e : Z) :
  nth_error graphs j = Some g ->
  0 <= b <= e -> e <= zlen (data (grads g)) -> zlen (data (grads g)) < SIZE_MODULUS ->
  resetGrads (Z.of_nat j) b e graphs =
    Ok (true, firstn j graphs
                ++ mkGraph (mkTensor (type (grads g)) (zeroOutside b e (data (grads g)))) (vals g)
                :: skipn (S j) graphs).
Proof.
  intros Hj Hbe He Hfit. unfold resetGrads. rewrite Nat2Z.id, Hj.
  unfold zeroOutside, size, subtensor_set.
  set (d := data (grads g)) in *.
  destruct (0 <? b) eqn:E0.
  - assert ((0 <=? 0) && (0 <=? b) && (0 + b <=? zlen d) = true) as ->.
    { rewrite !andb_true_iff. repeat split; apply Z.leb_le; lia. }
    simpl bind. cbn [data type].
    assert (zlen (splice d 0 (repeat 0 (Z.to_nat b))) = zlen d) as Hlen1.
    { unfold zlen. f_equal. apply length_splice. rewrite repeat_length.
      unfold zlen in He. lia. }
    destruct (e <? zlen d) eqn:E.
    + apply Z.ltb_lt in E. rewrite Hlen1.
      rewrite size_sub_small by lia.
      assert ((0 <=? e) && (0 <=? zlen d - e) && (e + (zlen d - e) <=? zlen d) = true) as ->.
      { rewrite !andb_true_iff. repeat split; apply Z.leb_le; lia. }
      reflexivity.
    + reflexivity.
  - simpl bind.
    destruct (e <? zlen d) eqn:E.
    + apply Z.ltb_lt in E.
      rewrite size_sub_small by lia. fold d.
      assert ((0 <=? e) && (0 <=? zlen d - e) && (e + (zlen d - e) <=? zlen d) = true) as ->.
      { rewrite !andb_true_iff. repeat split; apply Z.leb_le; lia. }
      simpl. destruct (grads g). reflexivity.
    + simpl. destruct (grads g). reflexivity.
Qed.

Lemma tasksOf_positions (c : NCCLCommunicator) (n : nat) :
  tasksOf c (indices n)
    = map (fun k => mkTask (Z.of_nat k) (fst (rangeOf c (Z.of_nat k)))
                           (snd (rangeOf c (Z.of_nat k))))
          (seq 0 n).
Proof. unfold tasksOf, indices. now rewrite map_map. Qed.

Lemma scheduled_positions (c : NCCLCommunicator) (n : nat) (schedule : list nat) :
  (forall k, In k schedule -> (k < n)%nat) ->
  scheduled (tasksOf c (indices n)) schedule
    = map (fun k => (k, mkTask (Z.of_nat k) (fst (rangeOf c (Z.of_nat k)))
                               (snd (rangeOf c (Z.of_nat k)))))
          schedule.
Proof.
  induction schedule as [|k rest IH]; intros H; simpl.
  - reflexivity.
  - rewrite nth_error_tasksOf by (apply H; now left).
    simpl. f_equal. apply IH. intros k' Hk'. apply H. now right.
Qed.

Lemma fold_left_allTrue_true {A : Type} (l : list A) :
  fold_left allTrue (map (fun _ => true) l) true = true.
Proof.
  rewrite fold_left_allTrue. simpl. apply forallb_forall.
  intros x Hx. apply in_map_iff in Hx. now destruct Hx as (? & <- & _).
Qed.

Section ResetOfJob.
Variables P D total : nat.
Hypothesis processes : (0 < P)%nat.
Hypothesis devices : (0 < D)%nat.
Hypothesis fits : Z.of_nat total + Z.of_nat (P * D) < SIZE_MODULUS.
Hypothesis divides : Z.of_nat total mod Z.of_nat (P * D) = 0.

Local Abbreviation s := (ceil_div (Z.of_nat total) (Z.of_nat (P * D))).

Variable p : nat.
Variable c : NCCLCommunicator.
Hypothesis sized : sizedProcess P D total p c.

(** What the reset makes of the graph of device [j]. *)
Local Abbreviation reset :=
  (fun (j : nat) (g : ExpressionGraph) =>
     mkGraph (mkTensor (type (grads g))
                       (zeroOutside ((Z.of_nat (p * D) + Z.of_nat j) * s)
                                    ((Z.of_nat (p * D) + Z.of_nat j + 1) * s)
                                    (data (grads g))))
             (vals g)).

Lemma shard_in_buffer (j : nat) :
(j < D)%nat ->
0 <= (Z.of_nat (p * D) + Z.of_nat j) * s
     <= (Z.of_nat (p * D) + Z.of_nat j + 1) * s /\
(Z.of_nat (p * D) + Z.of_nat j + 1) * s <= Z.of_nat total /\
Z.of_nat total < SIZE_MODULUS.
Proof.
intros Hj.
destruct (@job_arith P D total processes devices fits divides) as (HN & HNfit & Hs & Hex).
assert (p < P)%nat as Hp by apply sized.
assert (Z.of_nat (p * D) + Z.of_nat j + 1 <= Z.of_nat (P * D)) by nia.
repeat split; nia.
Qed.

Lemma foreach_resetGrads (schedule : list nat) :
Permutation schedule (seq 0 D) ->
exists graphs',
  foreach c resetGrads true schedule (graphs_ c) = Ok (true, graphs') /\
  length graphs' = D /\
  forall j, nth_error graphs' j = option_map (reset j) (nth_error (graphs_ c) j).
Proof.
intros Hperm.
pose proof sized as ([HlenD Hmpi] & HpP & Hbuf).
set (good := fun t : Task =>
               exists j, (j < D)%nat /\
                         t = mkTask (Z.of_nat j)
                                    ((Z.of_nat (p * D) + Z.of_nat j) * s)
                                    ((Z.of_nat (p * D) + Z.of_nat j + 1) * s)).
set (Inv := fun gs : list ExpressionGraph =>
              length gs = D /\
              forall k g, nth_error gs k = Some g -> length (data (grads g)) = total).
set (upd := fun (t : Task) (gs : list ExpressionGraph) =>
              firstn (Z.to_nat (task_device t)) gs
                ++ mkGraph (mkTensor (type (grads (nth (Z.to_nat (task_device t)) gs emptyGraph)))
                                     (zeroOutside (task_begin t) (task_end t)
                                        (data (grads (nth (Z.to_nat (task_device t)) gs
                                                          emptyGraph)))))
                           (vals (nth (Z.to_nat (task_device t)) gs emptyGraph))
                :: skipn (S (Z.to_nat (task_device t))) gs).
assert (forall t gs, good t -> Inv gs ->
          resetGrads (task_device t) (task_begin t) (task_end t) gs
            = Ok ((fun _ => true) t, upd t gs) /\ Inv (upd t gs)) as Hfunc.
{ intros t gs (j & Hj & ->) (Hlen & Hlens). simpl.
  destruct (@shard_in_buffer j Hj) as (Hbe & He & Hfit).
  assert (nth_error gs j = Some (nth j gs emptyGraph)) as Hnth
    by (apply nth_error_nth'; lia).
  pose proof (Hlens _ _ Hnth) as Hlg.
  split.
  - unfold upd. cbn [task_device task_begin task_end]. rewrite Nat2Z.id.
    apply resetGrads_ok; unfold zlen; try rewrite Hlg; try assumption; lia.
  - unfold upd, Inv. cbn [task_device task_begin task_end]. rewrite Nat2Z.id. split.
    + rewrite length_update; lia.
    + intros k g Hk. rewrite nth_error_update in Hk by lia.
      destruct (k =? j)%nat.
      * injection Hk as <-. cbn [grads data].
        rewrite length_zeroOutside; unfold zlen; try rewrite Hlg; try assumption; lia.
      * now apply Hlens with k. }
assert (forall i, localShardRange c i = Ok (rangeOf c i)) as Hplan.
{ apply shardSize_localShardRange with s.
  apply (@sized_shardSize P D total processes devices fits divides p c sized). }
assert (forall k, (k < D)%nat ->
          rangeOf c (Z.of_nat k) =
            ((Z.of_nat (p * D) + Z.of_nat k) * s, (Z.of_nat (p * D) + Z.of_nat k + 1) * s))
  as Hrange.
{ intros k Hk. apply (@sized_rangeOf P D total processes devices fits divides p c (Z.of_nat k) sized). lia. }
assert (Forall good (tasksOf c (indices (length (graphs_ c))))) as Hgood.
{ rewrite HlenD, tasksOf_positions. apply Forall_forall. intros t Ht.
  apply in_map_iff in Ht. destruct Ht as (k & <- & Hk). apply in_seq in Hk.
  exists k. split; [lia|]. rewrite Hrange by lia. reflexivity. }
assert (Inv (graphs_ c)) as Hinv.
{ split; [exact HlenD|]. intros k g Hk. apply Hbuf. eapply nth_error_In; eauto. }
assert (forall ks, (forall k, In k ks -> (k < D)%nat) ->
          fold_left (fun gs k => upd (mkTask (Z.of_nat k) (fst (rangeOf c (Z.of_nat k)))
                                             (snd (rangeOf c (Z.of_nat k)))) gs)
                    ks (graphs_ c)
          = fold_left (fun gs k => firstn k gs ++ reset k (nth k gs emptyGraph)
                                     :: skipn (S k) gs)
                      ks (graphs_ c)) as Hfold.
{ intros ks Hks. apply fold_left_ext_in. intros k gs Hk.
  unfold upd. cbn [task_device task_begin task_end].
  rewrite Nat2Z.id, Hrange by (now apply Hks). reflexivity. }
assert (forall ks, Permutation ks (seq 0 D) ->
          let graphs' := fold_left (fun gs k => firstn k gs ++ reset k (nth k gs emptyGraph)
                                                  :: skipn (S k) gs)
                                   ks (graphs_ c) in
          length graphs' = D /\
          forall j, nth_error graphs' j = option_map (reset j) (nth_error (graphs_ c) j))
  as Hfinal.
{ intros ks Hks.
  assert (Permutation ks (seq 0 (length (graphs_ c)))) as Hks' by now rewrite HlenD.
  destruct (@fold_updates_all _ reset emptyGraph ks (graphs_ c) Hks') as [Hl Hn].
  cbv zeta in Hl, Hn. cbv zeta.
  split; [rewrite Hl; exact HlenD|exact Hn]. }
unfold foreach.
destruct (true && (1 <? devices_size c)) eqn:E.
- apply andb_true_iff in E. destruct E as [_ E].
  apply Z.ltb_lt in E. unfold devices_size, zlen in E.
  rewrite (@foreachAcc_parallel bool (list ExpressionGraph) c resetGrads allTrue
             good Inv (fun _ => true) upd Hfunc Hplan);
    [| lia | exact Hgood | exact Hinv | now rewrite HlenD].
  rewrite fold_left_allTrue_true.
  rewrite HlenD, scheduled_positions by (now apply permutation_below).
  rewrite fold_left_map. simpl.
  rewrite Hfold by (now apply permutation_below).
  eexists. split; [reflexivity|]. now apply Hfinal.
- rewrite (@foreachAcc_sequential bool (list ExpressionGraph) c resetGrads allTrue
             good Inv (fun _ => true) upd Hfunc Hplan);
    [| exact E | exact Hgood | exact Hinv].
  rewrite fold_left_allTrue_true.
  rewrite HlenD, tasksOf_positions, fold_left_map.
  rewrite Hfold by (intros k Hk; apply in_seq in Hk; lia).
  eexists. split; [reflexivity|]. apply Hfinal. apply Permutation_refl.
Qed.
End ResetOfJob.

(* ------------------------------------------------------------------ *)
(** ** The two collectives on a job *)

Section PostsOfJob.
Variables P D total : nat.
Hypothesis processes : (0 < P)%nat.
Hypothesis devices : (0 < D)%nat.
Hypothesis fits : Z.of_nat total + Z.of_nat (P * D) < SIZE_MODULUS.
Hypothesis divides : Z.of_nat total mod Z.of_nat (P * D) = 0.

Local Abbreviation s := (ceil_div (Z.of_nat total) (Z.of_nat (P * D))).

Variable p : nat.
Variable c : NCCLCommunicator.
Hypothesis sized : sizedProcess P D total p c.

Lemma postReduceScatter_ok :
postReduceScatter c = Ok (callsOf grads (fun _ => 0) (fun b => b) s c).
Proof.
pose proof sized as ([HlenD _] & HpP & _).
destruct (@job_arith P D total processes devices fits divides) as (HN & HNfit & Hs & Hex).
unfold postReduceScatter, callsOf. apply mapM_ok.
intros i Hi. apply in_indices in Hi. rewrite HlenD in Hi.
rewrite (@sized_localShardRange P D total processes devices fits divides p c i sized Hi).
simpl bind.
rewrite (@sized_graph_at P D total processes devices fits divides p c i sized Hi). simpl bind.
rewrite (@sized_shardSize P D total processes devices fits divides p c sized). simpl bind.
unfold subtensor_size.
replace ((Z.of_nat (p * D) + i + 1) * s - (Z.of_nat (p * D) + i) * s) with s by lia.
assert (size_sub ((Z.of_nat (p * D) + i + 1) * s) ((Z.of_nat (p * D) + i) * s) = s) as ->.
{ rewrite size_sub_small; [lia|]. nia. }
rewrite Z.eqb_refl. simpl.
rewrite (@sized_myNcclRank P D total processes devices fits divides p c i sized Hi).
reflexivity.
Qed.

Lemma postAllGather_ok :
postAllGather c = Ok (callsOf vals (fun b => b) (fun _ => 0) s c).
Proof.
pose proof sized as ([HlenD _] & HpP & _).
unfold postAllGather, callsOf. apply mapM_ok.
intros i Hi. apply in_indices in Hi. rewrite HlenD in Hi.
rewrite (@sized_localShardRange P D total processes devices fits divides p c i sized Hi).
simpl bind.
rewrite (@sized_graph_at P D total processes devices fits divides p c i sized Hi). simpl bind.
rewrite (@sized_shardSize P D total processes devices fits divides p c sized). simpl bind.
rewrite (@sized_myNcclRank P D total processes devices fits divides p c i sized Hi).
reflexivity.
Qed.
End PostsOfJob.

(** The library carries a group out once its checks pass. *)
Lemma ncclReduceScatter_checked (posted : list (list NcclCall)) (ranked : list NcclCall)
      (q0 : NcclCall) :
  rankedCalls (concat posted) = Ok ranked ->
  hd_error ranked = Some q0 ->
  uniformCalls q0 ranked = true ->
  forallb (fun q => (0 <=? call_sendoff q)
                    && (call_sendoff q + zlen ranked * call_count q0 <=? zlen (call_buffer q))
                    && (0 <=? call_recvoff q)
                    && (call_recvoff q + call_count q0 <=? zlen (call_buffer q))
                    && (call_recvoff q
                          =? call_sendoff q + comm_rank (call_comm q) * call_count q0))
          ranked = true ->
  ncclReduceScatter posted =
    Ok (map (map (fun q => splice (call_buffer q) (call_recvoff q)
                                  (reducedShard ranked (call_count q0)
                                                (comm_rank (call_comm q)))))
            posted).
Proof.
  intros Hranked Hhd Hunif Hbounds.
  unfold ncclReduceScatter. rewrite Hranked. cbn [bind].
  destruct ranked as [|x rest]; [discriminate|].
  injection Hhd as ->.
  cbv zeta. rewrite Hunif, Hbounds. reflexivity.
Qed.

Lemma ncclAllGather_checked (posted : list (list NcclCall)) (ranked : list NcclCall)
      (q0 : NcclCall) :
  rankedCalls (concat posted) = Ok ranked ->
  hd_error ranked = Some q0 ->
  uniformCalls q0 ranked = true ->
  forallb (fun q => (0 <=? call_sendoff q)
                    && (call_sendoff q + call_count q0 <=? zlen (call_buffer q))
                    && (0 <=? call_recvoff q)
                    && (call_recvoff q + zlen ranked * call_count q0 <=? zlen (call_buffer q))
                    && (call_sendoff q
                          =? call_recvoff q + comm_rank (call_comm q) * call_count q0))
          ranked = true ->
  ncclAllGather posted =
    Ok (map (map (fun q => splice (call_buffer q) (call_recvoff q)
                                  (gatheredShards ranked (call_count q0))))
            posted).
Proof.
  intros Hranked Hhd Hunif Hbounds.
  unfold ncclAllGather. rewrite Hranked. cbn [bind].
  destruct ranked as [|x rest]; [discriminate|].
  injection Hhd as ->.
  cbv zeta. rewrite Hunif, Hbounds. reflexivity.
Qed.

Section ReduceScatterOfJob.
Variables P D total : nat.
Hypothesis processes : (0 < P)%nat.
Hypothesis devices : (0 < D)%nat.
Hypothesis fits : Z.of_nat total + Z.of_nat (P * D) < SIZE_MODULUS.
Hypothesis divides : Z.of_nat total mod Z.of_nat (P * D) = 0.

Variable w : World.
Hypothesis sized : forall p c, nth_error w p = Some c -> sizedProcess P D total p c.
Hypothesis processes_listed : length w = P.
Variable gty : Type_.
Hypothesis grads_type : forall c g, In c w -> In g (graphs_ c) -> type (grads g) = gty.

Local Abbreviation s := (ceil_div (Z.of_nat total) (Z.of_nat (P * D))).
Local Abbreviation posted := (map (callsOf grads (fun _ => 0) (fun b => b) s) w).

Lemma posted_call (q : NcclCall) :
In q (concat posted) ->
exists r, (r < P * D)%nat /\
          q = callOfRank (allBuffers grads w) (fun _ => 0) (fun b => b) s
                         (ncclFloatType gty) (P * D) r /\
          length (call_buffer q) = total.
Proof.
intros Hq.
assert (length (call_buffer q) = total) as Hlen.
{ apply in_concat in Hq. destruct Hq as (l & Hl & Hq).
  apply in_map_iff in Hl. destruct Hl as (c & <- & Hc).
  unfold callsOf in Hq. apply in_map_iff in Hq. destruct Hq as (i & <- & Hi).
  simpl. apply in_indices in Hi.
  apply In_nth_error in Hc. destruct Hc as [p Hp].
  apply (@sized p c Hp). apply nth_In. lia. }
rewrite (@posted_by_rank P D total processes devices fits divides w sized
           processes_listed grads gty grads_type) in Hq.
apply in_map_iff in Hq. destruct Hq as (r & <- & Hr). apply in_seq in Hr.
exists r. split; [lia|]. split; [reflexivity|exact Hlen].
Qed.

Lemma ncclReduceScatter_ok :
ncclReduceScatter posted =
  Ok (map (map (fun q =>
                  splice (call_buffer q) (call_recvoff q)
                         (map (fun j => sumAt (allGrads w)
                                              (Z.to_nat (comm_rank (call_comm q) * s + j)))
                              (indices (Z.to_nat s)))))
          posted).
Proof.
destruct (@job_arith P D total processes devices fits divides) as (HN & HNfit & Hs & Hex).
pose proof (@posted_ranked P D total processes devices fits divides w sized
              processes_listed grads gty grads_type (fun _ => 0) (fun b => b)) as Hranked.
pose proof (@length_posted P D total processes devices fits divides w sized
              processes_listed grads gty grads_type (fun _ => 0) (fun b => b)) as Hlen.
pose proof (@posted_uniform P D total processes devices fits divides w sized
              processes_listed grads gty grads_type (fun _ => 0) (fun b => b)) as Hunif.
pose proof (@posted_buffers P D total processes devices fits divides w sized
              processes_listed grads gty grads_type (fun _ => 0) (fun b => b)) as Hbufs.
pose proof posted_call as Hcall.
assert (exists q0, hd_error (concat posted) = Some q0) as [q0 Hhd].
{ destruct (concat posted) as [|q0 rest]; [|now exists q0].
  exfalso. unfold zlen in Hlen. simpl in Hlen. lia. }
assert (In q0 (concat posted)) as Hin0.
{ destruct (concat posted); [discriminate|]. injection Hhd as <-. now left. }
destruct (Hcall q0 Hin0) as (r0 & Hr0 & Hq0 & _).
assert (call_count q0 = s) as Hcount by (rewrite Hq0; reflexivity).
rewrite (@ncclReduceScatter_checked posted (concat posted) q0 Hranked Hhd).
- f_equal. rewrite Hcount.
  apply map_ext_in. intros l Hl. apply map_ext_in. intros q Hq.
  f_equal. unfold reducedShard.
  apply map_ext. intros j. unfold sumAt. f_equal.
  change (allGrads w) with (allBuffers grads w).
  rewrite <- Hbufs, map_map.
  apply map_ext_in. intros q' Hq'.
  destruct (Hcall q' Hq') as (r' & _ & -> & _). simpl. reflexivity.
- now apply Hunif.
- rewrite Hcount, Hlen. apply forallb_forall. intros q Hq.
  destruct (Hcall q Hq) as (r & Hr & -> & Hl). simpl in *.
  unfold zlen. rewrite Hl.
  assert (Z.of_nat r + 1 <= Z.of_nat (P * D)) by lia.
  rewrite !andb_true_iff. repeat split;
    first [apply Z.leb_le; nia | apply Z.eqb_eq; lia].
Qed.
End ReduceScatterOfJob.

(* ------------------------------------------------------------------ *)
(** ** [scatterReduceAndResetGrads] on a job *)

Lemma mapM_exists {A B : Type} (f : A -> outcome B) (R : A -> B -> Prop) (l : list A) :
  (forall x, In x l -> exists y, f x = Ok y /\ R x y) ->
  exists ys, mapM f l = Ok ys /\ Forall2 R l ys.
Proof.
  induction l as [|x l IH]; intros H.
  - exists []. split; [reflexivity|constructor].
  - destruct (H x (or_introl eq_refl)) as (y & Hy & HR).
    destruct IH as (ys & Hys & HF); [intros; apply H; now right|].
    exists (y :: ys). simpl. rewrite Hy. simpl. rewrite Hys. simpl.
    split; [reflexivity|now constructor].
Qed.

Lemma Forall2_at {A B : Type} (R : A -> B -> Prop) (l : list A) (ys : list B) :
  Forall2 R l ys ->
  forall n x, nth_error l n = Some x -> exists y, nth_error ys n = Some y /\ R x y.
Proof.
  induction 1 as [|a b l ys Hab _ IH]; intros n x Hn.
  - destruct n; discriminate.
  - destruct n as [|n]; simpl in *.
    + injection Hn as <-. now exists b.
    + now apply IH.
Qed.

Lemma nth_map_indices {A : Type} (F : Z -> A) (n j : nat) (d : A) :
  (j < n)%nat -> nth j (map F (indices n)) d = F (Z.of_nat j).
Proof.
  intros Hj. apply nth_error_nth.
  now rewrite nth_error_map, nth_error_indices.
Qed.

Lemma nth_error_positions {A : Type} (l : list A) (n : nat) :
  nth_error (combine (seq 0 (length l)) l) n = option_map (fun x => (n, x)) (nth_error l n).
Proof.
  rewrite nth_error_combine, nth_error_seq.
  destruct (n <? length l)%nat eqn:E.
  - now destruct (nth_error l n).
  - apply Nat.ltb_ge in E. apply nth_error_None in E. now rewrite E.
Qed.

(** The reduced shard written into a buffer that is then cleared outside
    the shard: the sums inside, zero outside. *)
Lemma nth_reduced_reset (bufs : list (list Z)) (d : list Z) (s r : Z) (total k : nat) :
  0 <= s -> 0 <= r -> (r + 1) * s <= Z.of_nat total ->
  length d = total -> Z.of_nat total < SIZE_MODULUS -> (k < total)%nat ->
  let d' := zeroOutside (r * s) ((r + 1) * s)
              (splice d (r * s)
                      (map (fun j => sumAt bufs (Z.to_nat (r * s + j)))
                           (indices (Z.to_nat s)))) in
  length d' = total /\
  nth k d' 0 = if (r * s <=? Z.of_nat k) && (Z.of_nat k <? (r + 1) * s)
               then sumAt bufs k else 0.
Proof.
  intros Hs Hr Hin Hlen Hfit Hk. cbv zeta.
  set (new := map (fun j => sumAt bufs (Z.to_nat (r * s + j))) (indices (Z.to_nat s))).
  assert (length new = Z.to_nat s) as Hnew
    by (unfold new; now rewrite length_map, length_indices).
  assert (0 <= r * s) as Hrs by nia.
  assert (length (splice d (r * s) new) = total) as Hsp.
  { rewrite length_splice; [exact Hlen|]. rewrite Hnew. nia. }
  split.
  - rewrite length_zeroOutside; unfold zlen; rewrite ?Hsp; lia.
  - rewrite nth_zeroOutside; unfold zlen; rewrite ?Hsp; try lia.
    destruct ((r * s <=? Z.of_nat k) && (Z.of_nat k <? (r + 1) * s)) eqn:E; [|reflexivity].
    apply andb_true_iff in E. destruct E as [E1 E2].
    apply Z.leb_le in E1. apply Z.ltb_lt in E2.
    rewrite nth_splice by (rewrite Hnew; nia).
    rewrite Hnew.
    assert ((Z.to_nat (r * s) <=? k)%nat = true) as -> by (apply Nat.leb_le; lia).
    assert ((k <? Z.to_nat (r * s) + Z.to_nat s)%nat = true) as -> by (apply Nat.ltb_lt; nia).
    simpl. unfold new. rewrite nth_map_indices by nia.
    f_equal. lia.
Qed.

Lemma sumAt_ones (bufs : list (list Z)) (total k : nat) :
  (forall d, In d bufs -> d = repeat 1 total) -> (k < total)%nat ->
  sumAt bufs k = zlen bufs.
Proof.
  intros Hones Hk. unfold sumAt.
  rewrite (@Zsum_map_const _ _ 1); [lia|].
  intros d Hd. rewrite (Hones d Hd).
  apply nth_error_nth. now apply nth_error_repeat.
Qed.

Section ScatterReduceOfJob.
Variables P D total : nat.
Variables gty vty : Type_.
Variable w : World.
Hypothesis job : jobOf P D total gty vty w.

Local Abbreviation s := (ceil_div (Z.of_nat total) (Z.of_nat (P * D))).

(** The buffer of the device of global rank [r] after the collective. *)
Local Abbreviation received :=
  (fun (r : Z) (d : list Z) =>
     splice d (r * s)
            (map (fun j => sumAt (allGrads w) (Z.to_nat (r * s + j)))
                 (indices (Z.to_nat s)))).

(** The process at position [p] after the collective. *)
Local Abbreviation afterCollective :=
  (fun c : NCCLCommunicator =>
     set_grads c
       (map (fun q => splice (call_buffer q) (call_recvoff q)
                             (map (fun j => sumAt (allGrads w)
                                                  (Z.to_nat (comm_rank (call_comm q) * s + j)))
                                  (indices (Z.to_nat s))))
            (callsOf grads (fun _ => 0) (fun b => b) s c))).

Lemma job_parts :
(0 < P)%nat /\ (0 < D)%nat /\
Z.of_nat total + Z.of_nat (P * D) < SIZE_MODULUS /\
Z.of_nat total mod Z.of_nat (P * D) = 0 /\
length w = P /\
(forall p c, nth_error w p = Some c -> sizedProcess P D total p c) /\
(forall c g, In c w -> In g (graphs_ c) -> type (grads g) = gty) /\
(forall c g, In c w -> In g (graphs_ c) -> type (vals g) = vty).
Proof.
pose proof job as (Hworld & Hbufs & HP & HD & Hfit & Hdiv).
split; [exact HP|]. split; [exact HD|]. split; [exact Hfit|]. split; [exact Hdiv|].
split; [apply Hworld|].
split; [|split].
- intros p c Hp. now apply (@job_sized P D total p gty vty w c job Hp).
- intros c g Hc Hg. now apply Hbufs with c.
- intros c g Hc Hg. now apply Hbufs with c.
Qed.

Lemma afterCollective_graphs (p : nat) (c : NCCLCommunicator) (j : nat) :
nth_error w p = Some c ->
nth_error (graphs_ (afterCollective c)) j =
  option_map (fun g => mkGraph (mkTensor (type (grads g))
                                         (received (Z.of_nat (p * D) + Z.of_nat j)
                                                   (data (grads g))))
                               (vals g))
             (nth_error (graphs_ c) j).
Proof.
intros Hp.
destruct job_parts as (HP & HD & Hfit & Hdiv & Hlen & Hsized & _).
pose proof (Hsized p c Hp) as Hc. pose proof Hc as ([HlenD _] & _).
unfold set_grads, callsOf. cbn [graphs_].
rewrite nth_error_map, nth_error_combine, !nth_error_map.
destruct (nth_error (graphs_ c) j) as [g|] eqn:Eg; [|reflexivity].
assert (j < D)%nat as Hj by (rewrite <- HlenD; apply nth_error_Some; congruence).
rewrite HlenD, nth_error_indices by exact Hj. simpl.
rewrite Nat2Z.id, (nth_error_nth _ _ emptyGraph Eg).
rewrite (@sized_myNcclRank P D total HP HD Hfit Hdiv p c (Z.of_nat j) Hc) by lia.
reflexivity.
Qed.

Lemma afterCollective_sized (p : nat) (c : NCCLCommunicator) :
nth_error w p = Some c -> sizedProcess P D total p (afterCollective c).
Proof.
intros Hp.
destruct job_parts as (HP & HD & Hfit & Hdiv & Hlen & Hsized & _).
destruct (@job_arith P D total HP HD Hfit Hdiv) as (HN & HNfit & Hs & Hex).
pose proof (Hsized p c Hp) as Hc. pose proof Hc as ([HlenD Hmpi] & HpP & Hbuf).
assert (length (graphs_ (afterCollective c)) = D) as HlenD'.
{ unfold set_grads, callsOf. cbn [graphs_].
  rewrite length_map, length_combine, !length_map, length_indices. lia. }
split; [split; [exact HlenD'|exact Hmpi]|]. split; [exact HpP|].
intros g' Hg'. apply In_nth_error in Hg'. destruct Hg' as [j Hj].
rewrite (@afterCollective_graphs p c j Hp) in Hj.
destruct (nth_error (graphs_ c) j) as [g|] eqn:Eg; [|discriminate].
simpl in Hj. injection Hj as <-. simpl.
assert (j < D)%nat as HjD by (rewrite <- HlenD; apply nth_error_Some; congruence).
destruct (Hbuf g) as [Hg Hv]; [eapply nth_error_In; eauto|].
split; [|exact Hv].
rewrite length_splice; [exact Hg|].
rewrite length_map, length_indices, Hg.
assert (Z.of_nat (p * D) + Z.of_nat j + 1 <= Z.of_nat (P * D)) by nia.
nia.
Qed.
End ScatterReduceOfJob.

(** C1: on a job of N = P*D ranks whose buffer size the planner accepts,
    [scatterReduceAndResetGrads] returns, whatever the order in which each
    pool runs the reset tasks, and afterwards the gradient buffer of every
    local device of every process holds, at each index of the device's own
    shard range, the sum over all ranks of the gradient buffers at that
    index, and zero at every other index; with every rank holding the
    all-ones vector, the in-shard elements are N and the others 0. *)
Theorem scatterReduceAndResetGrads_sums
        (P D total : nat) (gty vty : Type_) (w : World) (schedules : nat -> list nat) :
  jobOf P D total gty vty w ->
  (forall p, (p < P)%nat -> Permutation (schedules p) (seq 0 D)) ->
  exists w',
    scatterReduceAndResetGrads schedules w = Ok w' /\
    length w' = P /\
    forall p c, nth_error w p = Some c ->
      exists c', nth_error w' p = Some c' /\ length (graphs_ c') = D /\
        forall i, (i < D)%nat ->
          exists g' b e,
            nth_error (graphs_ c') i = Some g' /\
            localShardRange c (Z.of_nat i) = Ok (b, e) /\
            length (data (grads g')) = total /\
            forall k, (k < total)%nat ->
              nth k (data (grads g')) 0 =
                (if (b <=? Z.of_nat k) && (Z.of_nat k <? e)
                 then sumAt (allGrads w) k else 0) /\
              ((forall d, In d (allGrads w) -> d = repeat 1 total) ->
               nth k (data (grads g')) 0 =
                 (if (b <=? Z.of_nat k) && (Z.of_nat k <? e)
                  then Z.of_nat (P * D) else 0)).
Proof.
  intros job Hsched.
  destruct (@job_parts P D total gty vty w job)
    as (HP & HD & Hfit & Hdiv & Hlen & Hsized & Hgty & _).
  destruct (@job_arith P D total HP HD Hfit Hdiv) as (HN & HNfit & Hs & Hex).
  unfold scatterReduceAndResetGrads.
  (* every process posts its calls *)
  rewrite (@mapM_ok _ _ postReduceScatter
             (callsOf grads (fun _ => 0) (fun b => b)
                      (ceil_div (Z.of_nat total) (Z.of_nat (P * D)))) w).
  2:{ intros c Hc. apply In_nth_error in Hc. destruct Hc as [p Hp].
      apply (@postReduceScatter_ok P D total HP HD Hfit Hdiv p c (Hsized p c Hp)). }
  cbn [bind].
  (* the library carries the group out *)
  rewrite (@ncclReduceScatter_ok P D total HP HD Hfit Hdiv w Hsized Hlen gty Hgty).
  cbn [bind].
  set (s := ceil_div (Z.of_nat total) (Z.of_nat (P * D))) in *.
  rewrite !map_map, combine_with_map, map_map. cbn [fst snd].
  set (w1 := map _ w).
  assert (length w1 = P) as Hlen1 by (unfold w1; now rewrite length_map).
  assert (forall p c, nth_error w p = Some c ->
            nth_error w1 p = Some (set_grads c
              (map (fun q => splice (call_buffer q) (call_recvoff q)
                                    (map (fun j => sumAt (allGrads w)
                                                     (Z.to_nat (comm_rank (call_comm q) * s + j)))
                                         (indices (Z.to_nat s))))
                   (callsOf grads (fun _ => 0) (fun b => b) s c)))) as Hw1.
  { intros p c Hp. unfold w1. rewrite nth_error_map, Hp. reflexivity. }
  (* every process resets its gradients *)
  set (R := fun (pc : nat * NCCLCommunicator) (c' : NCCLCommunicator) =>
              length (graphs_ c') = D /\
              forall j, nth_error (graphs_ c') j =
                        option_map
                          (fun g => mkGraph
                             (mkTensor (type (grads g))
                                (zeroOutside ((Z.of_nat (fst pc * D) + Z.of_nat j) * s)
                                             ((Z.of_nat (fst pc * D) + Z.of_nat j + 1) * s)
                                             (data (grads g))))
                             (vals g))
                          (nth_error (graphs_ (snd pc)) j)).
  match goal with
  | |- exists w', mapM ?f ?l = Ok w' /\ _ =>
      destruct (@mapM_exists _ _ f R l) as (w' & Hrun & Hall)
  end.
  { intros [p c1] Hin. apply In_nth_error in Hin. destruct Hin as [n Hn].
    rewrite nth_error_positions in Hn.
    destruct (nth_error w1 n) as [c1'|] eqn:E1; [|discriminate].
    simpl in Hn. injection Hn as <- <-.
    assert (n < length w)%nat as Hnw.
    { rewrite Hlen, <- Hlen1. apply nth_error_Some. congruence. }
    destruct (nth_error w n) as [c|] eqn:Ec; [|apply nth_error_None in Ec; lia].
    rewrite (Hw1 n c Ec) in E1. injection E1 as <-.
    pose proof (@afterCollective_sized P D total gty vty w job n c Ec) as Hsz.
    fold s in Hsz.
    destruct (@foreach_resetGrads P D total HP HD Hfit Hdiv n _ Hsz (schedules n))
      as (graphs' & Hfe & HlenG & Hnth).
    { apply Hsched. lia. }
    cbn [fst snd]. fold s in Hfe. rewrite Hfe. cbn [bind].
    eexists. split; [reflexivity|].
    unfold R. cbn [graphs_ fst snd]. split; [exact HlenG|exact Hnth]. }
  exists w'. split; [exact Hrun|].
  split.
  { rewrite <- (Forall2_length Hall), length_combine, length_seq. lia. }
  intros p c Hp.
  assert (nth_error (combine (seq 0 (length w1)) w1) p
          = Some (p, set_grads c
              (map (fun q => splice (call_buffer q) (call_recvoff q)
                                    (map (fun j => sumAt (allGrads w)
                                                     (Z.to_nat (comm_rank (call_comm q) * s + j)))
                                         (indices (Z.to_nat s))))
                   (callsOf grads (fun _ => 0) (fun b => b) s c)))) as Hpc.
  { rewrite nth_error_positions, (Hw1 p c Hp). reflexivity. }
  destruct (Forall2_at Hall _ Hpc) as (c' & Hc' & HlenG & Hnth).
  cbn [fst snd] in Hnth.
  exists c'. split; [exact Hc'|]. split; [exact HlenG|].
  intros i Hi.
  pose proof (Hsized p c Hp) as Hc. pose proof Hc as ([HlenD _] & HpP & Hbuf).
  assert (nth_error (graphs_ c) i = Some (nth i (graphs_ c) emptyGraph)) as Hg
    by (apply nth_error_nth'; lia).
  set (g := nth i (graphs_ c) emptyGraph) in *.
  specialize (Hnth i).
  pose proof (@afterCollective_graphs P D total gty vty w job p c i Hp) as Hafter.
  fold s in Hafter. rewrite Hafter, Hg in Hnth. cbn [option_map grads data type vals] in Hnth.
  eexists. exists ((Z.of_nat (p * D) + Z.of_nat i) * s),
                  ((Z.of_nat (p * D) + Z.of_nat i + 1) * s).
  split; [exact Hnth|].
  split.
  { apply (@sized_localShardRange P D total HP HD Hfit Hdiv p c (Z.of_nat i) Hc). lia. }
  cbn [grads data].
  assert (length (data (grads g)) = total) as Hlg.
  { apply Hbuf. eapply nth_error_In; eauto. }
  assert (Z.of_nat (p * D) + Z.of_nat i + 1 <= Z.of_nat (P * D)) as Hr by nia.
  assert (forall k, (k < total)%nat ->
            length (zeroOutside ((Z.of_nat (p * D) + Z.of_nat i) * s)
                                ((Z.of_nat (p * D) + Z.of_nat i + 1) * s)
                                (splice (data (grads g)) ((Z.of_nat (p * D) + Z.of_nat i) * s)
                                   (map (fun j => sumAt (allGrads w)
                                           (Z.to_nat ((Z.of_nat (p * D) + Z.of_nat i) * s + j)))
                                        (indices (Z.to_nat s))))) = total /\
            nth k (zeroOutside ((Z.of_nat (p * D) + Z.of_nat i) * s)
                               ((Z.of_nat (p * D) + Z.of_nat i + 1) * s)
                               (splice (data (grads g)) ((Z.of_nat (p * D) + Z.of_nat i) * s)
                                  (map (fun j => sumAt (allGrads w)
                                          (Z.to_nat ((Z.of_nat (p * D) + Z.of_nat i) * s + j)))
                                       (indices (Z.to_nat s))))) 0
            = if ((Z.of_nat (p * D) + Z.of_nat i) * s <=? Z.of_nat k)
                   && (Z.of_nat k <? (Z.of_nat (p * D) + Z.of_nat i + 1) * s)
              then sumAt (allGrads w) k else 0) as Hfinal.
  { intros k Hk.
    apply (@nth_reduced_reset (allGrads w) (data (grads g)) s
             (Z.of_nat (p * D) + Z.of_nat i) total k); try assumption; try lia; nia. }
  split.
  { destruct total as [|t]; [|apply (Hfinal 0%nat); lia].
    rewrite length_zeroOutside; unfold zlen; rewrite ?length_splice, ?Hlg;
      rewrite ?length_map, ?length_indices; simpl; try lia; nia. }
  intros k Hk. destruct (Hfinal k Hk) as [_ Hnthk].
  split; [exact Hnthk|].
  intros Hones. rewrite Hnthk.
  destruct (((Z.of_nat (p * D) + Z.of_nat i) * s <=? Z.of_nat k)
              && (Z.of_nat k <? (Z.of_nat (p * D) + Z.of_nat i + 1) * s)); [|reflexivity].
  rewrite (@sumAt_ones (allGrads w) total k Hones Hk).
  unfold zlen. f_equal.
  apply (@length_allBuffers P D total w Hsized Hlen grads).
Qed.

Lemma mpiWorld_jobOf (ty : Type_) (P D total : nat) (v : Z) :
  ty = float16 \/ ty = float32 ->
  (0 < P)%nat -> (0 < D)%nat ->
  Z.of_nat total + Z.of_nat (P * D) < SIZE_MODULUS ->
  Z.of_nat total mod Z.of_nat (P * D) = 0 ->
  jobOf P D total ty ty (mpiWorld ty P D total v).
Proof.
  intros Hty HP HD Hfit Hdiv.
  split; [apply mpiWorld_worldOf|].
  split; [|now repeat split].
  split; [exact Hty|]. split; [exact Hty|].
  intros c g Hc Hg. unfold mpiWorld in Hc.
  apply in_map_iff in Hc. destruct Hc as (p & <- & _).
  simpl in Hg. apply repeat_spec in Hg. subst g.
  simpl. now rewrite repeat_length.
Qed.

(** C1, at two processes of two devices under MPI, every device holding
    eight ones, each pool running its two reset tasks in the order 1, 0:
    N = 4. *)
Lemma scatterReduceAndResetGrads_sums_witness :
  exists w',
    scatterReduceAndResetGrads (fun _ => [1; 0]%nat) (mpiWorld float32 2 2 8 1) = Ok w' /\
    length w' = 2%nat /\
    forall p c, nth_error (mpiWorld float32 2 2 8 1) p = Some c ->
      exists c', nth_error w' p = Some c' /\ length (graphs_ c') = 2%nat /\
        forall i, (i < 2)%nat ->
          exists g' b e,
            nth_error (graphs_ c') i = Some g' /\
            localShardRange c (Z.of_nat i) = Ok (b, e) /\
            length (data (grads g')) = 8%nat /\
            forall k, (k < 8)%nat ->
              nth k (data (grads g')) 0 =
                (if (b <=? Z.of_nat k) && (Z.of_nat k <? e)
                 then sumAt (allGrads (mpiWorld float32 2 2 8 1)) k else 0) /\
              ((forall d, In d (allGrads (mpiWorld float32 2 2 8 1)) -> d = repeat 1 8) ->
               nth k (data (grads g')) 0 =
                 (if (b <=? Z.of_nat k) && (Z.of_nat k <? e)
                  then Z.of_nat (2 * 2) else 0)).
Proof.
  apply (@scatterReduceAndResetGrads_sums 2 2 8 float32 float32
           (mpiWorld float32 2 2 8 1) (fun _ => [1; 0]%nat)).
  - apply mpiWorld_jobOf; [now right | lia | lia | reflexivity | reflexivity].
  - intros p _. apply perm_swap.
Defined.

(** The same job evaluated: every device ends with 4 on its own two
    indices and 0 elsewhere. *)
Lemma scatterReduceAndResetGrads_ones :
  option_map allGrads
    (match scatterReduceAndResetGrads (fun _ => [1; 0]%nat) (mpiWorld float32 2 2 8 1) with
     | Ok w' => Some w'
     | _ => None
     end)
  = Some [ [4; 4; 0; 0; 0; 0; 0; 0]; [0; 0; 4; 4; 0; 0; 0; 0];
           [0; 0; 0; 0; 4; 4; 0; 0]; [0; 0; 0; 0; 0; 0; 4; 4] ].
Proof. reflexivity. Qed.

(* ------------------------------------------------------------------ *)
(** ** [allGatherParams] on a job *)

Section AllGatherOfJob.
Variables P D total : nat.
Variables gty vty : Type_.
Variable w : World.
Hypothesis job : jobOf P D total gty vty w.

Local Abbreviation s := (ceil_div (Z.of_nat total) (Z.of_nat (P * D))).
Local Abbreviation posted := (map (callsOf vals (fun b => b) (fun _ => 0) s) w).

(** The shards of all ranks, in ascending rank order. *)
Local Abbreviation gathered :=
  (concat (map (fun r => slice (nth r (allVals w) []) (Z.of_nat r * s) ((Z.of_nat r + 1) * s))
               (seq 0 (P * D)))).

Lemma posted_vals_call (q : NcclCall) :
In q (concat posted) ->
exists r, (r < P * D)%nat /\
          q = callOfRank (allBuffers vals w) (fun b => b) (fun _ => 0) s
                         (ncclFloatType vty) (P * D) r /\
          length (call_buffer q) = total.
Proof.
intros Hq.
destruct (@job_parts P D total gty vty w job)
  as (HP & HD & Hfit & Hdiv & Hlen & Hsized & _ & Hvty).
assert (length (call_buffer q) = total) as Hlq.
{ apply in_concat in Hq. destruct Hq as (l & Hl & Hq).
  apply in_map_iff in Hl. destruct Hl as (c & <- & Hc).
  unfold callsOf in Hq. apply in_map_iff in Hq. destruct Hq as (i & <- & Hi).
  simpl. apply in_indices in Hi.
  apply In_nth_error in Hc. destruct Hc as [p Hp].
  apply (Hsized p c Hp). apply nth_In. lia. }
rewrite (@posted_by_rank P D total HP HD Hfit Hdiv w Hsized Hlen vals vty Hvty) in Hq.
apply in_map_iff in Hq. destruct Hq as (r & <- & Hr). apply in_seq in Hr.
exists r. split; [lia|]. split; [reflexivity|exact Hlq].
Qed.

Lemma length_gathered : length gathered = total.
Proof.
destruct (@job_parts P D total gty vty w job)
  as (HP & HD & Hfit & Hdiv & Hlen & Hsized & _ & Hvty).
destruct (@job_arith P D total HP HD Hfit Hdiv) as (HN & HNfit & Hs & Hex).
rewrite (@length_concat_blocks _ (Z.to_nat s)).
- rewrite length_map, length_seq. nia.
- intros l Hl. apply in_map_iff in Hl. destruct Hl as (r & <- & Hr).
  apply in_seq in Hr. unfold slice.
  rewrite length_firstn, length_skipn.
  assert (length (nth r (allVals w) []) = total) as Hlr.
  { assert (In (callOfRank (allBuffers vals w) (fun b => b) (fun _ => 0) s
                           (ncclFloatType vty) (P * D) r)
               (concat posted)) as Hin.
    { rewrite (@posted_by_rank P D total HP HD Hfit Hdiv w Hsized Hlen vals vty Hvty).
      apply in_map. apply in_seq. lia. }
    destruct (posted_vals_call _ Hin) as (_ & _ & _ & Hl). exact Hl. }
  rewrite Hlr.
  assert (Z.of_nat r + 1 <= Z.of_nat (P * D)) by lia.
  nia.
Qed.

Lemma ncclAllGather_ok :
ncclAllGather posted = Ok (map (map (fun _ : NcclCall => gathered)) posted).
Proof.
destruct (@job_parts P D total gty vty w job)
  as (HP & HD & Hfit & Hdiv & Hlen & Hsized & _ & Hvty).
destruct (@job_arith P D total HP HD Hfit Hdiv) as (HN & HNfit & Hs & Hex).
pose proof (@posted_by_rank P D total HP HD Hfit Hdiv w Hsized Hlen vals vty Hvty
              (fun b => b) (fun _ => 0)) as Hby.
pose proof (@posted_ranked P D total HP HD Hfit Hdiv w Hsized Hlen vals vty Hvty
              (fun b => b) (fun _ => 0)) as Hranked.
pose proof (@length_posted P D total HP HD Hfit Hdiv w Hsized Hlen vals vty Hvty
              (fun b => b) (fun _ => 0)) as Hlenp.
pose proof (@posted_uniform P D total HP HD Hfit Hdiv w Hsized Hlen vals vty Hvty
              (fun b => b) (fun _ => 0)) as Hunif.
pose proof posted_vals_call as Hcall.
pose proof length_gathered as Hlg.
assert (exists q0, hd_error (concat posted) = Some q0) as [q0 Hhd].
{ destruct (concat posted) as [|q0 rest]; [|now exists q0].
  exfalso. unfold zlen in Hlenp. simpl in Hlenp. lia. }
assert (In q0 (concat posted)) as Hin0.
{ destruct (concat posted); [discriminate|]. injection Hhd as <-. now left. }
destruct (Hcall q0 Hin0) as (r0 & Hr0 & Hq0 & _).
assert (call_count q0 = s) as Hcount by (rewrite Hq0; reflexivity).
rewrite (@ncclAllGather_checked posted (concat posted) q0 Hranked Hhd).
- f_equal. rewrite Hcount.
  assert (gatheredShards (concat posted) s = gathered) as Hg.
  { unfold gatheredShards. rewrite Hby, map_map. f_equal.
    apply map_ext. intros r. unfold callOfRank, slice. cbn [call_sendoff call_buffer].
    f_equal. f_equal. lia. }
  rewrite Hg.
  apply map_ext_in. intros l Hl. apply map_ext_in. intros q Hq.
  assert (In q (concat posted)) as Hqin by (apply in_concat; eauto).
  destruct (Hcall q Hqin) as (r & Hr & Hqr & Hlq).
  assert (call_recvoff q = 0) as -> by (rewrite Hqr; reflexivity).
  unfold splice. simpl.
  rewrite skipn_all2 by lia. apply app_nil_r.
- now apply Hunif.
- rewrite Hcount, Hlenp. apply forallb_forall. intros q Hq.
  destruct (Hcall q Hq) as (r & Hr & -> & Hl). simpl in *.
  unfold zlen. rewrite Hl.
  assert (Z.of_nat r + 1 <= Z.of_nat (P * D)) by lia.
  rewrite !andb_true_iff. repeat split;
    first [apply Z.leb_le; nia | apply Z.eqb_eq; lia].
Qed.
End AllGatherOfJob.

(** C2: on a job whose buffer size the planner accepts, [allGatherParams]
    returns, and afterwards the parameter buffer of every device of every
    process is the concatenation, in ascending global-rank order, of the
    shards of all ranks, the shard of rank r being the elements of rank
    r's own shard range in rank r's buffer before the call; so the buffer
    is the same on any two devices of the job. *)
Theorem allGatherParams_concatenates
        (P D total : nat) (gty vty : Type_) (w : World) :
  jobOf P D total gty vty w ->
  exists w',
    allGatherParams w = Ok w' /\
    length w' = P /\
    (forall c, In c w ->
       shardSize c = Ok (ceil_div (Z.of_nat total) (Z.of_nat (P * D)))) /\
    (forall p c', nth_error w' p = Some c' ->
       length (graphs_ c') = D /\
       forall i g', nth_error (graphs_ c') i = Some g' ->
         data (vals g') =
           concat (map (fun r => slice (nth r (allVals w) [])
                                       (Z.of_nat r * ceil_div (Z.of_nat total) (Z.of_nat (P * D)))
                                       ((Z.of_nat r + 1)
                                          * ceil_div (Z.of_nat total) (Z.of_nat (P * D))))
                       (seq 0 (P * D)))) /\
    (forall p1 c1 i1 g1 p2 c2 i2 g2,
       nth_error w' p1 = Some c1 -> nth_error (graphs_ c1) i1 = Some g1 ->
       nth_error w' p2 = Some c2 -> nth_error (graphs_ c2) i2 = Some g2 ->
       data (vals g1) = data (vals g2)).
Proof.
  intros job.
  destruct (@job_parts P D total gty vty w job)
    as (HP & HD & Hfit & Hdiv & Hlen & Hsized & _ & Hvty).
  unfold allGatherParams.
  rewrite (@mapM_ok _ _ postAllGather
             (callsOf vals (fun b => b) (fun _ => 0)
                      (ceil_div (Z.of_nat total) (Z.of_nat (P * D)))) w).
  2:{ intros c Hc. apply In_nth_error in Hc. destruct Hc as [p Hp].
      apply (@postAllGather_ok P D total HP HD Hfit Hdiv p c (Hsized p c Hp)). }
  cbn [bind].
  rewrite (@ncclAllGather_ok P D total gty vty w job). cbn [bind].
  eexists. split; [reflexivity|].
  rewrite !map_map, combine_with_map, map_map. cbn [fst snd].
  split; [now rewrite length_map|].
  split.
  { intros c Hc. apply In_nth_error in Hc. destruct Hc as [p Hp].
    apply (@sized_shardSize P D total HP HD Hfit Hdiv p c (Hsized p c Hp)). }
  match goal with
  | |- ?A /\ _ => assert A as Hall
  end.
  { intros p c' Hp. rewrite nth_error_map in Hp.
    destruct (nth_error w p) as [c|] eqn:Ec; [|discriminate].
    simpl in Hp. injection Hp as <-.
    pose proof (Hsized p c Ec) as ([HlenD _] & _).
    unfold set_vals, callsOf. cbn [graphs_].
    split.
    - rewrite length_map, length_combine, !length_map, length_indices. lia.
    - intros i g' Hg.
      rewrite nth_error_map, nth_error_combine, !nth_error_map in Hg.
      destruct (nth_error (graphs_ c) i) as [g|] eqn:Eg; [|discriminate].
      assert (i < D)%nat as Hi by (rewrite <- HlenD; apply nth_error_Some; congruence).
      rewrite HlenD, nth_error_indices in Hg by exact Hi.
      simpl in Hg. injection Hg as <-. reflexivity. }
  split; [exact Hall|].
  intros p1 c1 i1 g1 p2 c2 i2 g2 H1 G1 H2 G2.
  destruct (Hall p1 c1 H1) as [_ E1]. destruct (Hall p2 c2 H2) as [_ E2].
  rewrite (E1 i1 g1 G1), (E2 i2 g2 G2). reflexivity.
Qed.

(** C2, at two processes of two devices under MPI, the device of global
    rank r holding 10r+1 .. 10r+4. *)
Lemma allGatherParams_concatenates_witness :
  exists w',
    allGatherParams rampWorld = Ok w' /\
    length w' = 2%nat /\
    (forall c, In c rampWorld ->
       shardSize c = Ok (ceil_div (Z.of_nat 4) (Z.of_nat (2 * 2)))) /\
    (forall p c', nth_error w' p = Some c' ->
       length (graphs_ c') = 2%nat /\
       forall i g', nth_error (graphs_ c') i = Some g' ->
         data (vals g') =
           concat (map (fun r => slice (nth r (allVals rampWorld) [])
                                       (Z.of_nat r * ceil_div (Z.of_nat 4) (Z.of_nat (2 * 2)))
                                       ((Z.of_nat r + 1)
                                          * ceil_div (Z.of_nat 4) (Z.of_nat (2 * 2))))
                       (seq 0 (2 * 2)))) /\
    (forall p1 c1 i1 g1 p2 c2 i2 g2,
       nth_error w' p1 = Some c1 -> nth_error (graphs_ c1) i1 = Some g1 ->
       nth_error w' p2 = Some c2 -> nth_error (graphs_ c2) i2 = Some g2 ->
       data (vals g1) = data (vals g2)).
Proof.
  apply (@allGatherParams_concatenates 2 2 4 float32 float32 rampWorld).
  split; [|split].
  - split; [reflexivity|].
    intros p c Hp. destruct p as [|[|p]]; simpl in Hp.
    + injection Hp as <-. split; [reflexivity|now left].
    + injection Hp as <-. split; [reflexivity|now left].
    + destruct p; discriminate.
  - split; [now right|]. split; [now right|].
    intros c g Hc Hg. simpl in Hc.
    destruct Hc as [<-|[<-|[]]]; simpl in Hg;
      destruct Hg as [<-|[<-|[]]]; repeat split; reflexivity.
  - repeat split; try lia; reflexivity.
Defined.

(** The same job evaluated: every device ends with [1; 12; 23; 34]. *)
Lemma allGatherParams_ramp :
  option_map allVals
    (match allGatherParams rampWorld with Ok w' => Some w' | _ => None end)
  = Some [ [1; 12; 23; 34]; [1; 12; 23; 34]; [1; 12; 23; 34]; [1; 12; 23; 34] ].
Proof. reflexivity. Qed.

(* ------------------------------------------------------------------ *)
(** ** The element type passed to the collectives *)

Lemma call_types_of (buf : ExpressionGraph -> Tensor) (sendoff recvoff : Z -> Z) (s : Z)
      (c : NCCLCommunicator) :
  map call_type (callsOf buf sendoff recvoff s c)
    = map (fun g => if Type_eqb (type (buf g)) float16 then ncclFloat16 else ncclFloat32)
          (graphs_ c).
Proof.
  unfold callsOf, indices. rewrite !map_map. cbn [call_type].
  rewrite <- (map_nth_positions (graphs_ c) emptyGraph) at 2.
  rewrite map_map. apply map_ext. intros k. now rewrite Nat2Z.id.
Qed.

(** C8 (as stated, refuted): two processes of two devices whose buffers
    are declared [float64], which is neither of the two types the
    collectives are called with.  Both loops of process 0 post their calls
    with [ncclFloat32], and neither operation ends in a fatal error. *)
Lemma unsupported_precision_counterexample :
  type (grads (constGraph float64 4 1)) = float64 /\
  type (vals (constGraph float64 4 1)) = float64 /\
  postReduceScatter (mkComm (repeat (constGraph float64 4 1) 2) (Some (mkMPI 0 2)))
    = Ok [ mkCall (mkNcclComm 4 0) [1; 1; 1; 1] 0 0 1 ncclFloat32;
           mkCall (mkNcclComm 4 1) [1; 1; 1; 1] 0 1 1 ncclFloat32 ] /\
  postAllGather (mkComm (repeat (constGraph float64 4 1) 2) (Some (mkMPI 0 2)))
    = Ok [ mkCall (mkNcclComm 4 0) [1; 1; 1; 1] 0 0 1 ncclFloat32;
           mkCall (mkNcclComm 4 1) [1; 1; 1; 1] 1 0 1 ncclFloat32 ] /\
  is_abort (scatterReduceAndResetGrads (fun _ => [0; 1]%nat) (mpiWorld float64 2 2 4 1))
    = false /\
  is_abort (allGatherParams (mpiWorld float64 2 2 4 1)) = false.
Proof.
  repeat split; reflexivity.
Qed.

(** C8 (amended): in both collectives the element type passed for a
    buffer is [ncclFloat16] when the buffer's declared type is [float16]
    and [ncclFloat32] for every other declared type; whatever the declared
    types, on a process of a job whose size the planner accepts both loops
    post their calls without a fatal error. *)
Theorem collective_element_type (P D total p : nat) (c : NCCLCommunicator) :
  (0 < P)%nat -> (0 < D)%nat ->
  Z.of_nat total + Z.of_nat (P * D) < SIZE_MODULUS ->
  Z.of_nat total mod Z.of_nat (P * D) = 0 ->
  sizedProcess P D total p c ->
  (exists calls,
     postReduceScatter c = Ok calls /\
     map call_type calls
       = map (fun g => if Type_eqb (type (grads g)) float16 then ncclFloat16 else ncclFloat32)
             (graphs_ c)) /\
  (exists calls,
     postAllGather c = Ok calls /\
     map call_type calls
       = map (fun g => if Type_eqb (type (vals g)) float16 then ncclFloat16 else ncclFloat32)
             (graphs_ c)).
Proof.
  intros HP HD Hfit Hdiv Hc. split.
  - eexists. split.
    + apply (@postReduceScatter_ok P D total HP HD Hfit Hdiv p c Hc).
    + apply call_types_of.
  - eexists. split.
    + apply (@postAllGather_ok P D total HP HD Hfit Hdiv p c Hc).
    + apply call_types_of.
Qed.

(** C8 (amended), at a process with one [float16] and one [float64]
    gradient buffer. *)
Lemma collective_element_type_witness :
  (exists calls,
     postReduceScatter (mkComm [constGraph float16 8 1; constGraph float64 8 1] None)
       = Ok calls /\
     map call_type calls
       = map (fun g => if Type_eqb (type (grads g)) float16 then ncclFloat16 else ncclFloat32)
             (graphs_ (mkComm [constGraph float16 8 1; constGraph float64 8 1] None))) /\
  (exists calls,
     postAllGather (mkComm [constGraph float16 8 1; constGraph float64 8 1] None)
       = Ok calls /\
     map call_type calls
       = map (fun g => if Type_eqb (type (vals g)) float16 then ncclFloat16 else ncclFloat32)
             (graphs_ (mkComm [constGraph float16 8 1; constGraph float64 8 1] None))).
Proof.
  apply (@collective_element_type 1 2 8 0
           (mkComm [constGraph float16 8 1; constGraph float64 8 1] None)).
  - lia.
  - lia.
  - reflexivity.
  - reflexivity.
  - split; [split; [reflexivity|right; auto]|].
    split; [lia|].
    intros g Hg. simpl in Hg. destruct Hg as [<-|[<-|[]]]; split; reflexivity.
Defined.

(* ================================================================== *)
(** * Further properties of the communicator *)

(* ------------------------------------------------------------------ *)
(** ** Global ranks *)

(** X1: in a job of P processes with D devices each (P*D within
    [size_t]), [myNcclRank] numbers the devices of the job by the ranks
    0 .. P*D-1 without gaps or repetitions: the rank of every local device
    lies below [numNcclRanks], which is P*D on every process; two devices
    with the same rank are the same device of the same process; and rank r
    is the device r mod D of the process r / D. *)
Theorem global_ranks_enumerate (P D : nat) (w : World) :
  worldOf P D w -> Z.of_nat (P * D) < SIZE_MODULUS ->
  (forall p c i, nth_error w p = Some c -> 0 <= i < Z.of_nat D ->
     numNcclRanks c = Z.of_nat (P * D) /\ 0 <= myNcclRank c i < numNcclRanks c) /\
  (forall p1 c1 i1 p2 c2 i2,
     nth_error w p1 = Some c1 -> nth_error w p2 = Some c2 ->
     0 <= i1 < Z.of_nat D -> 0 <= i2 < Z.of_nat D ->
     myNcclRank c1 i1 = myNcclRank c2 i2 -> p1 = p2 /\ i1 = i2) /\
  (forall r, 0 <= r < Z.of_nat (P * D) ->
     exists c, nth_error w (Z.to_nat (r / Z.of_nat D)) = Some c /\
               0 <= r mod Z.of_nat D < Z.of_nat D /\
               myNcclRank c (r mod Z.of_nat D) = r).
Proof.
  intros [Hlen Hw] Hfit.
  assert (forall p c, nth_error w p = Some c ->
            (p < P)%nat /\ numNcclRanks c = Z.of_nat (P * D) /\
            forall i, 0 <= i < Z.of_nat D -> myNcclRank c i = Z.of_nat (p * D) + i) as Hrank.
  { intros p c Hp.
    assert (p < P)%nat as HpP by (rewrite <- Hlen; apply nth_error_Some; congruence).
    split; [exact HpP|]. exact (process_ranks (Hw p c Hp) HpP Hfit). }
  split; [|split].
  - intros p c i Hp Hi. destruct (Hrank p c Hp) as (HpP & Hnum & Hmy).
    split; [exact Hnum|]. rewrite Hnum, Hmy by exact Hi. nia.
  - intros p1 c1 i1 p2 c2 i2 H1 H2 Hi1 Hi2 E.
    destruct (Hrank p1 c1 H1) as (_ & _ & Hmy1).
    destruct (Hrank p2 c2 H2) as (_ & _ & Hmy2).
    rewrite Hmy1, Hmy2 in E by assumption.
    assert (p1 = p2) as -> by nia. split; [reflexivity|lia].
  - intros r Hr.
    assert (0 < Z.of_nat D) as HD by nia.
    pose proof (Z.div_mod r (Z.of_nat D) ltac:(lia)) as Hdm.
    pose proof (Z.mod_pos_bound r (Z.of_nat D) HD) as Hrem.
    assert (0 <= r / Z.of_nat D) as Hq by (apply Z.div_pos; lia).
    assert (r / Z.of_nat D < Z.of_nat P) as HqP by nia.
    destruct (nth_error w (Z.to_nat (r / Z.of_nat D))) as [c|] eqn:Ec.
    + exists c. split; [reflexivity|]. split; [exact Hrem|].
      destruct (Hrank _ c Ec) as (_ & _ & Hmy). rewrite Hmy by exact Hrem. nia.
    + apply nth_error_None in Ec. lia.
Qed.

(** X1, at two processes of two devices under MPI. *)
Lemma global_ranks_enumerate_witness :
  (forall p c i, nth_error (mpiWorld float32 2 2 4 0) p = Some c -> 0 <= i < Z.of_nat 2 ->
     numNcclRanks c = Z.of_nat (2 * 2) /\ 0 <= myNcclRank c i < numNcclRanks c) /\
  (forall p1 c1 i1 p2 c2 i2,
     nth_error (mpiWorld float32 2 2 4 0) p1 = Some c1 ->
     nth_error (mpiWorld float32 2 2 4 0) p2 = Some c2 ->
     0 <= i1 < Z.of_nat 2 -> 0 <= i2 < Z.of_nat 2 ->
     myNcclRank c1 i1 = myNcclRank c2 i2 -> p1 = p2 /\ i1 = i2) /\
  (forall r, 0 <= r < Z.of_nat (2 * 2) ->
     exists c, nth_error (mpiWorld float32 2 2 4 0) (Z.to_nat (r / Z.of_nat 2)) = Some c /\
               0 <= r mod Z.of_nat 2 < Z.of_nat 2 /\
               myNcclRank c (r mod Z.of_nat 2) = r).
Proof.
  apply (@global_ranks_enumerate 2 2 (mpiWorld float32 2 2 4 0)).
  - apply mpiWorld_worldOf.
  - reflexivity.
Defined.

(* ------------------------------------------------------------------ *)
(** ** What the planner returns *)

Lemma numNcclRanks_nonneg (c : NCCLCommunicator) : 0 <= numNcclRanks c.
Proof.
  unfold numNcclRanks, size_mul, to_size_t, devices_size.
  destruct (mpi_ c).
  - apply Z.mod_pos_bound. reflexivity.
  - apply zlen_nonneg.
Qed.

Lemma to_size_t_range (z : Z) : 0 <= to_size_t z < SIZE_MODULUS.
Proof. unfold to_size_t. apply Z.mod_pos_bound. reflexivity. Qed.

(** X2: whenever [shardSize] returns, for any communicator and without any
    assumption on the sizes, the shard size times [numNcclRanks] is
    [dataSize] exactly (no wrap-around is involved), and for every rank
    below [numNcclRanks] the planner's range is
    [rank*shardSize, rank*shardSize + shardSize): the clipping of the end
    to [dataSize] never takes effect. *)
Theorem shardSize_returns_exact (c : NCCLCommunicator) (s : Z) :
  shardSize c = Ok s ->
  exists total,
    dataSize c = Ok total /\ 0 < numNcclRanks c /\ 0 <= s /\
    s * numNcclRanks c = total /\
    forall rank, 0 <= rank < numNcclRanks c ->
      ncclRankShardRange c rank = Ok (rank * s, rank * s + s) /\
      rank * s + s <= total.
Proof.
  intros Hs. pose proof Hs as Hs'. unfold shardSize in Hs.
  destruct (dataSize c) as [total| | |] eqn:Hd; try discriminate.
  cbn [bind] in Hs.
  pose proof (numNcclRanks_nonneg c) as HN0.
  destruct (numNcclRanks c =? 0) eqn:EN; [discriminate|].
  apply Z.eqb_neq in EN.
  set (N := numNcclRanks c) in *.
  set (x := size_sub (size_add total N) 1) in *.
  assert (0 <= x < SIZE_MODULUS) as Hx by apply to_size_t_range.
  assert (0 < N) as HN by lia.
  assert (0 <= x / N) as Hq by (apply Z.div_pos; lia).
  pose proof (Z.mul_div_le x N HN) as Hle.
  rewrite size_mul_small in Hs by nia.
  unfold ABORT_IF in Hs.
  destruct (x / N * N =? total) eqn:E; [|discriminate].
  apply Z.eqb_eq in E. cbn in Hs. injection Hs as <-.
  exists total. split; [reflexivity|]. split; [exact HN|]. split; [exact Hq|].
  split; [exact E|].
  intros rank Hr.
  assert (rank * (x / N) + x / N <= total) as Hin by nia.
  split; [|exact Hin].
  unfold ncclRankShardRange. rewrite Hs', Hd. cbn [bind].
  rewrite size_mul_small by nia.
  rewrite size_add_small by nia.
  now rewrite Z.min_l by lia.
Qed.

(** X2, at three devices with twelve elements each. *)
Lemma shardSize_returns_exact_witness :
  exists total,
    dataSize (blankComm float32 3 12 None) = Ok total /\
    0 < numNcclRanks (blankComm float32 3 12 None) /\ 0 <= 4 /\
    4 * numNcclRanks (blankComm float32 3 12 None) = total /\
    forall rank, 0 <= rank < numNcclRanks (blankComm float32 3 12 None) ->
      ncclRankShardRange (blankComm float32 3 12 None) rank = Ok (rank * 4, rank * 4 + 4) /\
      rank * 4 + 4 <= total.
Proof.
  apply (@shardSize_returns_exact (blankComm float32 3 12 None) 4). reflexivity.
Defined.

(* ------------------------------------------------------------------ *)
(** ** A job whose size the planner rejects *)

Lemma indices_cons (n : nat) : indices (S n) = 0 :: map Z.of_nat (seq 1 n).
Proof. reflexivity. Qed.

(** Every process of a job with an uneven size fails in the planner. *)
Lemma uneven_process (P D total : nat) (w : World) (c : NCCLCommunicator) :
  worldOf P D w -> (0 < D)%nat ->
  (forall c g, In c w -> In g (graphs_ c) -> length (data (vals g)) = total) ->
  Z.of_nat total + Z.of_nat (P * D) < SIZE_MODULUS ->
  Z.of_nat total mod Z.of_nat (P * D) <> 0 ->
  In c w ->
  (exists d, length (graphs_ c) = S d) /\
  forall i, localShardRange c i = Abort "presently, all shards must have the same size".
Proof.
  intros Hw HD Hbuf Hfit Hdiv Hc.
  destruct (@worldOf_position P D w c Hw Hc) as (p & HpP & Hp & Hproc).
  pose proof Hproc as [HlenD _].
  destruct (@process_ranks P D p c Hproc HpP ltac:(lia)) as [Hnum _].
  assert (dataSize c = Ok (Z.of_nat total)) as Hd.
  { unfold dataSize. destruct (graphs_ c) as [|g gs] eqn:Eg; [simpl in HlenD; lia|].
    unfold size, zlen. rewrite (Hbuf c g Hc); [reflexivity|]. rewrite Eg. now left. }
  split.
  - exists (D - 1)%nat. lia.
  - intros i. unfold localShardRange, ncclRankShardRange.
    rewrite (@shardSize_uneven c (Z.of_nat total) (Z.of_nat (P * D))); try assumption.
    + reflexivity.
    + nia.
    + lia.
Qed.

(** X3: in a job whose buffer size is not a multiple of the number of
    ranks, the constructor having checked nothing, every operation that
    consults the planner ends in the fatal error of [shardSize]:
    [scatterReduceAndResetGrads], [allGatherParams], and [foreach] with any
    per-device function, in either mode; the function is not invoked and no
    call is posted. *)
Theorem uneven_job_operations_abort
        (P D total : nat) (w : World) (schedules : nat -> list nat) :
  worldOf P D w -> (0 < P)%nat -> (0 < D)%nat ->
  (forall c g, In c w -> In g (graphs_ c) -> length (data (vals g)) = total) ->
  Z.of_nat total + Z.of_nat (P * D) < SIZE_MODULUS ->
  Z.of_nat total mod Z.of_nat (P * D) <> 0 ->
  scatterReduceAndResetGrads schedules w
    = Abort "presently, all shards must have the same size" /\
  allGatherParams w = Abort "presently, all shards must have the same size" /\
  (forall c, In c w ->
     postReduceScatter c = Abort "presently, all shards must have the same size" /\
     postAllGather c = Abort "presently, all shards must have the same size" /\
     forall (St : Type) (func : ForeachFunc bool St) (parallel : bool)
            (schedule : list nat) (st : St),
       foreach c func parallel schedule st
         = Abort "presently, all shards must have the same size").
Proof.
  intros Hw HP HD Hbuf Hfit Hdiv.
  assert (forall c, In c w ->
     postReduceScatter c = Abort "presently, all shards must have the same size" /\
     postAllGather c = Abort "presently, all shards must have the same size" /\
     forall (St : Type) (func : ForeachFunc bool St) (parallel : bool)
            (schedule : list nat) (st : St),
       foreach c func parallel schedule st
         = Abort "presently, all shards must have the same size") as Hall.
  { intros c Hc.
    destruct (@uneven_process P D total w c Hw HD Hbuf Hfit Hdiv Hc) as ([d Hd] & Hplan).
    split; [|split].
    - unfold postReduceScatter. rewrite Hd, indices_cons. cbn [mapM].
      now rewrite Hplan.
    - unfold postAllGather. rewrite Hd, indices_cons. cbn [mapM].
      now rewrite Hplan.
    - intros St func parallel schedule st. unfold foreach, foreachAcc.
      rewrite Hd, indices_cons. cbn [foreach_dispatch].
      now rewrite Hplan. }
  destruct Hw as [Hlen Hw'].
  destruct w as [|c0 rest]; [simpl in Hlen; lia|].
  destruct (Hall c0 (or_introl eq_refl)) as (Hrs & Hag & _).
  split; [|split; [|exact Hall]].
  - unfold scatterReduceAndResetGrads. cbn [mapM]. now rewrite Hrs.
  - unfold allGatherParams. cbn [mapM]. now rewrite Hag.
Qed.

(** X3, at one process of three devices with ten elements each. *)
Lemma uneven_job_operations_abort_witness :
  scatterReduceAndResetGrads (fun _ => [0; 1; 2]%nat) (soloWorld float32 3 10 1)
    = Abort "presently, all shards must have the same size" /\
  allGatherParams (soloWorld float32 3 10 1)
    = Abort "presently, all shards must have the same size" /\
  (forall c, In c (soloWorld float32 3 10 1) ->
     postReduceScatter c = Abort "presently, all shards must have the same size" /\
     postAllGather c = Abort "presently, all shards must have the same size" /\
     forall (St : Type) (func : ForeachFunc bool St) (parallel : bool)
            (schedule : list nat) (st : St),
       foreach c func parallel schedule st
         = Abort "presently, all shards must have the same size").
Proof.
  apply (@uneven_job_operations_abort 1 3 10 (soloWorld float32 3 10 1)
           (fun _ => [0; 1; 2]%nat)).
  - apply soloWorld_worldOf.
  - lia.
  - lia.
  - intros c g [<-|[]] Hg. simpl in Hg.
    destruct Hg as [<-|[<-|[<-|[]]]]; reflexivity.
  - reflexivity.
  - discriminate.
Defined.

(* ------------------------------------------------------------------ *)
(** ** The signal guard, for any previous masks *)

Lemma sigismember_added (mask : sigset_t) (signal : Z) :
  sigismember (Z.lor mask (sigaddset sigemptyset SIG_BAD)) signal
    = sigismember mask signal || (signal =? SIG_BAD).
Proof.
  unfold sigismember, sigaddset, sigemptyset, SIG_BAD.
  rewrite Z.lor_spec, Z.lor_0_l, Z.shiftl_1_l. f_equal.
  rewrite Z.pow2_bits_eqb by lia.
  destruct (Z.eqb_spec (27 - 1) (signal - 1)), (Z.eqb_spec signal 27); lia || reflexivity.
Qed.

(** X4: whatever the two masks were before, a signal is blocked while the
    NCCL set-up runs, and still once the two guards of the constructor
    have been destroyed, exactly when it was blocked before or it is
    SIGPROF (27): the scope adds SIGPROF to the thread mask and to the
    process mask, and neither removes a signal nor takes SIGPROF out
    again. *)
Theorem BlockSignal_scope_only_adds (st : SignalState) (signal : Z) :
  sigismember (threadMask (masksDuringInit sigprocmask st)) signal
    = sigismember (threadMask st) signal || (signal =? SIG_BAD) /\
  sigismember (procMask (masksDuringInit sigprocmask st)) signal
    = sigismember (procMask st) signal || (signal =? SIG_BAD) /\
  exists st',
    guardedInit sigprocmask (Ok tt) st = Ok st' /\
    sigismember (threadMask st') signal
      = sigismember (threadMask st) signal || (signal =? SIG_BAD) /\
    sigismember (procMask st') signal
      = sigismember (procMask st) signal || (signal =? SIG_BAD).
Proof.
  split; [|split].
  - unfold masksDuringInit, BlockSignal_ctor. cbv zeta.
    cbn [snd fst pthread_sigmask sigprocmask threadMask procMask change_mask].
    apply sigismember_added.
  - unfold masksDuringInit, BlockSignal_ctor. cbv zeta.
    cbn [snd fst pthread_sigmask sigprocmask threadMask procMask change_mask].
    apply sigismember_added.
  - eexists. split; [apply guardedInit_masks|].
    cbn [threadMask procMask]. split; apply sigismember_added.
Qed.

(* ------------------------------------------------------------------ *)
(** ** [scatterState] where the last shard begins outside the buffer *)

(** X5: in a job of N = P*D ranks, when the shard of the last rank would
    begin past the end of the buffer, that is size < (N-1) * ceil(size/N),
    [scatterState] still returns on every process: it clips the end of a
    range to the size but not its begin, so the setter of the last device
    is called with the begin (N-1) * ceil(size/N) and the end size, an end
    before the begin; that device keeps no bytes, and scattering followed
    by gathering yields the buffer on every process. *)
Theorem scatterState_begin_outside (P D : nat) (w : World) (B : Item) :
  worldOf P D w -> (0 < P)%nat -> (0 < D)%nat ->
  Item_size B + Z.of_nat (P * D) < SIZE_MODULUS ->
  Item_size B < (Z.of_nat (P * D) - 1) * ceil_div (Item_size B) (Z.of_nat (P * D)) ->
  exists ranges stores,
    scatterRanges w B = Ok ranges /\
    length ranges = (P * D)%nat /\
    nth (P * D - 1) ranges (0, 0)
      = ((Z.of_nat (P * D) - 1) * ceil_div (Item_size B) (Z.of_nat (P * D)), Item_size B) /\
    scatterAll w B = Ok stores /\
    getShard (nth (P - 1) stores []) (Z.of_nat D - 1) = emptyItem /\
    scatterThenGather w B = Ok (repeat B P).
Proof.
  intros Hw HP HD Hfit Hout.
  pose proof (zlen_nonneg (bytes B)) as H0. fold (Item_size B) in H0.
  assert (0 < Z.of_nat (P * D)) as HN by nia.
  pose proof (ceil_div_bounds HN H0) as [Hb Hq].
  do 2 eexists.
  split; [apply (@scatterRanges_ok P D w B Hw HD Hfit)|].
  split; [now rewrite length_map, length_seq|].
  split.
  { rewrite (nth_error_nth _ _ _ (x := ((Z.of_nat (P * D) - 1)
                                          * ceil_div (Item_size B) (Z.of_nat (P * D)),
                                        Item_size B))); [reflexivity|].
    rewrite nth_error_map, nth_error_seq.
    assert ((P * D - 1 <? P * D)%nat = true) as -> by (apply Nat.ltb_lt; nia).
    cbn [option_map Nat.add]. f_equal. f_equal.
    - f_equal. nia.
    - replace (Z.of_nat (P * D - 1) + 1) with (Z.of_nat (P * D)) by nia.
      apply Z.min_r. nia. }
  split; [apply (@scatterAll_ok P D w B Hw HP HD Hfit)|].
  split; [|apply (@scatterThenGather_ok P D w B Hw HP HD Hfit)].
  destruct Hw as [Hlen Hw].
  destruct (nth_error w (P - 1)) as [c|] eqn:Ec;
    [|apply nth_error_None in Ec; lia].
  pose proof (Hw _ c Ec) as Hproc.
  destruct (@process_ranks P D (P - 1) c Hproc ltac:(lia) ltac:(lia)) as [_ Hrank].
  rewrite (nth_error_nth _ _ _ (x := scatteredShards B (P * D) D c))
    by (now rewrite nth_error_map, Ec).
  unfold scatteredShards. rewrite getShard_map by lia.
  rewrite Hrank by lia.
  rewrite slice_inverted; [reflexivity|].
  replace (Z.of_nat ((P - 1) * D) + (Z.of_nat D - 1)) with (Z.of_nat (P * D) - 1) by nia.
  lia.
Qed.

(** X5, at one process of three devices and one byte: the setter is called
    with the ranges (0,1), (1,1) and (2,1). *)
Lemma scatterState_begin_outside_witness :
  scatterRanges (soloWorld float32 3 3 0) (mkItem [Byte.x2a]) = Ok [(0, 1); (1, 1); (2, 1)] /\
  exists ranges stores,
    scatterRanges (soloWorld float32 3 3 0) (mkItem [Byte.x2a]) = Ok ranges /\
    length ranges = (1 * 3)%nat /\
    nth (1 * 3 - 1) ranges (0, 0)
      = ((Z.of_nat (1 * 3) - 1) * ceil_div (Item_size (mkItem [Byte.x2a])) (Z.of_nat (1 * 3)),
         Item_size (mkItem [Byte.x2a])) /\
    scatterAll (soloWorld float32 3 3 0) (mkItem [Byte.x2a]) = Ok stores /\
    getShard (nth (1 - 1) stores []) (Z.of_nat 3 - 1) = emptyItem /\
    scatterThenGather (soloWorld float32 3 3 0) (mkItem [Byte.x2a])
      = Ok (repeat (mkItem [Byte.x2a]) 1).
Proof.
  split; [reflexivity|].
  apply (@scatterState_begin_outside 1 3 (soloWorld float32 3 3 0) (mkItem [Byte.x2a])).
  - apply soloWorld_worldOf.
  - lia.
  - lia.
  - reflexivity.
  - reflexivity.
Defined.

(* ------------------------------------------------------------------ *)
(** ** [scatterState] and the planner *)

(** X6: in a job whose size the planner accepts, a buffer of as many bytes
    as the device buffers have elements is cut by [scatterState] exactly
    as the planner cuts the device buffers: the range passed to the setter
    for global rank r is the range [ncclRankShardRange] returns for r, on
    every process. *)
Theorem scatterState_agrees_with_planner
        (P D total : nat) (gty vty : Type_) (w : World) (B : Item) :
  jobOf P D total gty vty w -> Item_size B = Z.of_nat total ->
  exists ranges,
    scatterRanges w B = Ok ranges /\
    length ranges = (P * D)%nat /\
    forall c r, In c w -> (r < P * D)%nat ->
      ncclRankShardRange c (Z.of_nat r) = Ok (nth r ranges (0, 0)).
Proof.
  intros job Hsize.
  destruct (@job_parts P D total gty vty w job)
    as (HP & HD & Hfit & Hdiv & Hlen & Hsized & _).
  destruct (@job_arith P D total HP HD Hfit Hdiv) as (HN & HNfit & Hs & Hex).
  pose proof job as (Hworld & _).
  eexists. split.
  - apply (@scatterRanges_ok P D w B Hworld HD); rewrite Hsize; exact Hfit.
  - split; [now rewrite length_map, length_seq|].
    intros c r Hc Hr.
    apply In_nth_error in Hc. destruct Hc as [p Hp].
    pose proof (Hsized p c Hp) as Hcs.
    rewrite (@ncclRankShardRange_even c (Z.of_nat total) (Z.of_nat (P * D)));
      try assumption; try lia.
    + f_equal. symmetry. rewrite Hsize.
      apply nth_error_nth. rewrite nth_error_map, nth_error_seq.
      apply Nat.ltb_lt in Hr. rewrite Hr. reflexivity.
    + apply (@sized_dataSize P D total HP HD Hfit Hdiv p c Hcs).
    + apply (@sized_numNcclRanks P D total HP HD Hfit Hdiv p c Hcs).
Qed.

(** X6, at two processes of two devices under MPI and eight bytes. *)
Lemma scatterState_agrees_with_planner_witness :
  exists ranges,
    scatterRanges (mpiWorld float32 2 2 8 1) (mkItem (repeat Byte.x2a 8)) = Ok ranges /\
    length ranges = (2 * 2)%nat /\
    forall c r, In c (mpiWorld float32 2 2 8 1) -> (r < 2 * 2)%nat ->
      ncclRankShardRange c (Z.of_nat r) = Ok (nth r ranges (0, 0)).
Proof.
  apply (@scatterState_agrees_with_planner 2 2 8 float32 float32
           (mpiWorld float32 2 2 8 1) (mkItem (repeat Byte.x2a 8))).
  - apply mpiWorld_jobOf; [now right | lia | lia | reflexivity | reflexivity].
  - reflexivity.
Defined.

(* ------------------------------------------------------------------ *)
(** ** [gatherState] over any shards *)

Lemma bytes_localData_store (c : NCCLCommunicator) (st : list Item) :
  (0 < length (graphs_ c))%nat -> length st = length (graphs_ c) ->
  bytes (localData c (getShard st)) = concat (map bytes st).
Proof.
  intros Hn Hl. rewrite bytes_localData by exact Hn. f_equal.
  rewrite <- Hl. unfold indices, getShard. rewrite map_map.
  rewrite <- (map_nth_positions st emptyItem) at 2.
  rewrite map_map. apply map_ext. intros r. now rewrite Nat2Z.id.
Qed.

Lemma map_combine_snd {A B C : Type} (g : A * B -> C) (h : B -> C) (l : list A) :
  forall l', length l = length l' ->
  (forall a b, In (a, b) (combine l l') -> g (a, b) = h b) ->
  map g (combine l l') = map h l'.
Proof.
  induction l as [|a l IH]; intros [|b l'] Hlen H; simpl in *; try lia; [reflexivity|].
  f_equal.
  - apply H. now left.
  - apply IH; [lia|]. intros a' b' Hin. apply H. now right.
Qed.

Lemma concat_concat_map {A B : Type} (f : A -> list B) (ll : list (list A)) :
  concat (map (fun l => concat (map f l)) ll) = concat (map f (concat ll)).
Proof.
  induction ll as [|l ll IH]; simpl; [reflexivity|].
  now rewrite map_app, concat_app, IH.
Qed.

Lemma length_concat_bytes (l : list Item) :
  zlen (concat (map bytes l)) = Zsum (map Item_size l).
Proof.
  unfold zlen. induction l as [|a l IH]; simpl; [reflexivity|].
  rewrite length_app, Nat2Z.inj_add, IH. reflexivity.
Qed.

(** X7: whatever items the devices of a job hold (one per device), with or
    without MPI, [gatherState] returns on every process the same item: the
    items of all devices of all processes appended in ascending global
    rank order (process by process, device by device); its size is the sum
    of their sizes. *)
Theorem gatherState_concatenates (P D : nat) (w : World) (stores : list (list Item)) :
  worldOf P D w -> (0 < P)%nat -> (0 < D)%nat ->
  length stores = P -> (forall st, In st stores -> length st = D) ->
  gatherAll w stores = repeat (mkItem (concat (map bytes (concat stores)))) P /\
  forall it, In it (gatherAll w stores) ->
             Item_size it = Zsum (map Item_size (concat stores)).
Proof.
  intros [Hlen Hw] HP HD Hstores HlenD.
  match goal with |- ?A /\ _ => assert A as Hmain end.
  2:{ split; [exact Hmain|]. intros it Hit. rewrite Hmain in Hit.
      apply repeat_spec in Hit. subst it. apply length_concat_bytes. }
  unfold gatherAll.
  set (locals := map (fun cs : NCCLCommunicator * list Item =>
                        localData (fst cs) (getShard (snd cs))) (combine w stores)).
  assert (length (combine w stores) = P) as Hcomb by (rewrite length_combine; lia).
  assert (length locals = P) as Hlocals by (unfold locals; now rewrite length_map).
  assert (forall p c st, nth_error (combine w stores) p = Some (c, st) ->
            (p < P)%nat /\ processOf P D p c /\ length st = D) as Hpos.
  { intros p c st Hp. rewrite nth_error_combine in Hp.
    destruct (nth_error w p) as [c'|] eqn:Ec; [|discriminate].
    destruct (nth_error stores p) as [st'|] eqn:Es; [|discriminate].
    injection Hp as <- <-.
    split; [rewrite <- Hlen; apply nth_error_Some; congruence|].
    split; [now apply Hw|]. apply HlenD. eapply nth_error_In; eauto. }
  assert (concat (map bytes locals) = concat (map bytes (concat stores))) as Hcat.
  { unfold locals. rewrite map_map, <- concat_concat_map. f_equal.
    apply map_combine_snd; [lia|].
    intros c st Hin. apply In_nth_error in Hin. destruct Hin as [p Hp].
    destruct (Hpos p c st Hp) as (_ & [HlenG _] & Hst). cbn [fst snd].
    apply bytes_localData_store; lia. }
  rewrite <- Hcomb, <- map_const.
  apply map_ext_in. intros [c st] Hin. cbn [fst snd].
  apply In_nth_error in Hin. destruct Hin as [p Hp].
  destruct (Hpos p c st Hp) as (HpP & [HlenG Hmpi] & Hst).
  assert (localData c (getShard st) = nth p locals emptyItem) as Hmine.
  { symmetry. apply nth_error_nth. unfold locals. rewrite nth_error_map, Hp. reflexivity. }
  apply Item_bytes_inj. cbn [bytes]. rewrite <- Hcat.
  destruct Hmpi as [Hmpi | (Hmpi & HP1 & Hp0)].
  - unfold gatherState. rewrite Hmpi. cbn [myMPIRank numMPIProcesses].
    rewrite Nat2Z.id.
    rewrite (@gatherState_rounds _ locals).
    + rewrite <- Hlocals. now rewrite firstn_all.
    + intros r Hr. now rewrite Nat2Z.id.
    + intros _. now rewrite Nat2Z.id.
    + lia.
  - unfold gatherState. rewrite Hmpi, Hmine. subst p.
    destruct locals as [|x [|y locals']]; simpl in Hlocals; try lia.
    simpl. now rewrite app_nil_r.
Qed.

(** X7, at two processes of two devices under MPI. *)
Lemma gatherState_concatenates_witness :
  let stores := [ [mkItem [Byte.x61]; mkItem [Byte.x62; Byte.x63]];
                  [mkItem []; mkItem [Byte.x64]] ] in
  gatherAll (mpiWorld float32 2 2 4 0) stores
    = repeat (mkItem (concat (map bytes (concat stores)))) 2 /\
  forall it, In it (gatherAll (mpiWorld float32 2 2 4 0) stores) ->
             Item_size it = Zsum (map Item_size (concat stores)).
Proof.
  intro stores.
  apply (@gatherState_concatenates 2 2 (mpiWorld float32 2 2 4 0) stores).
  - apply mpiWorld_worldOf.
  - lia.
  - lia.
  - reflexivity.
  - intros st [<-|[<-|[]]]; reflexivity.
Defined.

(* ------------------------------------------------------------------ *)
(** ** [resetGrads] *)

Lemma zeroOutside_idempotent (b e : Z) (d : list Z) :
  0 <= b <= e -> e <= zlen d -> zlen d < SIZE_MODULUS ->
  zeroOutside b e (zeroOutside b e d) = zeroOutside b e d.
Proof.
  intros Hbe He Hfit.
  pose proof (@length_zeroOutside b e d Hbe He Hfit) as Hlen.
  assert (zlen (zeroOutside b e d) = zlen d) as Hz by (unfold zlen; now rewrite Hlen).
  apply nth_ext with (d := 0) (d' := 0).
  - rewrite length_zeroOutside; rewrite ?Hz; auto.
  - intros k Hk. rewrite length_zeroOutside in Hk by (rewrite ?Hz; auto).
    rewrite nth_zeroOutside by (rewrite ?Hz; auto).
    rewrite Hlen in Hk.
    rewrite (@nth_zeroOutside b e d k) by auto.
    now destruct ((b <=? Z.of_nat k) && (Z.of_nat k <? e)).
Qed.

(** X8: called for device j with a range [begin, end) inside the gradient
    buffer, [resetGrads] returns [true] and changes nothing but the
    gradient buffer of device j, whose elements outside the range become
    zero while those inside, its length and its type stay; the parameter
    buffer of device j and the graphs of the other devices are untouched;
    and calling it again with the same range changes nothing more. *)
Theorem resetGrads_zeroes_outside_only
        (graphs : list ExpressionGraph) (j : nat) (g : ExpressionGraph) (b e : Z) :
  nth_error graphs j = Some g ->
  0 <= b <= e -> e <= size (grads g) -> size (grads g) < SIZE_MODULUS ->
  exists graphs' g',
    resetGrads (Z.of_nat j) b e graphs = Ok (true, graphs') /\
    length graphs' = length graphs /\
    nth_error graphs' j = Some g' /\
    (forall k, k <> j -> nth_error graphs' k = nth_error graphs k) /\
    vals g' = vals g /\ type (grads g') = type (grads g) /\
    length (data (grads g')) = length (data (grads g)) /\
    (forall k, (k < length (data (grads g)))%nat ->
       nth k (data (grads g')) 0 =
         if (b <=? Z.of_nat k) && (Z.of_nat k <? e) then nth k (data (grads g)) 0 else 0) /\
    resetGrads (Z.of_nat j) b e graphs' = Ok (true, graphs').
Proof.
  intros Hj Hbe He Hfit. unfold size in He, Hfit.
  assert (j < length graphs)%nat as Hjl by (apply nth_error_Some; congruence).
  set (g' := mkGraph (mkTensor (type (grads g)) (zeroOutside b e (data (grads g)))) (vals g)).
  set (graphs' := firstn j graphs ++ g' :: skipn (S j) graphs).
  assert (forall k, nth_error graphs' k = if (k =? j)%nat then Some g' else nth_error graphs k)
    as Hnth by (intros k; now apply nth_error_update).
  assert (length graphs' = length graphs) as Hlen.
  { unfold graphs'. rewrite length_app. cbn [length].
    rewrite length_firstn, length_skipn. lia. }
  assert (nth_error graphs' j = Some g') as Hj' by (now rewrite Hnth, Nat.eqb_refl).
  exists graphs', g'.
  split; [now apply resetGrads_ok|].
  split; [exact Hlen|]. split; [exact Hj'|].
  split.
  { intros k Hk. rewrite Hnth. apply Nat.eqb_neq in Hk. now rewrite Hk. }
  split; [reflexivity|]. split; [reflexivity|].
  split; [now apply length_zeroOutside|].
  split; [intros k Hk; now apply nth_zeroOutside|].
  assert (zlen (data (grads g')) = zlen (data (grads g))) as Hz.
  { unfold zlen. cbn [g' grads data]. now rewrite length_zeroOutside. }
  rewrite (@resetGrads_ok graphs' j g' b e Hj' Hbe) by (rewrite Hz; assumption).
  f_equal. f_equal.
  apply nth_error_ext. intros k.
  rewrite nth_error_update by lia. rewrite Hnth.
  destruct (k =? j)%nat; [|reflexivity].
  f_equal. cbn [g' grads data type vals].
  now rewrite zeroOutside_idempotent.
Qed.

(** X8, at the second of two devices, with the range [1, 3) of four
    elements. *)
Lemma resetGrads_zeroes_outside_only_witness :
  exists graphs' g',
    resetGrads (Z.of_nat 1) 1 3 [rampGraph 0; rampGraph 1] = Ok (true, graphs') /\
    length graphs' = length [rampGraph 0; rampGraph 1] /\
    nth_error graphs' 1 = Some g' /\
    (forall k, k <> 1%nat -> nth_error graphs' k = nth_error [rampGraph 0; rampGraph 1] k) /\
    vals g' = vals (rampGraph 1) /\ type (grads g') = type (grads (rampGraph 1)) /\
    length (data (grads g')) = length (data (grads (rampGraph 1))) /\
    (forall k, (k < length (data (grads (rampGraph 1))))%nat ->
       nth k (data (grads g')) 0 =
         if (1 <=? Z.of_nat k) && (Z.of_nat k <? 3)
         then nth k (data (grads (rampGraph 1))) 0 else 0) /\
    resetGrads (Z.of_nat 1) 1 3 graphs' = Ok (true, graphs').
Proof.
  apply (@resetGrads_zeroes_outside_only [rampGraph 0; rampGraph 1] 1 (rampGraph 1) 1 3).
  - reflexivity.
  - lia.
  - vm_compute. discriminate.
  - reflexivity.
Defined.

(* ------------------------------------------------------------------ *)
(** ** What [scatterReduceAndResetGrads] leaves of a job *)

(** The gradient buffer of the device of global rank [r] after the call:
    the reduced shard written at the device's own range, zero elsewhere. *)
Lemma scatterReduce_closed_form
      (P D total : nat) (gty vty : Type_) (w : World) (schedules : nat -> list nat) :
  jobOf P D total gty vty w ->
  (forall p, (p < P)%nat -> Permutation (schedules p) (seq 0 D)) ->
  exists w',
    scatterReduceAndResetGrads schedules w = Ok w' /\
    length w' = P /\
    forall p c, nth_error w p = Some c ->
      exists c', nth_error w' p = Some c' /\ mpi_ c' = mpi_ c /\
        length (graphs_ c') = D /\
        forall j, nth_error (graphs_ c') j =
          option_map
            (fun g => mkGraph
               (mkTensor (type (grads g))
                  (zeroOutside
                     ((Z.of_nat (p * D) + Z.of_nat j)
                        * ceil_div (Z.of_nat total) (Z.of_nat (P * D)))
                     ((Z.of_nat (p * D) + Z.of_nat j + 1)
                        * ceil_div (Z.of_nat total) (Z.of_nat (P * D)))
                     (splice (data (grads g))
                        ((Z.of_nat (p * D) + Z.of_nat j)
                           * ceil_div (Z.of_nat total) (Z.of_nat (P * D)))
                        (map (fun j0 => sumAt (allGrads w)
                                (Z.to_nat ((Z.of_nat (p * D) + Z.of_nat j)
                                             * ceil_div (Z.of_nat total) (Z.of_nat (P * D))
                                           + j0)))
                             (indices (Z.to_nat
                                (ceil_div (Z.of_nat total) (Z.of_nat (P * D)))))))))
               (vals g))
            (nth_error (graphs_ c) j).
Proof.
  intros job Hsched.
  destruct (@job_parts P D total gty vty w job)
    as (HP & HD & Hfit & Hdiv & Hlen & Hsized & Hgty & _).
  unfold scatterReduceAndResetGrads.
  rewrite (@mapM_ok _ _ postReduceScatter
             (callsOf grads (fun _ => 0) (fun b => b)
                      (ceil_div (Z.of_nat total) (Z.of_nat (P * D)))) w).
  2:{ intros c Hc. apply In_nth_error in Hc. destruct Hc as [p Hp].
      apply (@postReduceScatter_ok P D total HP HD Hfit Hdiv p c (Hsized p c Hp)). }
  cbn [bind].
  rewrite (@ncclReduceScatter_ok P D total HP HD Hfit Hdiv w Hsized Hlen gty Hgty).
  cbn [bind].
  set (s := ceil_div (Z.of_nat total) (Z.of_nat (P * D))) in *.
  rewrite !map_map, combine_with_map, map_map. cbn [fst snd].
  set (w1 := map _ w).
  assert (length w1 = P) as Hlen1 by (unfold w1; now rewrite length_map).
  assert (forall p c, nth_error w p = Some c ->
            nth_error w1 p = Some (set_grads c
              (map (fun q => splice (call_buffer q) (call_recvoff q)
                                    (map (fun j => sumAt (allGrads w)
                                                     (Z.to_nat (comm_rank (call_comm q) * s + j)))
                                         (indices (Z.to_nat s))))
                   (callsOf grads (fun _ => 0) (fun b => b) s c)))) as Hw1.
  { intros p c Hp. unfold w1. rewrite nth_error_map, Hp. reflexivity. }
  set (R := fun (pc : nat * NCCLCommunicator) (c' : NCCLCommunicator) =>
              mpi_ c' = mpi_ (snd pc) /\
              length (graphs_ c') = D /\
              forall j, nth_error (graphs_ c') j =
                        option_map
                          (fun g => mkGraph
                             (mkTensor (type (grads g))
                                (zeroOutside ((Z.of_nat (fst pc * D) + Z.of_nat j) * s)
                                             ((Z.of_nat (fst pc * D) + Z.of_nat j + 1) * s)
                                             (data (grads g))))
                             (vals g))
                          (nth_error (graphs_ (snd pc)) j)).
  match goal with
  | |- exists w', mapM ?f ?l = Ok w' /\ _ =>
      destruct (@mapM_exists _ _ f R l) as (w' & Hrun & Hall)
  end.
  { intros [p c1] Hin. apply In_nth_error in Hin. destruct Hin as [n Hn].
    rewrite nth_error_positions in Hn.
    destruct (nth_error w1 n) as [c1'|] eqn:E1; [|discriminate].
    simpl in Hn. injection Hn as <- <-.
    assert (n < length w)%nat as Hnw.
    { rewrite Hlen, <- Hlen1. apply nth_error_Some. congruence. }
    destruct (nth_error w n) as [c|] eqn:Ec; [|apply nth_error_None in Ec; lia].
    rewrite (Hw1 n c Ec) in E1. injection E1 as <-.
    pose proof (@afterCollective_sized P D total gty vty w job n c Ec) as Hsz.
    fold s in Hsz.
    destruct (@foreach_resetGrads P D total HP HD Hfit Hdiv n _ Hsz (schedules n))
      as (graphs' & Hfe & HlenG & Hnth).
    { apply Hsched. lia. }
    cbn [fst snd]. fold s in Hfe. rewrite Hfe. cbn [bind].
    eexists. split; [reflexivity|].
    unfold R. cbn [graphs_ mpi_ fst snd].
    split; [reflexivity|]. split; [exact HlenG|exact Hnth]. }
  exists w'. split; [exact Hrun|].
  split.
  { rewrite <- (Forall2_length Hall), length_combine, length_seq. lia. }
  intros p c Hp.
  assert (nth_error (combine (seq 0 (length w1)) w1) p
          = Some (p, set_grads c
              (map (fun q => splice (call_buffer q) (call_recvoff q)
                                    (map (fun j => sumAt (allGrads w)
                                                     (Z.to_nat (comm_rank (call_comm q) * s + j)))
                                         (indices (Z.to_nat s))))
                   (callsOf grads (fun _ => 0) (fun b => b) s c)))) as Hpc.
  { rewrite nth_error_positions, (Hw1 p c Hp). reflexivity. }
  destruct (Forall2_at Hall _ Hpc) as (c' & Hc' & Hmpi & HlenG & Hnth).
  cbn [fst snd] in Hnth, Hmpi.
  exists c'. split; [exact Hc'|]. split; [exact Hmpi|]. split; [exact HlenG|].
  intros j. rewrite (Hnth j).
  pose proof (@afterCollective_graphs P D total gty vty w job p c j Hp) as Hafter.
  fold s in Hafter. rewrite Hafter.
  now destruct (nth_error (graphs_ c) j).
Qed.

Lemma length_reduced_reset (new d : list Z) (s r : Z) (total : nat) :
  0 <= s -> 0 <= r -> (r + 1) * s <= Z.of_nat total ->
  length d = total -> Z.of_nat total < SIZE_MODULUS -> length new = Z.to_nat s ->
  length (zeroOutside (r * s) ((r + 1) * s) (splice d (r * s) new)) = total.
Proof.
  intros Hs Hr Hin Hlen Hfit Hnew.
  assert (0 <= r * s) as Hrs by nia.
  assert (length (splice d (r * s) new) = total) as Hsp.
  { rewrite length_splice; [exact Hlen|]. rewrite Hnew. nia. }
  rewrite length_zeroOutside; unfold zlen; rewrite ?Hsp; lia.
Qed.

(** A world that keeps the shape of a job is a job. *)
Lemma job_preserved (P D total : nat) (gty vty : Type_) (w w' : World) :
  jobOf P D total gty vty w -> length w' = P ->
  (forall p c, nth_error w p = Some c ->
     exists c', nth_error w' p = Some c' /\ mpi_ c' = mpi_ c /\
       length (graphs_ c') = D /\
       forall j g', nth_error (graphs_ c') j = Some g' ->
         exists g, nth_error (graphs_ c) j = Some g /\
           type (grads g') = type (grads g) /\ type (vals g') = type (vals g) /\
           length (data (grads g')) = total /\ length (data (vals g')) = total) ->
  jobOf P D total gty vty w'.
Proof.
  intros job Hlen' Hshape.
  pose proof job as ([Hlen Hw] & (Hg & Hv & Hbuf) & HP & HD & Hfit & Hdiv).
  assert (forall p c', nth_error w' p = Some c' ->
            exists c, nth_error w p = Some c /\ mpi_ c' = mpi_ c /\
              length (graphs_ c') = D /\
              forall j g', nth_error (graphs_ c') j = Some g' ->
                exists g, nth_error (graphs_ c) j = Some g /\
                  type (grads g') = type (grads g) /\ type (vals g') = type (vals g) /\
                  length (data (grads g')) = total /\ length (data (vals g')) = total) as Hback.
  { intros p c' Hp.
    assert (p < length w)%nat as HpP
      by (rewrite Hlen, <- Hlen'; apply nth_error_Some; congruence).
    destruct (nth_error w p) as [c|] eqn:Ec; [|apply nth_error_None in Ec; lia].
    destruct (Hshape p c Ec) as (c'' & Hc'' & Hrest).
    rewrite Hp in Hc''. injection Hc'' as <-. now exists c. }
  split; [|split; [|now repeat split]].
  - split; [exact Hlen'|]. intros p c' Hp.
    destruct (Hback p c' Hp) as (c & Hc & Hmpi & HlenD & _).
    destruct (Hw p c Hc) as [_ Hm]. split; [exact HlenD|]. now rewrite Hmpi.
  - split; [exact Hg|]. split; [exact Hv|].
    intros c' g' Hc' Hg'.
    apply In_nth_error in Hc'. destruct Hc' as [p Hp].
    apply In_nth_error in Hg'. destruct Hg' as [j Hj].
    destruct (Hback p c' Hp) as (c & Hc & _ & _ & Hgr).
    destruct (Hgr j g' Hj) as (g & Hgj & Ht1 & Ht2 & Hl1 & Hl2).
    destruct (Hbuf c g) as (_ & _ & T1 & T2);
      [eapply nth_error_In; eauto | eapply nth_error_In; eauto |].
    repeat split; congruence.
Qed.

Lemma concat_by_position {A B : Type} (f : A -> list B) (l l' : list A) :
  length l' = length l ->
  (forall p x x', nth_error l p = Some x -> nth_error l' p = Some x' -> f x' = f x) ->
  concat (map f l') = concat (map f l).
Proof.
  intros Hlen H. f_equal. apply nth_error_ext. intros p.
  rewrite !nth_error_map.
  destruct (nth_error l p) as [x|] eqn:E, (nth_error l' p) as [x'|] eqn:E'; simpl.
  - f_equal. now apply (H p).
  - apply nth_error_None in E'. assert (p < length l)%nat by (apply nth_error_Some; congruence). lia.
  - apply nth_error_None in E. assert (p < length l')%nat by (apply nth_error_Some; congruence). lia.
  - reflexivity.
Qed.

(** The result of [scatterReduceAndResetGrads] on a job, with what it
    keeps. *)
Lemma scatterReduce_result
      (P D total : nat) (gty vty : Type_) (w : World) (schedules : nat -> list nat) :
  jobOf P D total gty vty w ->
  (forall p, (p < P)%nat -> Permutation (schedules p) (seq 0 D)) ->
  exists w',
    scatterReduceAndResetGrads schedules w = Ok w' /\
    jobOf P D total gty vty w' /\
    forall p c, nth_error w p = Some c ->
      exists c', nth_error w' p = Some c' /\ mpi_ c' = mpi_ c /\
        length (graphs_ c') = D /\
        forall j g, nth_error (graphs_ c) j = Some g ->
          exists g', nth_error (graphs_ c') j = Some g' /\
            vals g' = vals g /\ type (grads g') = type (grads g) /\
            length (data (grads g')) = total /\
            forall k, (k < total)%nat ->
              nth k (data (grads g')) 0 =
                if ((Z.of_nat (p * D) + Z.of_nat j)
                      * ceil_div (Z.of_nat total) (Z.of_nat (P * D)) <=? Z.of_nat k)
                   && (Z.of_nat k <? (Z.of_nat (p * D) + Z.of_nat j + 1)
                                       * ceil_div (Z.of_nat total) (Z.of_nat (P * D)))
                then sumAt (allGrads w) k else 0.
Proof.
  intros job Hsched.
  destruct (@scatterReduce_closed_form P D total gty vty w schedules job Hsched)
    as (w' & Hrun & Hlen' & Hform).
  destruct (@job_parts P D total gty vty w job)
    as (HP & HD & Hfit & Hdiv & Hlen & Hsized & _).
  destruct (@job_arith P D total HP HD Hfit Hdiv) as (HN & HNfit & Hs & Hex).
  set (s := ceil_div (Z.of_nat total) (Z.of_nat (P * D))) in *.
  assert (forall p c, nth_error w p = Some c ->
    exists c', nth_error w' p = Some c' /\ mpi_ c' = mpi_ c /\
      length (graphs_ c') = D /\
      forall j g, nth_error (graphs_ c) j = Some g ->
        exists g', nth_error (graphs_ c') j = Some g' /\
          vals g' = vals g /\ type (grads g') = type (grads g) /\
          length (data (grads g')) = total /\
          forall k, (k < total)%nat ->
            nth k (data (grads g')) 0 =
              if ((Z.of_nat (p * D) + Z.of_nat j) * s <=? Z.of_nat k)
                 && (Z.of_nat k <? (Z.of_nat (p * D) + Z.of_nat j + 1) * s)
              then sumAt (allGrads w) k else 0) as Hres.
  { intros p c Hp.
    destruct (Hform p c Hp) as (c' & Hc' & Hmpi & HlenD & Hnth).
    exists c'. split; [exact Hc'|]. split; [exact Hmpi|]. split; [exact HlenD|].
    intros j g Hg. specialize (Hnth j). rewrite Hg in Hnth. cbn [option_map] in Hnth.
    eexists. split; [exact Hnth|]. cbn [vals grads type data].
    split; [reflexivity|]. split; [reflexivity|].
    pose proof (Hsized p c Hp) as ([HlenG _] & HpP & Hbuf).
    assert (j < D)%nat as HjD by (rewrite <- HlenG; apply nth_error_Some; congruence).
    assert (length (data (grads g)) = total) as Hlg
      by (apply Hbuf; eapply nth_error_In; eauto).
    assert (Z.of_nat (p * D) + Z.of_nat j + 1 <= Z.of_nat (P * D)) as Hr by nia.
    split.
    - apply length_reduced_reset; try assumption; try lia; try nia.
      now rewrite length_map, length_indices.
    - intros k Hk.
      apply (@nth_reduced_reset (allGrads w) (data (grads g)) s
               (Z.of_nat (p * D) + Z.of_nat j) total k); try assumption; try lia; nia. }
  exists w'. split; [exact Hrun|]. split; [|exact Hres].
  apply (@job_preserved P D total gty vty w w' job Hlen').
  intros p c Hp.
  destruct (Hres p c Hp) as (c' & Hc' & Hmpi & HlenD & Hgr).
  exists c'. split; [exact Hc'|]. split; [exact Hmpi|]. split; [exact HlenD|].
  intros j g' Hj.
  pose proof (Hsized p c Hp) as ([HlenG _] & HpP & Hbuf).
  assert (j < length (graphs_ c))%nat as Hjl
    by (rewrite HlenG, <- HlenD; apply nth_error_Some; congruence).
  destruct (nth_error (graphs_ c) j) as [g|] eqn:Eg; [|apply nth_error_None in Eg; lia].
  destruct (Hgr j g Eg) as (g'' & Hg'' & Hv & Ht & Hl & _).
  rewrite Hj in Hg''. injection Hg'' as <-.
  exists g. split; [reflexivity|]. split; [exact Ht|]. split; [now rewrite Hv|].
  split; [exact Hl|]. rewrite Hv. apply Hbuf. eapply nth_error_In; eauto.
Qed.

Lemma map_by_graph {B : Type} (f : ExpressionGraph -> B) (l l' : list ExpressionGraph) :
  length l' = length l ->
  (forall j g, nth_error l j = Some g ->
               exists g', nth_error l' j = Some g' /\ f g' = f g) ->
  map f l' = map f l.
Proof.
  intros Hlen H. apply nth_error_ext. intros j. rewrite !nth_error_map.
  destruct (nth_error l j) as [g|] eqn:E.
  - destruct (H j g E) as (g' & -> & Hf). simpl. now rewrite Hf.
  - apply nth_error_None in E. rewrite <- Hlen in E. apply nth_error_None in E.
    now rewrite E.
Qed.

(** X9: on a job whose size the planner accepts,
    [scatterReduceAndResetGrads] changes nothing but the contents of the
    gradient buffers: afterwards the world is again such a job (as many
    processes and devices, the same MPI wrappers, buffers of the same
    length and element type), and the parameter buffers of all devices
    are what they were. *)
Theorem scatterReduceAndResetGrads_frame
        (P D total : nat) (gty vty : Type_) (w : World) (schedules : nat -> list nat) :
  jobOf P D total gty vty w ->
  (forall p, (p < P)%nat -> Permutation (schedules p) (seq 0 D)) ->
  exists w',
    scatterReduceAndResetGrads schedules w = Ok w' /\
    jobOf P D total gty vty w' /\
    allVals w' = allVals w /\
    forall p c, nth_error w p = Some c ->
      exists c', nth_error w' p = Some c' /\ mpi_ c' = mpi_ c /\
        map vals (graphs_ c') = map vals (graphs_ c) /\
        map (fun g => type (grads g)) (graphs_ c')
          = map (fun g => type (grads g)) (graphs_ c).
Proof.
  intros job Hsched.
  destruct (@scatterReduce_result P D total gty vty w schedules job Hsched)
    as (w' & Hrun & Hjob' & Hres).
  destruct (@job_parts P D total gty vty w job) as (_ & _ & _ & _ & Hlen & Hsized & _).
  destruct (@job_parts P D total gty vty w' Hjob') as (_ & _ & _ & _ & Hlen' & _).
  assert (forall p c c', nth_error w p = Some c -> nth_error w' p = Some c' ->
            mpi_ c' = mpi_ c /\
            forall B (f : ExpressionGraph -> B),
              (forall g g', vals g' = vals g -> type (grads g') = type (grads g) -> f g' = f g) ->
              map f (graphs_ c') = map f (graphs_ c)) as Hkeep.
  { intros p c c' Hp Hp'.
    destruct (Hres p c Hp) as (c'' & Hc'' & Hmpi & HlenD & Hgr).
    rewrite Hp' in Hc''. injection Hc'' as <-.
    split; [exact Hmpi|]. intros B f Hf.
    apply map_by_graph.
    - destruct (Hsized p c Hp) as ([HlenG _] & _). lia.
    - intros j g Hg. destruct (Hgr j g Hg) as (g' & Hg' & Hv & Ht & _).
      exists g'. split; [exact Hg'|]. now apply Hf. }
  exists w'. split; [exact Hrun|]. split; [exact Hjob'|].
  split.
  - unfold allVals. apply concat_by_position; [lia|].
    intros p c c' Hp Hp'. apply (Hkeep p c c' Hp Hp').
    intros g g' Hv _. now rewrite Hv.
  - intros p c Hp.
    destruct (Hres p c Hp) as (c' & Hc' & _).
    destruct (Hkeep p c c' Hp Hc') as [Hmpi Hmap].
    exists c'. split; [exact Hc'|]. split; [exact Hmpi|].
    split; apply Hmap; intros g g' Hv Ht; congruence.
Qed.

Lemma rampWorld_jobOf : jobOf 2 2 4 float32 float32 rampWorld.
Proof.
  split; [|split].
  - split; [reflexivity|].
    intros p c Hp. destruct p as [|[|p]]; simpl in Hp.
    + injection Hp as <-. split; [reflexivity|now left].
    + injection Hp as <-. split; [reflexivity|now left].
    + destruct p; discriminate.
  - split; [now right|]. split; [now right|].
    intros c g Hc Hg. simpl in Hc.
    destruct Hc as [<-|[<-|[]]]; simpl in Hg;
      destruct Hg as [<-|[<-|[]]]; repeat split; reflexivity.
  - repeat split; try lia; reflexivity.
Qed.

(** X9, at two processes of two devices under MPI. *)
Lemma scatterReduceAndResetGrads_frame_witness :
  exists w',
    scatterReduceAndResetGrads (fun _ => [1; 0]%nat) (mpiWorld float32 2 2 8 1) = Ok w' /\
    jobOf 2 2 8 float32 float32 w' /\
    allVals w' = allVals (mpiWorld float32 2 2 8 1) /\
    forall p c, nth_error (mpiWorld float32 2 2 8 1) p = Some c ->
      exists c', nth_error w' p = Some c' /\ mpi_ c' = mpi_ c /\
        map vals (graphs_ c') = map vals (graphs_ c) /\
        map (fun g => type (grads g)) (graphs_ c')
          = map (fun g => type (grads g)) (graphs_ c).
Proof.
  apply (@scatterReduceAndResetGrads_frame 2 2 8 float32 float32
           (mpiWorld float32 2 2 8 1) (fun _ => [1; 0]%nat)).
  - apply mpiWorld_jobOf; [now right | lia | lia | reflexivity | reflexivity].
  - intros p _. apply perm_swap.
Defined.

(* ------------------------------------------------------------------ *)
(** ** The sums are conserved *)

Lemma Zsum_indicator (v : Z) (q n : nat) (f : nat -> bool) :
  forall a, (forall r, (a <= r < a + n)%nat -> f r = (r =? q)%nat) ->
  Zsum (map (fun r => if f r then v else 0) (seq a n))
    = if ((a <=? q) && (q <? a + n))%nat then v else 0.
Proof.
  induction n as [|n IH]; intros a Hf.
  - simpl. destruct (a <=? q)%nat eqn:E1, (q <? a + 0)%nat eqn:E2; try reflexivity.
    apply Nat.leb_le in E1. apply Nat.ltb_lt in E2. lia.
  - cbn [seq map]. change (Zsum (?x :: ?l)) with (x + Zsum l).
    rewrite IH by (intros r Hr; apply Hf; lia).
    rewrite Hf by lia.
    destruct (Nat.eqb_spec a q) as [->|Hne].
    + assert ((S q <=? q)%nat = false) as -> by (apply Nat.leb_gt; lia).
      assert ((q <=? q)%nat = true) as -> by (apply Nat.leb_le; lia).
      assert ((q <? q + S n)%nat = true) as -> by (apply Nat.ltb_lt; lia).
      simpl. lia.
    + repeat match goal with
             | |- context [(?x <=? ?y)%nat] => destruct (Nat.leb_spec x y)
             | |- context [(?x <? ?y)%nat] => destruct (Nat.ltb_spec x y)
             end; simpl; lia.
Qed.

(** X10: on a job whose size the planner accepts,
    [scatterReduceAndResetGrads] conserves, at every index, the sum of the
    gradient buffers over all devices of the job: after the call exactly
    one device holds the sum at that index and the others hold zero. *)
Theorem scatterReduceAndResetGrads_conserves_sums
        (P D total : nat) (gty vty : Type_) (w : World) (schedules : nat -> list nat) :
  jobOf P D total gty vty w ->
  (forall p, (p < P)%nat -> Permutation (schedules p) (seq 0 D)) ->
  exists w',
    scatterReduceAndResetGrads schedules w = Ok w' /\
    length (allGrads w') = (P * D)%nat /\
    forall k, (k < total)%nat -> sumAt (allGrads w') k = sumAt (allGrads w) k.
Proof.
  intros job Hsched.
  destruct (@scatterReduce_result P D total gty vty w schedules job Hsched)
    as (w' & Hrun & Hjob' & Hres).
  destruct (@job_parts P D total gty vty w job)
    as (HP & HD & Hfit & Hdiv & Hlen & Hsized & _).
  destruct (@job_parts P D total gty vty w' Hjob')
    as (_ & _ & _ & _ & Hlen' & Hsized' & _).
  destruct (@job_arith P D total HP HD Hfit Hdiv) as (HN & HNfit & Hs & Hex).
  set (s := ceil_div (Z.of_nat total) (Z.of_nat (P * D))) in *.
  pose proof (@length_allBuffers P D total w' Hsized' Hlen' grads) as HlenA.
  change (allBuffers grads w') with (allGrads w') in HlenA.
  exists w'. split; [exact Hrun|]. split; [exact HlenA|].
  intros k Hk.
  assert (0 < s) as Hspos by nia.
  pose proof (Z.div_mod (Z.of_nat k) s ltac:(lia)) as Hdm.
  pose proof (Z.mod_pos_bound (Z.of_nat k) s Hspos) as Hrem.
  assert (0 <= Z.of_nat k / s) as Hq0 by (apply Z.div_pos; lia).
  assert (Z.of_nat k / s < Z.of_nat (P * D)) as HqN by nia.
  unfold sumAt at 1.
  rewrite <- (map_nth_positions (allGrads w') []) at 1.
  rewrite HlenA, map_map.
  rewrite (map_ext_in _ (fun r => if (r =? Z.to_nat (Z.of_nat k / s))%nat
                                  then sumAt (allGrads w) k else 0)).
  - rewrite (@Zsum_indicator _ (Z.to_nat (Z.of_nat k / s)) (P * D)
               (fun r => (r =? Z.to_nat (Z.of_nat k / s))%nat) 0%nat)
      by reflexivity.
    assert ((Z.to_nat (Z.of_nat k / s) <? 0 + P * D)%nat = true) as ->
      by (apply Nat.ltb_lt; lia).
    reflexivity.
  - intros r Hr. apply in_seq in Hr.
    assert (r / D < P)%nat as HpP by (apply Nat.Div0.div_lt_upper_bound; lia).
    assert (r mod D < D)%nat as HjD by (apply Nat.mod_upper_bound; lia).
    pose proof (Nat.div_mod_eq r D) as Hr_eq.
    destruct (nth_error w (r / D)) as [c|] eqn:Ec;
      [|apply nth_error_None in Ec; lia].
    destruct (Hres _ c Ec) as (c' & Hc' & _ & HlenD & Hgr).
    destruct (Hsized _ c Ec) as ([HlenG _] & _).
    destruct (nth_error (graphs_ c) (r mod D)) as [g|] eqn:Eg;
      [|apply nth_error_None in Eg; lia].
    destruct (Hgr _ g Eg) as (g' & Hg' & _ & _ & _ & Hnth).
    pose proof (@nth_allBuffers P D total HP HD Hfit Hdiv w' Hsized' Hlen' grads
                  (r / D) (r mod D) c' Hc' HjD) as Hbuf.
    change (allBuffers grads w') with (allGrads w') in Hbuf.
    replace (r / D * D + r mod D)%nat with r in Hbuf by lia.
    rewrite Hbuf, (nth_error_nth _ _ emptyGraph Hg'), (Hnth k Hk).
    fold s.
    replace (Z.of_nat (r / D * D) + Z.of_nat (r mod D)) with (Z.of_nat r) by lia.
    destruct (Nat.eqb_spec r (Z.to_nat (Z.of_nat k / s))) as [->|Hne].
    + rewrite Z2Nat.id by lia.
      assert ((Z.of_nat k / s * s <=? Z.of_nat k) = true) as -> by (apply Z.leb_le; lia).
      assert ((Z.of_nat k <? (Z.of_nat k / s + 1) * s) = true) as -> by (apply Z.ltb_lt; lia).
      reflexivity.
    + destruct (Z.of_nat r * s <=? Z.of_nat k) eqn:E1; [|reflexivity].
      destruct (Z.of_nat k <? (Z.of_nat r + 1) * s) eqn:E2; [|reflexivity].
      apply Z.leb_le in E1. apply Z.ltb_lt in E2.
      exfalso. apply Hne.
      assert (Z.of_nat r = Z.of_nat k / s) by (apply (Z.div_unique _ _ _ (Z.of_nat k - Z.of_nat r * s)); lia).
      lia.
Qed.

(** X10, at two processes of two devices under MPI. *)
Lemma scatterReduceAndResetGrads_conserves_sums_witness :
  exists w',
    scatterReduceAndResetGrads (fun _ => [1; 0]%nat) rampWorld = Ok w' /\
    length (allGrads w') = (2 * 2)%nat /\
    forall k, (k < 4)%nat -> sumAt (allGrads w') k = sumAt (allGrads rampWorld) k.
Proof.
  apply (@scatterReduceAndResetGrads_conserves_sums 2 2 4 float32 float32
           rampWorld (fun _ => [1; 0]%nat)).
  - apply rampWorld_jobOf.
  - intros p _. apply perm_swap.
Defined.

(* ------------------------------------------------------------------ *)
(** ** What [allGatherParams] leaves of a job *)

Lemma In_allVals (w : World) (c : NCCLCommunicator) (g : ExpressionGraph) :
  In c w -> In g (graphs_ c) -> In (data (vals g)) (allVals w).
Proof.
  intros Hc Hg. unfold allVals. apply in_concat.
  exists (map (fun g => data (vals g)) (graphs_ c)). split.
  - apply in_map_iff. now exists c.
  - apply in_map_iff. now exists g.
Qed.

(** The result of [allGatherParams] on a job, with what it keeps. *)
Lemma allGather_result (P D total : nat) (gty vty : Type_) (w : World) :
  jobOf P D total gty vty w ->
  exists w',
    allGatherParams w = Ok w' /\
    jobOf P D total gty vty w' /\
    forall p c, nth_error w p = Some c ->
      exists c', nth_error w' p = Some c' /\ mpi_ c' = mpi_ c /\
        length (graphs_ c') = D /\
        forall j g, nth_error (graphs_ c) j = Some g ->
          nth_error (graphs_ c') j =
            Some (mkGraph (grads g)
                    (mkTensor (type (vals g))
                       (concat (map (fun r => slice (nth r (allVals w) [])
                                      (Z.of_nat r * ceil_div (Z.of_nat total) (Z.of_nat (P * D)))
                                      ((Z.of_nat r + 1)
                                         * ceil_div (Z.of_nat total) (Z.of_nat (P * D))))
                                    (seq 0 (P * D)))))).
Proof.
  intros job.
  destruct (@job_parts P D total gty vty w job)
    as (HP & HD & Hfit & Hdiv & Hlen & Hsized & _ & Hvty).
  pose proof (@length_gathered P D total gty vty w job) as Hlg.
  set (s := ceil_div (Z.of_nat total) (Z.of_nat (P * D))) in *.
  set (gathered := concat (map _ (seq 0 (P * D)))) in *.
  set (w' := map (fun c => set_vals c (map (fun _ : NcclCall => gathered)
                                            (callsOf vals (fun b => b) (fun _ => 0) s c))) w).
  assert (allGatherParams w = Ok w') as Hrun.
  { unfold w', gathered, s, allGatherParams.
    rewrite (@mapM_ok _ _ postAllGather
               (callsOf vals (fun b => b) (fun _ => 0)
                        (ceil_div (Z.of_nat total) (Z.of_nat (P * D)))) w).
    2:{ intros c Hc. apply In_nth_error in Hc. destruct Hc as [p Hp].
        apply (@postAllGather_ok P D total HP HD Hfit Hdiv p c (Hsized p c Hp)). }
    cbn [bind].
    rewrite (@ncclAllGather_ok P D total gty vty w job). cbn [bind].
    rewrite !map_map, combine_with_map, map_map. reflexivity. }
  assert (forall p c, nth_error w p = Some c ->
            exists c', nth_error w' p = Some c' /\ mpi_ c' = mpi_ c /\
              length (graphs_ c') = D /\
              forall j g, nth_error (graphs_ c) j = Some g ->
                nth_error (graphs_ c') j =
                  Some (mkGraph (grads g) (mkTensor (type (vals g)) gathered))) as Hres.
  { intros p c Hp. eexists. split; [unfold w'; rewrite nth_error_map, Hp; reflexivity|].
    pose proof (Hsized p c Hp) as ([HlenD _] & _).
    split; [reflexivity|].
    unfold set_vals, callsOf. cbn [graphs_].
    split.
    - rewrite length_map, length_combine, !length_map, length_indices. lia.
    - intros j g Hg.
      assert (j < D)%nat as Hj by (rewrite <- HlenD; apply nth_error_Some; congruence).
      rewrite nth_error_map, nth_error_combine, !nth_error_map, Hg.
      rewrite HlenD, nth_error_indices by exact Hj. reflexivity. }
  exists w'. split; [exact Hrun|]. split; [|exact Hres].
  apply (@job_preserved P D total gty vty w w' job).
  { unfold w'. now rewrite length_map. }
  intros p c Hp.
  destruct (Hres p c Hp) as (c' & Hc' & Hmpi & HlenD & Hgr).
  exists c'. split; [exact Hc'|]. split; [exact Hmpi|]. split; [exact HlenD|].
  intros j g' Hj.
  pose proof (Hsized p c Hp) as ([HlenG _] & HpP & Hbuf).
  assert (j < length (graphs_ c))%nat as Hjl
    by (rewrite HlenG, <- HlenD; apply nth_error_Some; congruence).
  destruct (nth_error (graphs_ c) j) as [g|] eqn:Eg; [|apply nth_error_None in Eg; lia].
  rewrite (Hgr j g Eg) in Hj. injection Hj as <-.
  exists g. cbn [grads vals type data].
  repeat split; try reflexivity; try exact Hlg.
  apply Hbuf. eapply nth_error_In; eauto.
Qed.

(** X11: on a job whose size the planner accepts, [allGatherParams]
    changes nothing but the contents of the parameter buffers: afterwards
    the world is again such a job (as many processes and devices, the same
    MPI wrappers, buffers of the same length and element type), and the
    gradient tensors of all devices are what they were. *)
Theorem allGatherParams_frame (P D total : nat) (gty vty : Type_) (w : World) :
  jobOf P D total gty vty w ->
  exists w',
    allGatherParams w = Ok w' /\
    jobOf P D total gty vty w' /\
    allGrads w' = allGrads w /\
    forall p c, nth_error w p = Some c ->
      exists c', nth_error w' p = Some c' /\ mpi_ c' = mpi_ c /\
        map grads (graphs_ c') = map grads (graphs_ c) /\
        map (fun g => type (vals g)) (graphs_ c') = map (fun g => type (vals g)) (graphs_ c).
Proof.
  intros job.
  destruct (@allGather_result P D total gty vty w job) as (w' & Hrun & Hjob' & Hres).
  destruct (@job_parts P D total gty vty w job) as (_ & _ & _ & _ & Hlen & Hsized & _).
  destruct (@job_parts P D total gty vty w' Hjob') as (_ & _ & _ & _ & Hlen' & _).
  assert (forall p c c', nth_error w p = Some c -> nth_error w' p = Some c' ->
            mpi_ c' = mpi_ c /\
            forall B (f : ExpressionGraph -> B),
              (forall g g', grads g' = grads g -> type (vals g') = type (vals g) -> f g' = f g) ->
              map f (graphs_ c') = map f (graphs_ c)) as Hkeep.
  { intros p c c' Hp Hp'.
    destruct (Hres p c Hp) as (c'' & Hc'' & Hmpi & HlenD & Hgr).
    rewrite Hp' in Hc''. injection Hc'' as <-.
    split; [exact Hmpi|]. intros B f Hf.
    apply map_by_graph.
    - destruct (Hsized p c Hp) as ([HlenG _] & _). lia.
    - intros j g Hg. eexists. split; [exact (Hgr j g Hg)|]. now apply Hf. }
  exists w'. split; [exact Hrun|]. split; [exact Hjob'|].
  split.
  - unfold allGrads. apply concat_by_position; [lia|].
    intros p c c' Hp Hp'. apply (Hkeep p c c' Hp Hp').
    intros g g' Hg _. now rewrite Hg.
  - intros p c Hp.
    destruct (Hres p c Hp) as (c' & Hc' & _).
    destruct (Hkeep p c c' Hp Hc') as [Hmpi Hmap].
    exists c'. split; [exact Hc'|]. split; [exact Hmpi|].
    split; apply Hmap; intros g g' Hg Ht; congruence.
Qed.

(** X11, at two processes of two devices under MPI. *)
Lemma allGatherParams_frame_witness :
  exists w',
    allGatherParams (mpiWorld float32 2 2 8 1) = Ok w' /\
    jobOf 2 2 8 float32 float32 w' /\
    allGrads w' = allGrads (mpiWorld float32 2 2 8 1) /\
    forall p c, nth_error (mpiWorld float32 2 2 8 1) p = Some c ->
      exists c', nth_error w' p = Some c' /\ mpi_ c' = mpi_ c /\
        map grads (graphs_ c') = map grads (graphs_ c) /\
        map (fun g => type (vals g)) (graphs_ c') = map (fun g => type (vals g)) (graphs_ c).
Proof.
  apply (@allGatherParams_frame 2 2 8 float32 float32 (mpiWorld float32 2 2 8 1)).
  apply mpiWorld_jobOf; [now right | lia | lia | reflexivity | reflexivity].
Defined.

(* ------------------------------------------------------------------ *)
(** ** Shards in the gathered buffer *)

Lemma slice_concat_block {A : Type} (F : nat -> list A) (s : Z) (N r : nat) :
  0 <= s -> (forall r', (r' < N)%nat -> length (F r') = Z.to_nat s) -> (r < N)%nat ->
  slice (concat (map F (seq 0 N))) (Z.of_nat r * s) ((Z.of_nat r + 1) * s) = F r.
Proof.
  intros Hs HF Hr.
  assert (seq 0 N = seq 0 r ++ r :: seq (S r) (N - S r)) as ->.
  { replace N with (r + S (N - S r))%nat at 1 by lia. now rewrite seq_app. }
  rewrite map_app, concat_app. cbn [map concat].
  assert (length (concat (map F (seq 0 r))) = Z.to_nat (Z.of_nat r * s)) as Hpre.
  { rewrite (@length_concat_blocks _ (Z.to_nat s)).
    - rewrite length_map, length_seq. nia.
    - intros l Hl. apply in_map_iff in Hl. destruct Hl as (r' & <- & Hr').
      apply in_seq in Hr'. apply HF. lia. }
  unfold slice. rewrite skipn_app, <- Hpre, skipn_all, Nat.sub_diag. cbn [skipn app].
  replace ((Z.of_nat r + 1) * s - Z.of_nat r * s) with s by lia.
  rewrite firstn_app, <- (HF r Hr), firstn_all, Nat.sub_diag. cbn [firstn].
  apply app_nil_r.
Qed.

Lemma allVals_lengths (P D total : nat) (gty vty : Type_) (w : World) :
  jobOf P D total gty vty w ->
  length (allVals w) = (P * D)%nat /\
  forall d, In d (allVals w) -> length d = total.
Proof.
  intros job.
  destruct (@job_parts P D total gty vty w job) as (_ & _ & _ & _ & Hlen & Hsized & _).
  split; [exact (@length_allBuffers P D total w Hsized Hlen vals)|].
  intros d Hd. unfold allVals in Hd. apply in_concat in Hd.
  destruct Hd as (l & Hl & Hd). apply in_map_iff in Hl. destruct Hl as (c & <- & Hc).
  apply in_map_iff in Hd. destruct Hd as (g & <- & Hg).
  apply In_nth_error in Hc. destruct Hc as [p Hp].
  now apply (Hsized p c Hp).
Qed.

(** X12: on a job whose size the planner accepts, [allGatherParams]
    leaves the own shard of every device as it was: the elements of a
    device's parameter buffer at the device's own shard range (the range
    [localShardRange] returns for it) are the same after the call as
    before; only the other ranks' ranges of the buffer are overwritten. *)
Theorem allGatherParams_keeps_own_shard (P D total : nat) (gty vty : Type_) (w : World) :
  jobOf P D total gty vty w ->
  exists w',
    allGatherParams w = Ok w' /\
    forall p c c' j g g' b e,
      nth_error w p = Some c -> nth_error w' p = Some c' ->
      nth_error (graphs_ c) j = Some g -> nth_error (graphs_ c') j = Some g' ->
      localShardRange c (Z.of_nat j) = Ok (b, e) ->
      slice (data (vals g')) b e = slice (data (vals g)) b e.
Proof.
  intros job.
  destruct (@allGather_result P D total gty vty w job) as (w' & Hrun & Hjob' & Hres).
  destruct (@job_parts P D total gty vty w job)
    as (HP & HD & Hfit & Hdiv & Hlen & Hsized & _).
  destruct (@job_arith P D total HP HD Hfit Hdiv) as (HN & HNfit & Hs & Hex).
  destruct (@allVals_lengths P D total gty vty w job) as [HlenA HlenV].
  exists w'. split; [exact Hrun|].
  intros p c c' j g g' b e Hp Hp' Hg Hg' Hrange.
  destruct (Hres p c Hp) as (c'' & Hc'' & _ & _ & Hgr).
  rewrite Hp' in Hc''. injection Hc'' as <-.
  rewrite (Hgr j g Hg) in Hg'. injection Hg' as <-. cbn [vals data].
  pose proof (Hsized p c Hp) as Hcs. pose proof Hcs as ([HlenG _] & HpP & _).
  assert (j < D)%nat as HjD by (rewrite <- HlenG; apply nth_error_Some; congruence).
  rewrite (@sized_localShardRange P D total HP HD Hfit Hdiv p c (Z.of_nat j) Hcs) in Hrange
    by lia.
  injection Hrange as <- <-.
  set (s := ceil_div (Z.of_nat total) (Z.of_nat (P * D))) in *.
  replace (Z.of_nat (p * D) + Z.of_nat j) with (Z.of_nat (p * D + j)) by lia.
  assert (p * D + j < P * D)%nat as Hr by nia.
  rewrite (@slice_concat_block _
             (fun r => slice (nth r (allVals w) []) (Z.of_nat r * s) ((Z.of_nat r + 1) * s))
             s (P * D) (p * D + j) Hs); [|
    |exact Hr].
  - pose proof (@nth_allBuffers P D total HP HD Hfit Hdiv w Hsized Hlen vals p j c Hp HjD)
      as Hbuf.
    change (allBuffers vals w) with (allVals w) in Hbuf.
    rewrite Hbuf, (nth_error_nth _ _ emptyGraph Hg).
    reflexivity.
  - intros r' Hr'. unfold slice. rewrite length_firstn, length_skipn.
    rewrite (HlenV (nth r' (allVals w) [])) by (apply nth_In; lia).
    nia.
Qed.

(** X12, at two processes of two devices under MPI, the device of global
    rank r holding 10r+1 .. 10r+4. *)
Lemma allGatherParams_keeps_own_shard_witness :
  exists w',
    allGatherParams rampWorld = Ok w' /\
    forall p c c' j g g' b e,
      nth_error rampWorld p = Some c -> nth_error w' p = Some c' ->
      nth_error (graphs_ c) j = Some g -> nth_error (graphs_ c') j = Some g' ->
      localShardRange c (Z.of_nat j) = Ok (b, e) ->
      slice (data (vals g')) b e = slice (data (vals g)) b e.
Proof.
  apply (@allGatherParams_keeps_own_shard 2 2 4 float32 float32 rampWorld).
  apply rampWorld_jobOf.
Defined.

(* ------------------------------------------------------------------ *)
(** ** Gathering what is already gathered *)

(** Where every device holds the same parameter buffer, gathering changes
    nothing. *)
Lemma allGather_fixed_point (P D total : nat) (gty vty : Type_) (w : World) (V : list Z) :
  jobOf P D total gty vty w ->
  (forall d, In d (allVals w) -> d = V) ->
  allGatherParams w = Ok w.
Proof.
  intros job HV.
  destruct (@allGather_result P D total gty vty w job) as (w' & Hrun & Hjob' & Hres).
  destruct (@job_parts P D total gty vty w job)
    as (HP & HD & Hfit & Hdiv & Hlen & Hsized & _).
  destruct (@job_parts P D total gty vty w' Hjob') as (_ & _ & _ & _ & Hlen' & _).
  destruct (@job_arith P D total HP HD Hfit Hdiv) as (HN & HNfit & Hs & Hex).
  destruct (@allVals_lengths P D total gty vty w job) as [HlenA HlenV].
  set (s := ceil_div (Z.of_nat total) (Z.of_nat (P * D))) in *.
  assert (length V = total) as HlV.
  { rewrite <- (HV (nth 0 (allVals w) [])) by (apply nth_In; nia).
    apply HlenV. apply nth_In. nia. }
  assert (concat (map (fun r => slice (nth r (allVals w) []) (Z.of_nat r * s)
                                      ((Z.of_nat r + 1) * s))
                      (seq 0 (P * D))) = V) as Hgathered.
  { rewrite (map_ext_in _ (fun r => slice V (Z.of_nat r * s) (Z.of_nat (S r) * s))).
    - rewrite (concat_slices V (fun r => Z.of_nat r * s)) by (intros j Hj; nia).
      replace (Z.of_nat (0 + P * D) * s) with (zlen V) by (unfold zlen; nia).
      apply slice_all.
    - intros r Hr. apply in_seq in Hr.
      rewrite (HV (nth r (allVals w) [])) by (apply nth_In; lia).
      f_equal. lia. }
  rewrite Hrun. f_equal.
  apply nth_error_ext. intros p.
  destruct (nth_error w p) as [c|] eqn:Ec.
  - destruct (Hres p c Ec) as (c' & Hc' & Hmpi & HlenD & Hgr).
    rewrite Hc'. f_equal.
    destruct (Hsized p c Ec) as ([HlenG _] & _).
    assert (graphs_ c' = graphs_ c) as Hgraphs.
    { apply nth_error_ext. intros j.
      destruct (nth_error (graphs_ c) j) as [g|] eqn:Eg.
      - rewrite (Hgr j g Eg), Hgathered.
        rewrite <- (HV (data (vals g))).
        + now destruct g as [gr [ty d]].
        + apply In_allVals with c; eapply nth_error_In; eauto.
      - apply nth_error_None in Eg. apply nth_error_None. lia. }
    destruct c' as [gs' m'], c as [gs m]. simpl in *. congruence.
  - apply nth_error_None in Ec. apply nth_error_None. lia.
Qed.

(** X13: on a job whose size the planner accepts, [allGatherParams] is
    idempotent, calling it again on its result changes nothing; and where
    all devices of the job already hold one and the same parameter buffer
    the first call changes nothing either. *)
Theorem allGatherParams_idempotent (P D total : nat) (gty vty : Type_) (w : World) :
  jobOf P D total gty vty w ->
  exists w',
    allGatherParams w = Ok w' /\
    allGatherParams w' = Ok w' /\
    forall V, (forall d, In d (allVals w) -> d = V) -> w' = w.
Proof.
  intros job.
  destruct (@allGather_result P D total gty vty w job) as (w' & Hrun & Hjob' & Hres).
  destruct (@job_parts P D total gty vty w job) as (_ & _ & _ & _ & Hlen & Hsized & _).
  destruct (@job_parts P D total gty vty w' Hjob') as (_ & _ & _ & _ & Hlen' & Hsized' & _).
  exists w'. split; [exact Hrun|]. split.
  - apply (@allGather_fixed_point P D total gty vty w'
             (concat (map (fun r => slice (nth r (allVals w) [])
                              (Z.of_nat r * ceil_div (Z.of_nat total) (Z.of_nat (P * D)))
                              ((Z.of_nat r + 1)
                                 * ceil_div (Z.of_nat total) (Z.of_nat (P * D))))
                          (seq 0 (P * D)))) Hjob').
    intros d Hd. unfold allVals in Hd. apply in_concat in Hd.
    destruct Hd as (l & Hl & Hd). apply in_map_iff in Hl. destruct Hl as (c' & <- & Hc').
    apply in_map_iff in Hd. destruct Hd as (g' & <- & Hg').
    apply In_nth_error in Hc'. destruct Hc' as [p Hp'].
    apply In_nth_error in Hg'. destruct Hg' as [j Hj'].
    assert (p < length w)%nat as HpP by (rewrite Hlen, <- Hlen'; apply nth_error_Some; congruence).
    destruct (nth_error w p) as [c|] eqn:Ec; [|apply nth_error_None in Ec; lia].
    destruct (Hres p c Ec) as (c'' & Hc'' & _ & HlenD & Hgr).
    rewrite Hp' in Hc''. injection Hc'' as <-.
    destruct (Hsized p c Ec) as ([HlenG _] & _).
    assert (j < length (graphs_ c))%nat as Hjl
      by (rewrite HlenG, <- HlenD; apply nth_error_Some; congruence).
    destruct (nth_error (graphs_ c) j) as [g|] eqn:Eg; [|apply nth_error_None in Eg; lia].
    rewrite (Hgr j g Eg) in Hj'. injection Hj' as <-. reflexivity.
  - intros V HV.
    pose proof (@allGather_fixed_point P D total gty vty w V job HV) as Hfix.
    congruence.
Qed.

(** X13, at two processes of two devices under MPI, the device of global
    rank r holding 10r+1 .. 10r+4. *)
Lemma allGatherParams_idempotent_witness :
  exists w',
    allGatherParams rampWorld = Ok w' /\
    allGatherParams w' = Ok w' /\
    forall V, (forall d, In d (allVals rampWorld) -> d = V) -> w' = rampWorld.
Proof.
  apply (@allGatherParams_idempotent 2 2 4 float32 float32 rampWorld).
  apply rampWorld_jobOf.
Defined.

(* ------------------------------------------------------------------ *)
(** ** The two collectives act on different buffers *)

Lemma scatterReduce_allVals
      (P D total : nat) (gty vty : Type_) (w w' : World) (schedules : nat -> list nat) :
  jobOf P D total gty vty w ->
  (forall p, (p < P)%nat -> Permutation (schedules p) (seq 0 D)) ->
  scatterReduceAndResetGrads schedules w = Ok w' ->
  jobOf P D total gty vty w' /\ allVals w' = allVals w.
Proof.
  intros job Hsched Hrun.
  destruct (@scatterReduce_result P D total gty vty w schedules job Hsched)
    as (w'' & Hrun' & Hjob' & Hres).
  rewrite Hrun in Hrun'. injection Hrun' as <-.
  split; [exact Hjob'|].
  destruct (@job_parts P D total gty vty w job) as (_ & _ & _ & _ & Hlen & Hsized & _).
  destruct (@job_parts P D total gty vty w' Hjob') as (_ & _ & _ & _ & Hlen' & _).
  unfold allVals. apply concat_by_position; [lia|].
  intros p c c' Hp Hp'.
  destruct (Hres p c Hp) as (c'' & Hc'' & _ & HlenD & Hgr).
  rewrite Hp' in Hc''. injection Hc'' as <-.
  apply map_by_graph.
  - destruct (Hsized p c Hp) as ([HlenG _] & _). lia.
  - intros j g Hg. destruct (Hgr j g Hg) as (g' & Hg' & Hv & _).
    exists g'. split; [exact Hg'|]. now rewrite Hv.
Qed.

Lemma allGather_allGrads (P D total : nat) (gty vty : Type_) (w w' : World) :
  jobOf P D total gty vty w ->
  allGatherParams w = Ok w' ->
  jobOf P D total gty vty w' /\ allGrads w' = allGrads w.
Proof.
  intros job Hrun.
  destruct (@allGather_result P D total gty vty w job) as (w'' & Hrun' & Hjob' & Hres).
  rewrite Hrun in Hrun'. injection Hrun' as <-.
  split; [exact Hjob'|].
  destruct (@job_parts P D total gty vty w job) as (_ & _ & _ & _ & Hlen & Hsized & _).
  destruct (@job_parts P D total gty vty w' Hjob') as (_ & _ & _ & _ & Hlen' & _).
  unfold allGrads. apply concat_by_position; [lia|].
  intros p c c' Hp Hp'.
  destruct (Hres p c Hp) as (c'' & Hc'' & _ & HlenD & Hgr).
  rewrite Hp' in Hc''. injection Hc'' as <-.
  apply map_by_graph.
  - destruct (Hsized p c Hp) as ([HlenG _] & _). lia.
  - intros j g Hg. eexists. split; [exact (Hgr j g Hg)|]. reflexivity.
Qed.

(** X14: on a job whose size the planner accepts, the two collectives can
    be chained in either order and commute:
    [scatterReduceAndResetGrads] followed by [allGatherParams] returns the
    same world as [allGatherParams] followed by
    [scatterReduceAndResetGrads], whatever the orders in which the pools
    run the reset tasks in the two runs. *)
Theorem collectives_commute
        (P D total : nat) (gty vty : Type_) (w : World) (schedules schedules' : nat -> list nat) :
  jobOf P D total gty vty w ->
  (forall p, (p < P)%nat -> Permutation (schedules p) (seq 0 D)) ->
  (forall p, (p < P)%nat -> Permutation (schedules' p) (seq 0 D)) ->
  exists w1 w2 w3,
    scatterReduceAndResetGrads schedules w = Ok w1 /\ allGatherParams w1 = Ok w3 /\
    allGatherParams w = Ok w2 /\ scatterReduceAndResetGrads schedules' w2 = Ok w3.
Proof.
  intros job Hsched Hsched'.
  destruct (@scatterReduce_closed_form P D total gty vty w schedules job Hsched)
    as (w1 & R1 & L1 & F1).
  destruct (@scatterReduce_allVals P D total gty vty w w1 schedules job Hsched R1)
    as [J1 V1].
  destruct (@allGather_result P D total gty vty w job) as (w2 & R2 & J2 & F2).
  destruct (@allGather_allGrads P D total gty vty w w2 job R2) as [_ G2].
  destruct (@allGather_result P D total gty vty w1 J1) as (w3 & R3 & J3 & F3).
  destruct (@scatterReduce_closed_form P D total gty vty w2 schedules' J2 Hsched')
    as (w4 & R4 & L4 & F4).
  destruct (@job_parts P D total gty vty w job) as (_ & _ & _ & _ & Hlen & Hsized & _).
  destruct (@job_parts P D total gty vty w3 J3) as (_ & _ & _ & _ & L3 & _).
  exists w1, w2, w3.
  split; [exact R1|]. split; [exact R3|]. split; [exact R2|].
  rewrite R4. f_equal.
  apply nth_error_ext. intros p.
  destruct (nth_error w p) as [c|] eqn:Ec.
  - destruct (F1 p c Ec) as (c1 & Hc1 & M1 & D1 & G1).
    destruct (F2 p c Ec) as (c2 & Hc2 & M2 & D2 & G2').
    destruct (F3 p c1 Hc1) as (c3 & Hc3 & M3 & D3 & G3).
    destruct (F4 p c2 Hc2) as (c4 & Hc4 & M4 & D4 & G4).
    rewrite Hc3, Hc4. f_equal.
    destruct (Hsized p c Ec) as ([HlenG _] & _).
    assert (graphs_ c4 = graphs_ c3) as Hgraphs.
    { apply nth_error_ext. intros j.
      destruct (nth_error (graphs_ c) j) as [g|] eqn:Eg.
      - pose proof (G1 j) as E1. rewrite Eg in E1. cbn [option_map] in E1.
        rewrite (G3 j _ E1).
        pose proof (G2' j g Eg) as E2.
        rewrite (G4 j), E2. cbn [option_map grads vals type data].
        now rewrite V1, G2.
      - apply nth_error_None in Eg.
        assert (nth_error (graphs_ c4) j = None) as -> by (apply nth_error_None; lia).
        symmetry. apply nth_error_None. lia. }
    destruct c4 as [gs4 m4], c3 as [gs3 m3]. simpl in *. congruence.
  - apply nth_error_None in Ec.
    assert (nth_error w4 p = None) as -> by (apply nth_error_None; lia).
    symmetry. apply nth_error_None. lia.
Qed.

(** X14, at two processes of two devices under MPI, the device of global
    rank r holding 10r+1 .. 10r+4. *)
Lemma collectives_commute_witness :
  exists w1 w2 w3,
    scatterReduceAndResetGrads (fun _ => [1; 0]%nat) rampWorld = Ok w1 /\
    allGatherParams w1 = Ok w3 /\
    allGatherParams rampWorld = Ok w2 /\
    scatterReduceAndResetGrads (fun _ => [0; 1]%nat) w2 = Ok w3.
Proof.
  apply (@collectives_commute 2 2 4 float32 float32 rampWorld
           (fun _ => [1; 0]%nat) (fun _ => [0; 1]%nat)).
  - apply rampWorld_jobOf.
  - intros p _. apply perm_swap.
  - intros p _. apply Permutation_refl.
Defined.

(* ------------------------------------------------------------------ *)
(** ** The version string *)

(** X15: for a release number major.minor.patch with minor below 10 and
    patch below 100, the string [ncclVersionString] makes of the number
    the macro [ncclGetVersion] stores reads major, minor and patch back,
    separated by dots; the macro's encoding has one decimal digit for the
    minor number, so NCCL 2.10.3 is reported as 3.0.3. *)
Theorem ncclVersionString_decodes (major minor patch : Z) :
  0 <= major -> 0 <= minor < 10 -> 0 <= patch < 100 ->
  ncclVersionString (ncclGetVersion major minor patch)
    = ((((to_string major ++ ".") ++ to_string minor) ++ ".") ++ to_string patch)%string /\
  ncclVersionString (ncclGetVersion 2 3 5) = "2.3.5"%string /\
  ncclVersionString (ncclGetVersion 2 10 3) = "3.0.3"%string.
Proof.
  intros HM Hm Hp. split; [|split; reflexivity].
  unfold ncclVersionString, ncclGetVersion.
  rewrite !Z.quot_div_nonneg, !Z.rem_mod_nonneg by (try apply Z.div_pos; lia).
  assert ((major * 1000 + minor * 100 + patch) / 1000 = major) as ->
    by (symmetry; apply (Z.div_unique _ _ _ (minor * 100 + patch)); lia).
  assert ((major * 1000 + minor * 100 + patch) / 100 = major * 10 + minor) as ->
    by (symmetry; apply (Z.div_unique _ _ _ patch); lia).
  assert ((major * 10 + minor) mod 10 = minor) as ->
    by (symmetry; apply (Z.mod_unique _ _ major); lia).
  assert ((major * 1000 + minor * 100 + patch) mod 100 = patch) as ->
    by (symmetry; apply (Z.mod_unique _ _ (major * 10 + minor)); lia).
  reflexivity.
Qed.

(** X15, at NCCL 2.4.8. *)
Lemma ncclVersionString_decodes_witness :
  ncclVersionString (ncclGetVersion 2 4 8)
    = ((((to_string 2 ++ ".") ++ to_string 4) ++ ".") ++ to_string 8)%string /\
  ncclVersionString (ncclGetVersion 2 3 5) = "2.3.5"%string /\
  ncclVersionString (ncclGetVersion 2 10 3) = "3.0.3"%string.
Proof.
  apply (@ncclVersionString_decodes 2 4 8); lia.
Defined.

(* ------------------------------------------------------------------ *)
(** ** The constructor *)

Lemma mapM_abort_in {A B : Type} (f : A -> outcome B) (msg : string) (l : list A) (x : A) :
  (forall y, In y l -> f y = Abort msg \/ exists b, f y = Ok b) ->
  In x l -> f x = Abort msg -> mapM f l = Abort msg.
Proof.
  induction l as [|a l IH]; intros Hall Hin Hx; [destruct Hin|].
  simpl. destruct (Hall a (or_introl eq_refl)) as [-> | [b Hb]]; [reflexivity|].
  rewrite Hb. simpl.
  destruct Hin as [-> | Hin]; [congruence|].
  rewrite IH; [reflexivity| |assumption|assumption].
  intros y Hy. apply Hall. now right.
Qed.

Lemma to_int_small (z : Z) : 0 <= z < 2 ^ 31 -> to_int z = z.
Proof. intros H. unfold to_int. rewrite Z.mod_small; lia. Qed.

(** X16: the constructor ends in the fatal error "NCCL communicator can
    only be used with GPUs" when one of the graphs is not on a GPU,
    whatever else it is given, before any signal is blocked or any handle
    initialised.  When all graphs are on GPUs it returns: the communicator
    holds the graphs and the MPI wrapper, [devices_] lists the device
    numbers in graph order, one handle per local device is initialised
    with [numNcclRanks] as the group size and [myNcclRank] of the device
    as its rank, and SIGPROF has been added to both signal masks. *)
Theorem constructor_requires_gpus
        (graphs : list (ExpressionGraph * DeviceId)) (mpi : option IMPIWrapper)
        (ncclVersion : Z) (generated root : ncclUniqueId) (st : SignalState) :
  ((exists gd, In gd graphs /\ DeviceId_type (snd gd) <> gpu) ->
   NCCLCommunicator_ctor graphs mpi ncclVersion generated root st
     = Abort "NCCL communicator can only be used with GPUs") /\
  ((forall gd, In gd graphs -> DeviceId_type (snd gd) = gpu) ->
   exists r,
     NCCLCommunicator_ctor graphs mpi ncclVersion generated root st = Ok r /\
     this r = mkComm (map fst graphs) mpi /\
     devices_ r = map (fun gd => to_int (DeviceId_no (snd gd))) graphs /\
     ((forall gd, In gd graphs -> 0 <= DeviceId_no (snd gd) < 2 ^ 31) ->
      devices_ r = map (fun gd => DeviceId_no (snd gd)) graphs) /\
     map handleOf (inits r) = map (comms_ (this r)) (indices (length graphs)) /\
     masks r = mkSignals (Z.lor (threadMask st) (sigaddset sigemptyset SIG_BAD))
                         (Z.lor (procMask st) (sigaddset sigemptyset SIG_BAD))).
Proof.
  split.
  - intros (gd & Hin & Hty). unfold NCCLCommunicator_ctor. cbv zeta.
    rewrite (@mapM_abort_in _ _ _ "NCCL communicator can only be used with GPUs" graphs gd);
      [reflexivity| |exact Hin|].
    + intros y _. destruct (DeviceId_type (snd y)); cbn; [right; eexists; reflexivity|now left].
    + destruct (DeviceId_type (snd gd)); [congruence|reflexivity].
  - intros Hall. unfold NCCLCommunicator_ctor. cbv zeta.
    rewrite (@mapM_ok _ _ _ (fun gd => to_int (DeviceId_no (snd gd))) graphs).
    2:{ intros gd Hgd. now rewrite (Hall gd Hgd). }
    cbn [bind]. rewrite guardedInit_masks. cbn [bind].
    eexists. split; [reflexivity|]. cbn [this devices_ inits masks].
    split; [reflexivity|]. split; [reflexivity|].
    split; [|split; [|reflexivity]].
    + intros Hsmall. apply map_ext_in. intros gd Hgd. apply to_int_small. now apply Hsmall.
    + rewrite length_map, map_map. reflexivity.
Qed.

(** The constructor on process [p] of a job of [P] processes with [D]
    GPUs each. *)
Lemma ctor_of_process (P D p : nat) (graphs : list (ExpressionGraph * DeviceId))
      (mpi : option IMPIWrapper) (ncclVersion : Z) (generated : nat -> ncclUniqueId)
      (st : SignalState) :
  length graphs = D ->
  (forall gd, In gd graphs -> DeviceId_type (snd gd) = gpu) ->
  mpi = Some (mkMPI (Z.of_nat p) (Z.of_nat P)) \/ (mpi = None /\ P = 1%nat /\ p = 0%nat) ->
  (p < P)%nat -> Z.of_nat (P * D) < SIZE_MODULUS ->
  exists r,
    NCCLCommunicator_ctor graphs mpi ncclVersion (generated p) (generated 0%nat) st = Ok r /\
    inits r = map (fun i => mkCommInitRank (Z.of_nat (P * D)) (generated 0%nat)
                                           (Z.of_nat (p * D + i)))
                  (seq 0 D).
Proof.
  intros HlenD Hgpu Hmpi Hp Hfit.
  assert (processOf P D p (mkComm (map fst graphs) mpi)) as Hproc.
  { split; [cbn; now rewrite length_map|exact Hmpi]. }
  destruct (process_ranks Hproc Hp Hfit) as [Hnum Hrank].
  unfold NCCLCommunicator_ctor. cbv zeta.
  rewrite (@mapM_ok _ _ _ (fun gd => to_int (DeviceId_no (snd gd))) graphs).
  2:{ intros gd Hgd. now rewrite (Hgpu gd Hgd). }
  cbn [bind]. rewrite guardedInit_masks. cbn [bind].
  eexists. split; [reflexivity|]. cbn [inits].
  rewrite length_map, HlenD, Hnum. unfold indices. rewrite map_map.
  apply map_ext_in. intros i Hi. apply in_seq in Hi.
  rewrite Hrank by lia. f_equal; [|lia].
  destruct Hmpi as [-> | (-> & _ & ->)].
  - unfold ctor_uniqueId, bCast_bytes. cbn [myMPIRank].
    destruct (Z.eqb_spec 0 (Z.of_nat p)) as [E|E].
    + assert (p = 0)%nat as -> by lia. reflexivity.
    + reflexivity.
  - reflexivity.
Qed.

(** X17: when the constructor runs on the P processes of a job with D
    GPUs each (P*D within [size_t]), with or without MPI, every handle of
    every process is initialised with one and the same token, the one
    [ncclGetUniqueId] gave the first process, whatever the library would
    have given the others; with P*D as the group size; and with ranks
    that are, process by process and device by device, 0 .. P*D-1. *)
Theorem rendezvous_token_shared
        (P D : nat) (launch : list (list (ExpressionGraph * DeviceId) * option IMPIWrapper))
        (ncclVersion : Z) (generated : nat -> ncclUniqueId) (st : SignalState) :
  length launch = P -> (0 < P)%nat -> Z.of_nat (P * D) < SIZE_MODULUS ->
  (forall p l, nth_error launch p = Some l ->
     length (fst l) = D /\
     (forall gd, In gd (fst l) -> DeviceId_type (snd gd) = gpu) /\
     (snd l = Some (mkMPI (Z.of_nat p) (Z.of_nat P))
      \/ (snd l = None /\ P = 1%nat /\ p = 0%nat))) ->
  exists cs,
    constructAll launch ncclVersion generated st = Ok cs /\
    length cs = P /\
    concat (map inits cs)
      = map (fun r => mkCommInitRank (Z.of_nat (P * D)) (generated 0%nat) (Z.of_nat r))
            (seq 0 (P * D)).
Proof.
  intros Hlen HP Hfit Hlaunch.
  unfold constructAll.
  assert ((match launch with
           | [] => []
           | l0 :: _ => ctor_uniqueId (snd l0) (generated 0%nat)
           end) = generated 0%nat) as ->.
  { destruct launch as [|l0 rest]; [simpl in Hlen; lia|].
    destruct (Hlaunch 0%nat l0 eq_refl) as (_ & _ & [-> | (-> & _)]); reflexivity. }
  set (R := fun (pl : nat * (list (ExpressionGraph * DeviceId) * option IMPIWrapper))
                (r : Constructed) =>
              inits r = map (fun i => mkCommInitRank (Z.of_nat (P * D)) (generated 0%nat)
                                                     (Z.of_nat (fst pl * D + i)))
                            (seq 0 D)).
  match goal with
  | |- exists cs, mapM ?f ?l = Ok cs /\ _ =>
      destruct (@mapM_exists _ _ f R l) as (cs & Hrun & Hall)
  end.
  { intros [p l] Hin. apply In_nth_error in Hin. destruct Hin as [n Hn].
    rewrite nth_error_positions in Hn.
    destruct (nth_error launch n) as [l'|] eqn:El; [|discriminate].
    simpl in Hn. injection Hn as <- <-.
    destruct (Hlaunch n l' El) as (HlenD & Hgpu & Hmpi).
    assert (n < P)%nat as HnP by (rewrite <- Hlen; apply nth_error_Some; congruence).
    cbn [fst snd].
    apply (@ctor_of_process P D n (fst l') (snd l') ncclVersion generated st
             HlenD Hgpu Hmpi HnP Hfit). }
  exists cs. split; [exact Hrun|].
  assert (length cs = P) as Hcs
    by (rewrite <- (Forall2_length Hall), length_combine, length_seq; lia).
  split; [exact Hcs|].
  rewrite <- (concat_blocks (fun r => mkCommInitRank (Z.of_nat (P * D)) (generated 0%nat)
                                                   (Z.of_nat r)) P D).
  f_equal. replace (seq 0 P) with (seq 0 (length cs)) by (now rewrite Hcs).
  apply map_by_position. intros p r Hp. cbn [Nat.add].
  assert (p < length launch)%nat as HpP by (rewrite Hlen, <- Hcs; apply nth_error_Some; congruence).
  destruct (nth_error launch p) as [l|] eqn:El; [|apply nth_error_None in El; lia].
  assert (nth_error (combine (seq 0 (length launch)) launch) p = Some (p, l)) as Hpl
    by (rewrite nth_error_positions, El; reflexivity).
  destruct (Forall2_at Hall _ Hpl) as (r' & Hr' & HR).
  rewrite Hp in Hr'. injection Hr' as <-.
  exact HR.
Qed.

(** X17, at two processes of two GPUs under MPI, the library offering the
    token of 128 bytes 01 to the first process and 02 to the second. *)
Lemma rendezvous_token_shared_witness :
  exists cs,
    constructAll (gpuLaunch 2 2 4) 2305
                 (fun p => repeat (if (p =? 0)%nat then Byte.x01 else Byte.x02) 128)
                 (mkSignals 0 0) = Ok cs /\
    length cs = 2%nat /\
    concat (map inits cs)
      = map (fun r => mkCommInitRank (Z.of_nat (2 * 2)) (repeat Byte.x01 128) (Z.of_nat r))
            (seq 0 (2 * 2)).
Proof.
  apply (@rendezvous_token_shared 2 2 (gpuLaunch 2 2 4) 2305
           (fun p => repeat (if (p =? 0)%nat then Byte.x01 else Byte.x02) 128)
           (mkSignals 0 0)).
  - reflexivity.
  - lia.
  - reflexivity.
  - intros p l Hp. destruct p as [|[|p]]; simpl in Hp.
    + injection Hp as <-. split; [reflexivity|]. split; [|now left].
      intros gd [<-|[<-|[]]]; reflexivity.
    + injection Hp as <-. split; [reflexivity|]. split; [|now left].
      intros gd [<-|[<-|[]]]; reflexivity.
    + destruct p; discriminate.
Defined.

(* ================================================================== *)
(** * Properties of the logging set-up *)

(* ------------------------------------------------------------------ *)
(** ** [setLoggingLevel] *)

Lemma c_str_no_nul (s : string) : has_nul s = false -> c_str s = s.
Proof.
  induction s as [|a s IH]; [reflexivity|].
  cbn [has_nul c_str]. destruct (Ascii.eqb a Ascii.zero); [discriminate|].
  cbn [orb]. intros H. now rewrite IH.
Qed.

Lemma setLoggingLevel_cases (lg : logger) (level : string) :
  (exists l, In level ["trace"; "debug"; "info"; "warn"; "err"; "error"; "critical"; "off"]%string
             /\ levelOfName level = Some l
             /\ setLoggingLevel lg level = (set_level lg l, true))
  \/ (~ In level ["trace"; "debug"; "info"; "warn"; "err"; "error"; "critical"; "off"]%string
      /\ levelOfName level = None
      /\ setLoggingLevel lg level
           = (logger_warn_call lg
                (((("Unknown log level '" ++ c_str level) ++ "' for logger '")
                    ++ c_str (logger_name lg)) ++ "'")%string,
              false)).
Proof.
  unfold setLoggingLevel, levelOfName, levelNames. cbn [find fst].
  rewrite !(String.eqb_sym _ level).
  destruct (String.eqb_spec level "trace") as [->|N1];
    [left; exists trace; repeat split; simpl; auto 10|].
  destruct (String.eqb_spec level "debug") as [->|N2];
    [left; exists debug; repeat split; simpl; auto 10|].
  destruct (String.eqb_spec level "info") as [->|N3];
    [left; exists info; repeat split; simpl; auto 10|].
  destruct (String.eqb_spec level "warn") as [->|N4];
    [left; exists warn; repeat split; simpl; auto 10|].
  destruct (String.eqb_spec level "err") as [->|N5];
    [left; exists err; repeat split; simpl; auto 10|].
  destruct (String.eqb_spec level "error") as [->|N6];
    [left; exists err; repeat split; simpl; auto 10|].
  destruct (String.eqb_spec level "critical") as [->|N7];
    [left; exists critical; repeat split; simpl; auto 10|].
  destruct (String.eqb_spec level "off") as [->|N8];
    [left; exists off; repeat split; simpl; auto 10|].
  right. split; [|split; reflexivity].
  simpl. intuition congruence.
Qed.

(** X18: [setLoggingLevel] returns [true] exactly for the eight names
    trace, debug, info, warn, err, error, critical and off (compared as
    whole strings, "err" and "error" both naming the level [err]), and
    then sets the level of that name and warns of nothing; for any other
    string it returns [false], leaves the level as it was and passes one
    warning to the logger, which quotes the string and the logger's name
    as C strings, that is up to their first NUL: the whole string where it
    holds no NUL, and only "a" for the level made of a, NUL and b.  In
    either case the logger's name, sinks and pattern stay. *)
Theorem setLoggingLevel_known_names (lg : logger) (level : string) :
  (snd (setLoggingLevel lg level) = true <->
   In level ["trace"; "debug"; "info"; "warn"; "err"; "error"; "critical"; "off"]%string) /\
  (forall l, levelOfName level = Some l ->
     setLoggingLevel lg level = (set_level lg l, true)) /\
  (levelOfName level = None ->
     setLoggingLevel lg level
       = (logger_warn_call lg
            (((("Unknown log level '" ++ c_str level) ++ "' for logger '")
                ++ c_str (logger_name lg)) ++ "'")%string,
          false)) /\
  (has_nul level = false -> c_str level = level) /\
  (has_nul (logger_name lg) = false -> c_str (logger_name lg) = logger_name lg) /\
  setLoggingLevel (mkLogger "general" [] "%+" info [])
                  ("a" ++ String Ascii.zero "b")%string
    = (mkLogger "general" [] "%+" info ["Unknown log level 'a' for logger 'general'"%string],
       false) /\
  levelOfName "err" = levelOfName "error" /\
  logger_name (fst (setLoggingLevel lg level)) = logger_name lg /\
  logger_sinks (fst (setLoggingLevel lg level)) = logger_sinks lg /\
  logger_pattern (fst (setLoggingLevel lg level)) = logger_pattern lg.
Proof.
  destruct (setLoggingLevel_cases lg level) as [(l & Hin & Hl & ->) | (Hnot & Hl & ->)];
    cbn [fst snd set_level logger_warn_call logger_name logger_sinks logger_pattern].
  - split; [tauto|]. split; [intros l' E; congruence|].
    split; [intros E; congruence|].
    split; [apply c_str_no_nul|]. split; [apply c_str_no_nul|]. repeat split.
  - split; [split; [discriminate|tauto]|]. split; [intros l' E; congruence|].
    split; [reflexivity|].
    split; [apply c_str_no_nul|]. split; [apply c_str_no_nul|]. repeat split.
Qed.

(* ------------------------------------------------------------------ *)
(** ** The registry *)

Lemma spdlog_get_none (name : string) (reg : list logger) :
  spdlog_get name reg = None ->
  forall lg, In lg reg -> (logger_name lg =? name)%string = false.
Proof.
  intros H lg Hlg. unfold spdlog_get in H.
  exact (find_none _ _ H lg Hlg).
Qed.

Lemma spdlog_get_app (name : string) (reg l : list logger) :
  spdlog_get name reg = None -> spdlog_get name (reg ++ l) = spdlog_get name l.
Proof.
  unfold spdlog_get. induction reg as [|lg reg IH]; intros H; [reflexivity|].
  simpl in *. destruct (logger_name lg =? name)%string; [discriminate|]. now apply IH.
Qed.

Lemma update_logger_absent (name : string) (f : logger -> logger) (reg : list logger) :
  spdlog_get name reg = None -> update_logger name f reg = reg.
Proof.
  intros H. unfold update_logger. rewrite <- (map_id reg) at 2.
  apply map_ext_in. intros lg Hlg. now rewrite (spdlog_get_none _ _ H lg Hlg).
Qed.

Lemma update_logger_last (name : string) (f : logger -> logger) (reg l : list logger) :
  spdlog_get name reg = None ->
  update_logger name f (reg ++ l) = reg ++ update_logger name f l.
Proof.
  intros H. unfold update_logger at 1. rewrite map_app.
  fold (update_logger name f reg). fold (update_logger name f l).
  now rewrite update_logger_absent.
Qed.

Lemma file_sinks_ok (openable : string -> bool) (files : list string) :
  (forall f, In f files -> openable f = true) ->
  forall made sinks,
    fold_left (fun (acc : thrown (nat * list sink)) file =>
                 st <~ acc ;;
                 if openable file
                 then Returns (S (fst st),
                               snd st ++ [simple_file_sink_st (fst st) file true])
                 else Throws)
              files (Returns (made, sinks))
    = Returns ((made + length files)%nat, sinks ++ fileSinks made files).
Proof.
  induction files as [|f files IH]; intros Hopen made sinks; simpl.
  - now rewrite app_nil_r, Nat.add_0_r.
  - rewrite (Hopen f (or_introl eq_refl)).
    rewrite IH by (intros; apply Hopen; now right).
    rewrite <- app_assoc. simpl. f_equal. f_equal. lia.
Qed.

(** A logger of a new name, with files that can be opened. *)
Lemma stderrLogger_ok (name pattern : string) (files : list string) (quiet : bool)
      (openable : string -> bool) (env : LogEnv) :
  spdlog_get name (registry env) = None ->
  (forall f, In f files -> openable f = true) ->
  stderrLogger name pattern files quiet openable env
    = Returns (mkLogEnv (registry env
                           ++ [mkLogger name (sinksOf quiet (sinks_made env) files)
                                        pattern info []])
                        (TZ env) (sinks_made env + length files)).
Proof.
  intros Hnew Hopen. unfold stderrLogger. cbv zeta.
  rewrite (file_sinks_ok openable files Hopen). cbn [tbind fst snd].
  unfold register_logger. cbn [logger_name]. rewrite Hnew. cbn [tbind].
  rewrite update_logger_last by exact Hnew.
  unfold update_logger. cbn [map logger_name]. rewrite String.eqb_refl.
  unfold sinksOf, set_pattern. cbn [logger_name logger_sinks logger_level logger_warn].
  now destruct quiet.
Qed.

Lemma setLoggingLevel_name (lg : logger) (level : string) :
  logger_name (fst (setLoggingLevel lg level)) = logger_name lg.
Proof.
  destruct (setLoggingLevel_cases lg level) as [(l & _ & _ & ->) | (_ & _ & ->)]; reflexivity.
Qed.

(** What [createLoggers] leaves when the two names are new, [quiet] can be
    read and the files can be opened. *)
Lemma createLoggers_ok (options : option Config) (openable : string -> bool) (env : LogEnv)
      (q : bool) :
  quietOf options = Some q ->
  spdlog_get "general" (registry env) = None ->
  spdlog_get "valid" (registry env) = None ->
  (forall f, In f (validLogFiles options) -> openable f = true) ->
  createLoggers options openable env =
    Returns
      (let general := mkLogger "general" (sinksOf q (sinks_made env) (logFiles options))
                               "[%Y-%m-%d %T] %v" info [] in
       let valid := mkLogger "valid"
                             (sinksOf q (sinks_made env + length (logFiles options))
                                      (validLogFiles options))
                             "[%Y-%m-%d %T] [valid] %v" info [] in
       let made := (sinks_made env + length (logFiles options)
                    + length (validLogFiles options))%nat in
       match logLevelOf options with
       | None => mkLogEnv (registry env ++ [general; valid]) (timeZoneOf options (TZ env)) made
       | Some loglevel =>
           if snd (setLoggingLevel general loglevel)
           then mkLogEnv (registry env ++ [fst (setLoggingLevel general loglevel);
                                           fst (setLoggingLevel valid loglevel)])
                         (timeZoneOf options (TZ env)) made
           else mkLogEnv (registry env ++ [fst (setLoggingLevel general loglevel); valid])
                         (TZ env) made
       end).
Proof.
  intros Hq Hg Hv Hopen. cbv zeta.
  set (general := mkLogger "general" (sinksOf q (sinks_made env) (logFiles options))
                           "[%Y-%m-%d %T] %v" info []).
  set (valid := mkLogger "valid"
                         (sinksOf q (sinks_made env + length (logFiles options))
                                  (validLogFiles options))
                         "[%Y-%m-%d %T] [valid] %v" info []).
  set (made := (sinks_made env + length (logFiles options)
                + length (validLogFiles options))%nat).
  assert (forall files1 files2 (k : LogEnv -> thrown LogEnv),
            files1 = logFiles options -> files2 = validLogFiles options ->
            (e <~ stderrLogger "general" "[%Y-%m-%d %T] %v" files1 q openable env ;;
             e <~ stderrLogger "valid" "[%Y-%m-%d %T] [valid] %v" files2 q openable e ;;
             k e)
            = k (mkLogEnv (registry env ++ [general; valid]) (TZ env) made)) as Hboth.
  { intros files1 files2 k -> ->.
    rewrite stderrLogger_ok; [|exact Hg|].
    2:{ intros f Hf. apply Hopen. unfold validLogFiles. apply in_or_app. now left. }
    cbn [tbind].
    rewrite stderrLogger_ok;
      [|cbn [registry]; rewrite spdlog_get_app by exact Hv; reflexivity|exact Hopen].
    cbn [tbind registry TZ sinks_made]. now rewrite <- app_assoc. }
  assert (forall loglevel,
            setLoggingLevel_of "general" loglevel (registry env ++ [general; valid])
              = (registry env ++ [fst (setLoggingLevel general loglevel); valid],
                 snd (setLoggingLevel general loglevel))) as Hgen.
  { intros loglevel. unfold setLoggingLevel_of.
    rewrite spdlog_get_app by exact Hg.
    unfold spdlog_get. cbn [find general logger_name]. rewrite String.eqb_refl.
    rewrite update_logger_last by exact Hg.
    reflexivity. }
  assert (forall loglevel,
            fst (setLoggingLevel_of "valid" loglevel
                   (registry env ++ [fst (setLoggingLevel general loglevel); valid]))
              = registry env ++ [fst (setLoggingLevel general loglevel);
                                 fst (setLoggingLevel valid loglevel)]) as Hval.
  { intros loglevel. unfold setLoggingLevel_of.
    rewrite spdlog_get_app by exact Hv.
    unfold spdlog_get. cbn [find]. rewrite setLoggingLevel_name.
    cbn [general valid logger_name].
    assert (("general" =? "valid")%string = false) as -> by reflexivity.
    rewrite String.eqb_refl. cbn [fst].
    rewrite update_logger_last by exact Hv.
    unfold update_logger. cbn [map]. rewrite setLoggingLevel_name.
    cbn [general valid logger_name].
    assert (("general" =? "valid")%string = false) as -> by reflexivity.
    now rewrite String.eqb_refl. }
  unfold createLoggers.
  destruct options as [[olog ovalid oquiet olevel otz]|];
    cbn [quietOf opt_quiet] in Hq; [subst oquiet|injection Hq as <-];
    cbn [opt_log opt_valid_log opt_quiet opt_log_level opt_log_time_zone
         logLevelOf timeZoneOf tbind app].
  - assert (forall loglevel' (e : LogEnv),
              e = mkLogEnv (registry env ++ [general; valid]) (TZ env) made ->
              (let reg := registry e in
               let levelled :=
                 match loglevel' with
                 | Some loglevel =>
                     let '(reg1, ok) := setLoggingLevel_of "general" loglevel reg in
                     if negb ok then (reg1, false)
                     else (fst (setLoggingLevel_of "valid" loglevel reg1), true)
                 | None => (reg, true)
                 end in
               if negb (snd levelled)
               then Returns (mkLogEnv (fst levelled) (TZ e) (sinks_made e)) else
               Returns (mkLogEnv (fst levelled)
                          match otz with
                          | Some timezone => if negb (timezone =? EmptyString)%string
                                             then Some (c_str timezone) else TZ e
                          | None => TZ e
                          end
                          (sinks_made e)))
              = Returns
                  match loglevel' with
                  | Some loglevel =>
                      if snd (setLoggingLevel general loglevel)
                      then mkLogEnv (registry env ++ [fst (setLoggingLevel general loglevel);
                                                      fst (setLoggingLevel valid loglevel)])
                                    match otz with
                                    | Some timezone => if (timezone =? EmptyString)%string
                                                       then TZ env else Some (c_str timezone)
                                    | None => TZ env
                                    end
                                    made
                      else mkLogEnv (registry env
                                       ++ [fst (setLoggingLevel general loglevel); valid])
                                    (TZ env) made
                  | None => mkLogEnv (registry env ++ [general; valid])
                                     match otz with
                                     | Some timezone => if (timezone =? EmptyString)%string
                                                        then TZ env else Some (c_str timezone)
                                     | None => TZ env
                                     end
                                     made
                  end) as Hrest.
    { intros [loglevel|] e ->; cbv zeta; cbn [registry TZ sinks_made].
      - rewrite Hgen. destruct (snd (setLoggingLevel general loglevel)) eqn:Eok;
          cbn [negb fst snd]; [rewrite Hval|]; cbn [negb fst snd];
          [destruct otz as [tz|]; [destruct (tz =? EmptyString)%string|]|]; reflexivity.
      - cbn [negb fst snd]. destruct otz as [tz|]; [destruct (tz =? EmptyString)%string|]; reflexivity. }
    destruct olog as [f|], ovalid as [f'|]; try destruct (f' =? EmptyString)%string eqn:Ef;
      cbn [negb app];
      (rewrite Hboth;
       [apply Hrest; reflexivity
       | unfold logFiles; reflexivity
       | unfold validLogFiles, logFiles; cbn [opt_log opt_valid_log app];
         rewrite ?Ef; rewrite ?app_nil_r; reflexivity]).
  - rewrite (Hboth [] [] _ eq_refl eq_refl). reflexivity.
Qed.

Lemma setLoggingLevel_keeps (lg : logger) (level : string) :
  logger_name (fst (setLoggingLevel lg level)) = logger_name lg /\
  logger_sinks (fst (setLoggingLevel lg level)) = logger_sinks lg /\
  logger_pattern (fst (setLoggingLevel lg level)) = logger_pattern lg.
Proof.
  destruct (setLoggingLevel_cases lg level) as [(l & _ & _ & ->) | (_ & _ & ->)];
    repeat split.
Qed.

(* ------------------------------------------------------------------ *)
(** ** [createLoggers] *)

Lemma fileSinks_In (start : nat) (files : list string) (s : sink) :
  In s (fileSinks start files) ->
  exists k f, s = simple_file_sink_st k f true /\ (start <= k < start + length files)%nat.
Proof.
  revert start. induction files as [|f files IH]; intros start H; [destruct H|].
  destruct H as [<- | H].
  - exists start, f. split; [reflexivity|]. simpl. lia.
  - destruct (IH _ H) as (k & f' & -> & Hk). exists k, f'. split; [reflexivity|].
    simpl. lia.
Qed.

Lemma sinkFiles_fileSinks (start : nat) (files : list string) :
  sinkFiles (fileSinks start files) = files.
Proof.
  revert start. induction files as [|f files IH]; intros start; [reflexivity|].
  unfold sinkFiles in *. simpl. now rewrite IH.
Qed.

Lemma sinkFiles_sinksOf (q : bool) (start : nat) (files : list string) :
  sinkFiles (sinksOf q start files) = files.
Proof.
  unfold sinksOf. destruct q; [apply sinkFiles_fileSinks|].
  unfold sinkFiles. simpl. apply sinkFiles_fileSinks.
Qed.

Lemma stderr_in_sinksOf (q : bool) (start : nat) (files : list string) :
  In stderr_sink_mt (sinksOf q start files) <-> q = false.
Proof.
  unfold sinksOf. rewrite in_app_iff.
  split.
  - intros [H | H].
    + destruct q; [destruct H|reflexivity].
    + apply fileSinks_In in H. destruct H as (k & f & E & _). discriminate.
  - intros ->. left. now left.
Qed.

(** The file sinks of two loggers made one after the other are different
    objects. *)
Lemma sinksOf_shared (q : bool) (start : nat) (files files' : list string) (s : sink) :
  In s (sinksOf q start files) -> In s (sinksOf q (start + length files) files') ->
  s = stderr_sink_mt.
Proof.
  unfold sinksOf. rewrite !in_app_iff.
  intros [H | H] [H' | H'].
  - destruct q; [destruct H|]. destruct H as [<- | []]. reflexivity.
  - destruct q; [destruct H|]. destruct H as [<- | []]. reflexivity.
  - destruct q; [destruct H'|]. destruct H' as [<- | []]. reflexivity.
  - apply fileSinks_In in H. apply fileSinks_In in H'.
    destruct H as (k & f & -> & Hk). destruct H' as (k' & f' & E & Hk').
    injection E as -> _. lia.
Qed.

(** X19: when no logger named general or valid is registered yet, [quiet]
    can be read and the log files can be opened, [createLoggers] returns
    and registers, after the loggers there were, the logger "general" and
    then the logger "valid".  Both write to stderr exactly when [quiet] is
    not set; the general logger also writes to the file of option "log",
    the validation logger to that file and then to the file of option
    "valid-log" when that is not the empty string, every file sink with
    the truncate flag.  Every file sink is a new object: the file of
    option "log" is opened twice, once for each logger, and the only sink
    the two loggers share is the stderr sink; every file the general
    logger writes to is a file of the validation logger.  The two patterns
    are "[%Y-%m-%d %T] %v" and "[%Y-%m-%d %T] [valid] %v". *)
Theorem createLoggers_sinks (options : option Config) (openable : string -> bool)
        (env : LogEnv) (q : bool) :
  quietOf options = Some q ->
  spdlog_get "general" (registry env) = None ->
  spdlog_get "valid" (registry env) = None ->
  (forall f, In f (validLogFiles options) -> openable f = true) ->
  exists env' general valid,
    createLoggers options openable env = Returns env' /\
    registry env' = registry env ++ [general; valid] /\
    sinks_made env'
      = (sinks_made env + length (logFiles options) + length (validLogFiles options))%nat /\
    spdlog_get "general" (registry env') = Some general /\
    spdlog_get "valid" (registry env') = Some valid /\
    logger_sinks general = sinksOf q (sinks_made env) (logFiles options) /\
    logger_sinks valid
      = sinksOf q (sinks_made env + length (logFiles options)) (validLogFiles options) /\
    logger_pattern general = "[%Y-%m-%d %T] %v"%string /\
    logger_pattern valid = "[%Y-%m-%d %T] [valid] %v"%string /\
    sinkFiles (logger_sinks general) = logFiles options /\
    sinkFiles (logger_sinks valid) = validLogFiles options /\
    (forall f, In f (sinkFiles (logger_sinks general)) ->
               In f (sinkFiles (logger_sinks valid))) /\
    (forall s, In s (logger_sinks general) -> In s (logger_sinks valid) ->
               s = stderr_sink_mt) /\
    (In stderr_sink_mt (logger_sinks general) <-> q = false) /\
    (In stderr_sink_mt (logger_sinks valid) <-> q = false).
Proof.
  intros Hq Hg Hv Hopen.
  rewrite (createLoggers_ok options openable env Hq Hg Hv Hopen). cbv zeta.
  set (general := mkLogger "general" (sinksOf q (sinks_made env) (logFiles options))
                           "[%Y-%m-%d %T] %v" info []).
  set (valid := mkLogger "valid"
                         (sinksOf q (sinks_made env + length (logFiles options))
                                  (validLogFiles options))
                         "[%Y-%m-%d %T] [valid] %v" info []).
  set (made := (sinks_made env + length (logFiles options)
                + length (validLogFiles options))%nat).
  assert (forall g v tz,
            logger_name g = "general"%string -> logger_name v = "valid"%string ->
            logger_sinks g = sinksOf q (sinks_made env) (logFiles options) ->
            logger_sinks v
              = sinksOf q (sinks_made env + length (logFiles options))
                        (validLogFiles options) ->
            logger_pattern g = "[%Y-%m-%d %T] %v"%string ->
            logger_pattern v = "[%Y-%m-%d %T] [valid] %v"%string ->
            exists env' general valid,
              Returns (mkLogEnv (registry env ++ [g; v]) tz made) = Returns env' /\
              registry env' = registry env ++ [general; valid] /\
              sinks_made env' = made /\
              spdlog_get "general" (registry env') = Some general /\
              spdlog_get "valid" (registry env') = Some valid /\
              logger_sinks general = sinksOf q (sinks_made env) (logFiles options) /\
              logger_sinks valid
                = sinksOf q (sinks_made env + length (logFiles options))
                          (validLogFiles options) /\
              logger_pattern general = "[%Y-%m-%d %T] %v"%string /\
              logger_pattern valid = "[%Y-%m-%d %T] [valid] %v"%string /\
              sinkFiles (logger_sinks general) = logFiles options /\
              sinkFiles (logger_sinks valid) = validLogFiles options /\
              (forall f, In f (sinkFiles (logger_sinks general)) ->
                         In f (sinkFiles (logger_sinks valid))) /\
              (forall s, In s (logger_sinks general) -> In s (logger_sinks valid) ->
                         s = stderr_sink_mt) /\
              (In stderr_sink_mt (logger_sinks general) <-> q = false) /\
              (In stderr_sink_mt (logger_sinks valid) <-> q = false)) as Hshape.
  { intros g v tz Ng Nv Sg Sv Pg Pv.
    exists (mkLogEnv (registry env ++ [g; v]) tz made), g, v. cbn [registry sinks_made].
    split; [reflexivity|]. split; [reflexivity|]. split; [reflexivity|].
    split.
    { rewrite spdlog_get_app by exact Hg. unfold spdlog_get. cbn [find].
      now rewrite Ng, String.eqb_refl. }
    split.
    { rewrite spdlog_get_app by exact Hv. unfold spdlog_get. cbn [find].
      rewrite Ng, Nv. assert (("general" =? "valid")%string = false) as -> by reflexivity.
      now rewrite String.eqb_refl. }
    split; [exact Sg|]. split; [exact Sv|]. split; [exact Pg|]. split; [exact Pv|].
    rewrite Sg, Sv, !sinkFiles_sinksOf.
    split; [reflexivity|]. split; [reflexivity|].
    split; [|split; [|split]].
    - intros f Hf. unfold validLogFiles. apply in_or_app. now left.
    - intros s. apply sinksOf_shared.
    - apply stderr_in_sinksOf.
    - apply stderr_in_sinksOf. }
  destruct (logLevelOf options) as [loglevel|].
  - destruct (setLoggingLevel_keeps general loglevel) as (Ng & Sg & Pg).
    destruct (setLoggingLevel_keeps valid loglevel) as (Nv & Sv & Pv).
    destruct (snd (setLoggingLevel general loglevel)).
    + apply Hshape; assumption.
    + apply Hshape; try assumption; reflexivity.
  - apply Hshape; reflexivity.
Qed.

(** X19, with the log file train.log, the validation log valid.log and
    [quiet] not set, in an empty registry: train.log is opened by the file
    sinks 0 and 1, valid.log by the file sink 2. *)
Lemma createLoggers_sinks_witness :
  createLoggers (Some (someConfig "info")) (fun _ => true) (mkLogEnv [] None 0)
    = Returns (mkLogEnv
                 [mkLogger "general"
                           [stderr_sink_mt; simple_file_sink_st 0 "train.log" true]
                           "[%Y-%m-%d %T] %v" info [];
                  mkLogger "valid"
                           [stderr_sink_mt; simple_file_sink_st 1 "train.log" true;
                            simple_file_sink_st 2 "valid.log" true]
                           "[%Y-%m-%d %T] [valid] %v" info []]
                 (Some "UTC"%string) 3) /\
  exists env' general valid,
    createLoggers (Some (someConfig "info")) (fun _ => true) (mkLogEnv [] None 0)
      = Returns env' /\
    registry env' = registry (mkLogEnv [] None 0) ++ [general; valid] /\
    sinks_made env'
      = (sinks_made (mkLogEnv [] None 0) + length (logFiles (Some (someConfig "info")))
         + length (validLogFiles (Some (someConfig "info"))))%nat /\
    spdlog_get "general" (registry env') = Some general /\
    spdlog_get "valid" (registry env') = Some valid /\
    logger_sinks general
      = sinksOf false (sinks_made (mkLogEnv [] None 0)) (logFiles (Some (someConfig "info"))) /\
    logger_sinks valid
      = sinksOf false (sinks_made (mkLogEnv [] None 0)
                       + length (logFiles (Some (someConfig "info"))))
                (validLogFiles (Some (someConfig "info"))) /\
    logger_pattern general = "[%Y-%m-%d %T] %v"%string /\
    logger_pattern valid = "[%Y-%m-%d %T] [valid] %v"%string /\
    sinkFiles (logger_sinks general) = logFiles (Some (someConfig "info")) /\
    sinkFiles (logger_sinks valid) = validLogFiles (Some (someConfig "info")) /\
    (forall f, In f (sinkFiles (logger_sinks general)) ->
               In f (sinkFiles (logger_sinks valid))) /\
    (forall s, In s (logger_sinks general) -> In s (logger_sinks valid) ->
               s = stderr_sink_mt) /\
    (In stderr_sink_mt (logger_sinks general) <-> false = false) /\
    (In stderr_sink_mt (logger_sinks valid) <-> false = false).
Proof.
  split; [reflexivity|].
  apply (@createLoggers_sinks (Some (someConfig "info")) (fun _ => true)
           (mkLogEnv [] None 0) false); reflexivity.
Defined.

(** X20: when no logger named general or valid is registered yet, [quiet]
    can be read, the log files can be opened and the option "log-level" is
    set: for one of the names [setLoggingLevel] knows, both loggers get the
    level of that name, no warning is made, and TZ is then set from the
    option "log-time-zone" (when that is set and not the empty string) to
    the option's value as a C string, that is up to its first NUL.  For any
    other string [createLoggers] returns at once after the general logger
    has refused it: both loggers keep the level [info], the general logger
    has been passed the one warning about the unknown level, which quotes
    the level up to its first NUL, the validation logger none, and TZ is
    left as it was, whatever the option "log-time-zone" says. *)
Theorem createLoggers_log_level (options : option Config) (openable : string -> bool)
        (env : LogEnv) (q : bool) (loglevel : string) :
  quietOf options = Some q ->
  spdlog_get "general" (registry env) = None ->
  spdlog_get "valid" (registry env) = None ->
  (forall f, In f (validLogFiles options) -> openable f = true) ->
  logLevelOf options = Some loglevel ->
  exists env' general valid,
    createLoggers options openable env = Returns env' /\
    registry env' = registry env ++ [general; valid] /\
    (forall l, levelOfName loglevel = Some l ->
       logger_level general = l /\ logger_level valid = l /\
       logger_warn general = [] /\ logger_warn valid = [] /\
       TZ env' = timeZoneOf options (TZ env)) /\
    (levelOfName loglevel = None ->
       logger_level general = info /\ logger_level valid = info /\
       logger_warn general
         = [((("Unknown log level '" ++ c_str loglevel) ++ "' for logger '")
               ++ "general") ++ "'"]%string /\
       logger_warn valid = [] /\
       TZ env' = TZ env) /\
    (forall o timezone,
       options = Some o -> opt_log_time_zone o = Some timezone ->
       timezone <> EmptyString ->
       timeZoneOf options (TZ env) = Some (c_str timezone)) /\
    (forall timezone, has_nul timezone = false -> c_str timezone = timezone).
Proof.
  intros Hq Hg Hv Hopen Hlevel.
  rewrite (createLoggers_ok options openable env Hq Hg Hv Hopen). cbv zeta.
  rewrite Hlevel.
  set (general := mkLogger "general" (sinksOf q (sinks_made env) (logFiles options))
                           "[%Y-%m-%d %T] %v" info []).
  set (valid := mkLogger "valid"
                         (sinksOf q (sinks_made env + length (logFiles options))
                                  (validLogFiles options))
                         "[%Y-%m-%d %T] [valid] %v" info []).
  assert (forall o timezone,
            options = Some o -> opt_log_time_zone o = Some timezone ->
            timezone <> EmptyString ->
            timeZoneOf options (TZ env) = Some (c_str timezone)) as Htz.
  { intros o timezone -> Ho Hne. cbn [timeZoneOf]. rewrite Ho.
    destruct (String.eqb_spec timezone EmptyString); [contradiction|reflexivity]. }
  destruct (setLoggingLevel_cases general loglevel) as [(l & _ & Hl & Eg) | (_ & Hl & Eg)];
    rewrite Eg; cbn [fst snd].
  - destruct (setLoggingLevel_cases valid loglevel) as [(l' & _ & Hl' & Ev) | (_ & Hl' & Ev)];
      [|congruence].
    rewrite Ev. cbn [fst]. assert (l' = l) as -> by congruence.
    eexists. eexists. eexists. split; [reflexivity|]. cbn [registry TZ].
    split; [reflexivity|]. split; [|split; [|split; [exact Htz|exact c_str_no_nul]]].
    + intros l0 E0. assert (l0 = l) as -> by congruence. repeat split.
    + intros E0. congruence.
  - eexists. eexists. eexists. split; [reflexivity|]. cbn [registry TZ].
    split; [reflexivity|]. split; [|split; [|split; [exact Htz|exact c_str_no_nul]]].
    + intros l0 E0. congruence.
    + intros _. repeat split.
Qed.

(** X20, with the unknown level "loud" and the time zone "UTC". *)
Lemma createLoggers_log_level_witness :
  exists env' general valid,
    createLoggers (Some (someConfig "loud")) (fun _ => true) (mkLogEnv [] None 0)
      = Returns env' /\
    registry env' = registry (mkLogEnv [] None 0) ++ [general; valid] /\
    (forall l, levelOfName "loud" = Some l ->
       logger_level general = l /\ logger_level valid = l /\
       logger_warn general = [] /\ logger_warn valid = [] /\
       TZ env' = timeZoneOf (Some (someConfig "loud")) (TZ (mkLogEnv [] None 0))) /\
    (levelOfName "loud" = None ->
       logger_level general = info /\ logger_level valid = info /\
       logger_warn general
         = [((("Unknown log level '" ++ c_str "loud") ++ "' for logger '")
               ++ "general") ++ "'"]%string /\
       logger_warn valid = [] /\
       TZ env' = TZ (mkLogEnv [] None 0)) /\
    (forall o timezone,
       Some (someConfig "loud") = Some o -> opt_log_time_zone o = Some timezone ->
       timezone <> EmptyString ->
       timeZoneOf (Some (someConfig "loud")) (TZ (mkLogEnv [] None 0))
         = Some (c_str timezone)) /\
    (forall timezone, has_nul timezone = false -> c_str timezone = timezone).
Proof.
  apply (@createLoggers_log_level (Some (someConfig "loud")) (fun _ => true)
           (mkLogEnv [] None 0) false "loud"); reflexivity.
Defined.

(* ------------------------------------------------------------------ *)
(** ** Looking loggers up after a change *)

Lemma spdlog_get_update (n m : string) (f : logger -> logger) (reg : list logger) :
  (forall lg, logger_name (f lg) = logger_name lg) ->
  spdlog_get n (update_logger m f reg)
    = option_map (fun lg => if (logger_name lg =? m)%string then f lg else lg)
                 (spdlog_get n reg).
Proof.
  intros Hname. unfold spdlog_get, update_logger.
  induction reg as [|a reg IH]; [reflexivity|].
  cbn [map find].
  assert (logger_name (if (logger_name a =? m)%string then f a else a) = logger_name a) as ->
    by (destruct (logger_name a =? m)%string; [apply Hname|reflexivity]).
  destruct (logger_name a =? n)%string; [reflexivity|exact IH].
Qed.

Lemma spdlog_get_app_cases (n : string) (reg l : list logger) :
  spdlog_get n (reg ++ l)
    = match spdlog_get n reg with
      | Some lg => Some lg
      | None => spdlog_get n l
      end.
Proof.
  unfold spdlog_get. induction reg as [|a reg IH]; [reflexivity|].
  simpl. destruct (logger_name a =? n)%string; [reflexivity|exact IH].
Qed.

Lemma set_pattern_name (pattern : string) (lg : logger) :
  logger_name (set_pattern lg pattern) = logger_name lg.
Proof. reflexivity. Qed.

(* ------------------------------------------------------------------ *)
(** ** [switchtoMultinodeLogging] *)

(** X21: [switchtoMultinodeLogging] changes nothing but the pattern of the
    logger named general, which becomes "[%Y-%m-%d %T " followed by the
    node id and "] %v": every logger stays at its place in the registry
    with its name, sinks, level and warnings, the loggers of other names
    with their patterns too; where no logger named general is registered
    the registry stays as it is; and of two calls the later one decides,
    the earlier one leaving no trace. *)
Theorem switchtoMultinodeLogging_general_only (nodeIdStr : string) (reg : list logger) :
  switchtoMultinodeLogging nodeIdStr reg
    = map (fun lg => if (logger_name lg =? "general")%string
                     then mkLogger (logger_name lg) (logger_sinks lg)
                                   (("[%Y-%m-%d %T " ++ nodeIdStr) ++ "] %v")%string
                                   (logger_level lg) (logger_warn lg)
                     else lg)
          reg /\
  (spdlog_get "general" reg = None -> switchtoMultinodeLogging nodeIdStr reg = reg) /\
  (forall lg, spdlog_get "general" reg = Some lg ->
     spdlog_get "general" (switchtoMultinodeLogging nodeIdStr reg)
       = Some (set_pattern lg (("[%Y-%m-%d %T " ++ nodeIdStr) ++ "] %v")%string)) /\
  (forall name, name <> "general"%string ->
     spdlog_get name (switchtoMultinodeLogging nodeIdStr reg) = spdlog_get name reg) /\
  (forall other,
     switchtoMultinodeLogging nodeIdStr (switchtoMultinodeLogging other reg)
       = switchtoMultinodeLogging nodeIdStr reg).
Proof.
  assert (forall id r,
            switchtoMultinodeLogging id r
              = update_logger "general"
                  (fun lg => set_pattern lg (("[%Y-%m-%d %T " ++ id) ++ "] %v")%string) r)
    as Hupd.
  { intros id r. unfold switchtoMultinodeLogging.
    destruct (spdlog_get "general" r) eqn:E; [reflexivity|].
    symmetry. now apply update_logger_absent. }
  split; [|split; [|split; [|split]]].
  - rewrite Hupd. reflexivity.
  - intros Hnone. rewrite Hupd. now apply update_logger_absent.
  - intros lg Hlg. rewrite Hupd, spdlog_get_update by (intros; apply set_pattern_name).
    rewrite Hlg. cbn [option_map].
    unfold spdlog_get in Hlg. apply find_some in Hlg. destruct Hlg as [_ ->]. reflexivity.
  - intros name Hname. rewrite Hupd, spdlog_get_update by (intros; apply set_pattern_name).
    destruct (spdlog_get name reg) as [lg|] eqn:E; [|reflexivity].
    cbn [option_map]. unfold spdlog_get in E. apply find_some in E. destruct E as [_ E].
    apply String.eqb_eq in E.
    destruct (String.eqb_spec (logger_name lg) "general"); [congruence|reflexivity].
  - intros other. rewrite !Hupd. unfold update_logger. rewrite map_map.
    apply map_ext. intros lg.
    destruct (logger_name lg =? "general")%string eqn:E.
    + rewrite set_pattern_name, E. reflexivity.
    + now rewrite E.
Qed.

(* ------------------------------------------------------------------ *)
(** ** [createLoggers] a second time *)

Lemma file_sinks_cases (openable : string -> bool) (files : list string)
      (acc : thrown (nat * list sink)) :
  fold_left (fun (acc : thrown (nat * list sink)) file =>
               st <~ acc ;;
               if openable file
               then Returns (S (fst st),
                             snd st ++ [simple_file_sink_st (fst st) file true])
               else Throws)
            files acc = Throws
  \/ exists made,
       fold_left (fun (acc : thrown (nat * list sink)) file =>
                    st <~ acc ;;
                    if openable file
                    then Returns (S (fst st),
                                  snd st ++ [simple_file_sink_st (fst st) file true])
                    else Throws)
                 files acc = Returns made.
Proof.
  destruct (fold_left _ files acc) as [made|]; [right; now exists made|now left].
Qed.

(** A name that is taken cannot be registered again. *)
Lemma stderrLogger_taken (name pattern : string) (files : list string) (quiet : bool)
      (openable : string -> bool) (env : LogEnv) (lg : logger) :
  spdlog_get name (registry env) = Some lg ->
  stderrLogger name pattern files quiet openable env = Throws.
Proof.
  intros Htaken. unfold stderrLogger. cbv zeta.
  destruct (file_sinks_cases openable files
              (Returns (sinks_made env, if negb quiet then [] ++ [stderr_sink_mt] else [])))
    as [E | [made E]]; rewrite E; cbn [tbind]; [reflexivity|].
  unfold register_logger. cbn [logger_name]. now rewrite Htaken.
Qed.

(** A logger that [stderrLogger] returns with is registered, and so are
    those that were. *)
Lemma stderrLogger_registers (name pattern : string) (files : list string) (quiet : bool)
      (openable : string -> bool) (env env' : LogEnv) :
  stderrLogger name pattern files quiet openable env = Returns env' ->
  (exists lg, spdlog_get name (registry env') = Some lg) /\
  forall n lg, spdlog_get n (registry env) = Some lg ->
               exists lg', spdlog_get n (registry env') = Some lg'.
Proof.
  unfold stderrLogger. cbv zeta.
  destruct (file_sinks_cases openable files
              (Returns (sinks_made env, if negb quiet then [] ++ [stderr_sink_mt] else [])))
    as [E | [made E]]; rewrite E; cbn [tbind]; [discriminate|].
  unfold register_logger. cbn [logger_name].
  destruct (spdlog_get name (registry env)) eqn:Enew; [discriminate|]. cbn [tbind].
  intros [= <-]. cbn [registry]. split.
  - rewrite spdlog_get_update by (intros; apply set_pattern_name).
    rewrite spdlog_get_app by exact Enew.
    unfold spdlog_get. cbn [find logger_name]. rewrite String.eqb_refl.
    eexists. reflexivity.
  - intros n lg Hn.
    rewrite spdlog_get_update by (intros; apply set_pattern_name).
    rewrite spdlog_get_app_cases, Hn. eexists. reflexivity.
Qed.

Lemma setLoggingLevel_of_registered (name level n : string) (reg : list logger) (lg : logger) :
  spdlog_get n reg = Some lg ->
  exists lg', spdlog_get n (fst (setLoggingLevel_of name level reg)) = Some lg'.
Proof.
  intros Hn. unfold setLoggingLevel_of.
  destruct (spdlog_get name reg); cbn [fst]; [|now exists lg].
  rewrite spdlog_get_update by (intros; apply setLoggingLevel_name).
  rewrite Hn. eexists. reflexivity.
Qed.

(** After a call that returned, the two loggers are registered. *)
Lemma createLoggers_registers (options : option Config) (openable : string -> bool)
      (env env' : LogEnv) :
  createLoggers options openable env = Returns env' ->
  (exists lg, spdlog_get "general" (registry env') = Some lg) /\
  (exists lg, spdlog_get "valid" (registry env') = Some lg).
Proof.
  unfold createLoggers. cbv zeta.
  match goal with
  | |- context [match ?X with pair _ _ => _ end] => destruct X as [generalLogs validLogs]
  end.
  match goal with
  | |- context [tbind ?X _] => destruct X as [quiet|]
  end; [|discriminate].
  cbn [tbind].
  destruct (stderrLogger "general" _ generalLogs quiet openable env)
    as [env1|] eqn:E1; [|discriminate].
  cbn [tbind].
  match goal with
  | |- context [stderrLogger "valid" ?p ?fs quiet openable env1] =>
      destruct (stderrLogger "valid" p fs quiet openable env1) as [env2|] eqn:E2
  end; [|discriminate].
  cbn [tbind].
  destruct (stderrLogger_registers _ _ _ _ _ _ E1) as [[g Hg1] _].
  destruct (stderrLogger_registers _ _ _ _ _ _ E2) as [[v Hv2] Hkeep].
  destruct (Hkeep _ _ Hg1) as [g2 Hg2].
  set (reg2 := registry env2) in *.
  set (levelled := match options with
                   | Some o => _
                   | None => (reg2, true)
                   end).
  assert ((exists lg, spdlog_get "general" (fst levelled) = Some lg) /\
          (exists lg, spdlog_get "valid" (fst levelled) = Some lg)) as Hboth.
  { unfold levelled. destruct options as [o|]; [|cbn [fst]; split; eauto].
    destruct (opt_log_level o) as [loglevel|]; [|cbn [fst]; split; eauto].
    destruct (setLoggingLevel_of_registered "general" loglevel "general" reg2 Hg2) as [g3 Hg3].
    destruct (setLoggingLevel_of_registered "general" loglevel "valid" reg2 Hv2) as [v3 Hv3].
    destruct (setLoggingLevel_of "general" loglevel reg2) as [reg3 ok]. cbn [fst] in Hg3, Hv3.
    destruct ok; cbn [negb fst].
    - split.
      + exact (setLoggingLevel_of_registered "valid" loglevel "general" reg3 Hg3).
      + exact (setLoggingLevel_of_registered "valid" loglevel "valid" reg3 Hv3).
    - split; eauto. }
  destruct (negb (snd levelled)); intros [= <-]; exact Hboth.
Qed.

(** X22: [createLoggers] can be called once: after a call that returned,
    the loggers general and valid are registered, and every further call,
    whatever its options and whichever files can be opened, throws (the
    name general is taken), as it does in any environment where a logger
    named general is registered already, and as it does, in any
    environment, when the options are given without the option "quiet". *)
Theorem createLoggers_only_once
        (options options2 : option Config) (openable openable2 : string -> bool)
        (env env' : LogEnv) :
  createLoggers options openable env = Returns env' ->
  (exists lg, spdlog_get "general" (registry env') = Some lg) /\
  (exists lg, spdlog_get "valid" (registry env') = Some lg) /\
  createLoggers options2 openable2 env' = Throws /\
  (forall env2 lg, spdlog_get "general" (registry env2) = Some lg ->
                   createLoggers options2 openable2 env2 = Throws) /\
  (forall env2, quietOf options2 = None -> createLoggers options2 openable2 env2 = Throws).
Proof.
  intros Hfirst.
  destruct (createLoggers_registers _ _ _ Hfirst) as [Hg Hv].
  assert (forall env2 lg, spdlog_get "general" (registry env2) = Some lg ->
                          createLoggers options2 openable2 env2 = Throws) as Htaken.
  { intros env2 lg Hlg. unfold createLoggers. cbv zeta.
    match goal with
    | |- context [match ?X with pair _ _ => _ end] => destruct X as [generalLogs validLogs]
    end.
    match goal with
    | |- context [tbind ?X _] => destruct X as [quiet|]
    end; [|reflexivity].
    cbn [tbind]. now rewrite (@stderrLogger_taken "general" _ _ _ _ _ lg Hlg). }
  split; [exact Hg|]. split; [exact Hv|].
  split; [destruct Hg as [lg Hlg]; exact (Htaken env' lg Hlg)|].
  split; [exact Htaken|].
  intros env2 Hq. unfold createLoggers. cbv zeta.
  match goal with
  | |- context [match ?X with pair _ _ => _ end] => destruct X as [generalLogs validLogs]
  end.
  destruct options2 as [o|]; [|discriminate]. cbn [quietOf] in Hq. now rewrite Hq.
Qed.

(** X22, after the loggers have been created without options. *)
Lemma createLoggers_only_once_witness :
  (exists lg, spdlog_get "general"
                (registry (mkLogEnv [mkLogger "general" [stderr_sink_mt]
                                              "[%Y-%m-%d %T] %v" info [];
                                     mkLogger "valid" [stderr_sink_mt]
                                              "[%Y-%m-%d %T] [valid] %v" info []] None 0))
              = Some lg) /\
  (exists lg, spdlog_get "valid"
                (registry (mkLogEnv [mkLogger "general" [stderr_sink_mt]
                                              "[%Y-%m-%d %T] %v" info [];
                                     mkLogger "valid" [stderr_sink_mt]
                                              "[%Y-%m-%d %T] [valid] %v" info []] None 0))
              = Some lg) /\
  createLoggers (Some (someConfig "info")) (fun _ => true)
                (mkLogEnv [mkLogger "general" [stderr_sink_mt] "[%Y-%m-%d %T] %v" info [];
                           mkLogger "valid" [stderr_sink_mt]
                                    "[%Y-%m-%d %T] [valid] %v" info []] None 0)
    = Throws /\
  (forall env2 lg, spdlog_get "general" (registry env2) = Some lg ->
                   createLoggers (Some (someConfig "info")) (fun _ => true) env2 = Throws) /\
  (forall env2, quietOf (Some (someConfig "info")) = None ->
                createLoggers (Some (someConfig "info")) (fun _ => true) env2 = Throws).
Proof.
  apply (@createLoggers_only_once None (Some (someConfig "info"))
           (fun _ => true) (fun _ => true) (mkLogEnv [] None 0)).
  reflexivity.
Defined.

(* ================================================================== *)
(** * Further properties of the per-device dispatch *)

(** X23: where the planner returns, [foreachAcc] with a function that
    records its invocations returns the fold of the per-device results in
    ascending device order in every mode, while the invocations themselves
    happen in ascending device order in sequential mode, and also in
    parallel mode when there is at most one device (the pool is not used
    and the schedule plays no role), but in the order in which the pool
    runs the tasks in parallel mode with two or more devices. *)
Theorem foreachAcc_visit_order
        (Ret : Type) (c : NCCLCommunicator) (f : Z -> Z -> Z -> Ret)
        (acc : AccFunc Ret) (init : Ret) (schedule : list nat) (sz : Z) :
  shardSize c = Ok sz ->
  Permutation schedule (seq 0 (length (graphs_ c))) ->
  foreachAcc c (loggedFunc f) acc init false schedule []
    = Ok (fold_left acc
                    (map (fun i => f i (fst (rangeOf c i)) (snd (rangeOf c i)))
                         (indices (length (graphs_ c))))
                    init,
          indices (length (graphs_ c))) /\
  ((1 < length (graphs_ c))%nat ->
   foreachAcc c (loggedFunc f) acc init true schedule []
     = Ok (fold_left acc
                     (map (fun i => f i (fst (rangeOf c i)) (snd (rangeOf c i)))
                          (indices (length (graphs_ c))))
                     init,
           map Z.of_nat schedule)) /\
  ((length (graphs_ c) <= 1)%nat ->
   foreachAcc c (loggedFunc f) acc init true schedule []
     = Ok (fold_left acc
                     (map (fun i => f i (fst (rangeOf c i)) (snd (rangeOf c i)))
                          (indices (length (graphs_ c))))
                     init,
           indices (length (graphs_ c)))).
Proof.
  intros Hsz Hperm.
  pose proof (shardSize_localShardRange c Hsz) as Hplan.
  set (res := fun t : Task => f (task_device t) (task_begin t) (task_end t)).
  set (upd := fun (t : Task) (log : list Z) => log ++ [task_device t]).
  assert (forall t (s : list Z), True -> True ->
            loggedFunc f (task_device t) (task_begin t) (task_end t) s
              = Ok (res t, upd t s) /\ True)
    as Hfunc by (intros; split; [reflexivity|exact I]).
  set (n := length (graphs_ c)) in *.
  assert (forall parallel, parallel && (1 <? devices_size c) = false ->
            foreachAcc c (loggedFunc f) acc init parallel schedule []
              = Ok (fold_left acc
                              (map (fun i => f i (fst (rangeOf c i)) (snd (rangeOf c i)))
                                   (indices n))
                              init,
                    indices n)) as Hseq.
  { intros parallel Hpar.
    rewrite (@foreachAcc_sequential _ _ c (loggedFunc f) acc (fun _ => True) (fun _ => True)
               res upd Hfunc Hplan init parallel schedule [] Hpar
               (Forall_trivial _) I).
    fold n. f_equal. f_equal.
    - unfold res. now rewrite map_tasksOf.
    - unfold upd. rewrite (fold_left_log task_device). cbn [app].
      unfold tasksOf. rewrite map_map. cbn [task_device]. apply map_id. }
  split; [apply Hseq; reflexivity|]. split.
  - intros Hn.
    rewrite (@foreachAcc_parallel _ _ c (loggedFunc f) acc (fun _ => True) (fun _ => True)
               res upd Hfunc Hplan init schedule [] Hn (Forall_trivial _) I Hperm).
    fold n. f_equal. f_equal.
    + unfold res. now rewrite map_tasksOf.
    + unfold upd. rewrite (fold_left_log (fun kt : nat * Task => task_device (snd kt))).
      cbn [app]. apply scheduled_devices. now apply permutation_below.
  - intros Hn. apply Hseq.
    assert ((1 <? devices_size c) = false) as ->
      by (apply Z.ltb_ge; unfold devices_size, zlen; fold n; lia).
    reflexivity.
Qed.

(** X23, at three devices without MPI, the pool running the tasks in the
    order 2, 0, 1. *)
Lemma foreachAcc_visit_order_witness :
  foreachAcc (blankComm float32 3 12 None) (loggedFunc (fun i b e => i + b + e))
             (fun x y => x - y) 100 false [2; 0; 1]%nat []
    = Ok (fold_left (fun x y => x - y)
                    (map (fun i => i + fst (rangeOf (blankComm float32 3 12 None) i)
                                     + snd (rangeOf (blankComm float32 3 12 None) i))
                         (indices (length (graphs_ (blankComm float32 3 12 None)))))
                    100,
          indices (length (graphs_ (blankComm float32 3 12 None)))) /\
  ((1 < length (graphs_ (blankComm float32 3 12 None)))%nat ->
   foreachAcc (blankComm float32 3 12 None) (loggedFunc (fun i b e => i + b + e))
              (fun x y => x - y) 100 true [2; 0; 1]%nat []
     = Ok (fold_left (fun x y => x - y)
                     (map (fun i => i + fst (rangeOf (blankComm float32 3 12 None) i)
                                      + snd (rangeOf (blankComm float32 3 12 None) i))
                          (indices (length (graphs_ (blankComm float32 3 12 None)))))
                     100,
           map Z.of_nat [2; 0; 1]%nat)) /\
  ((length (graphs_ (blankComm float32 3 12 None)) <= 1)%nat ->
   foreachAcc (blankComm float32 3 12 None) (loggedFunc (fun i b e => i + b + e))
              (fun x y => x - y) 100 true [2; 0; 1]%nat []
     = Ok (fold_left (fun x y => x - y)
                     (map (fun i => i + fst (rangeOf (blankComm float32 3 12 None) i)
                                      + snd (rangeOf (blankComm float32 3 12 None) i))
                          (indices (length (graphs_ (blankComm float32 3 12 None)))))
                     100,
           indices (length (graphs_ (blankComm float32 3 12 None))))).
Proof.
  apply (@foreachAcc_visit_order Z (blankComm float32 3 12 None)
           (fun i b e => i + b + e) (fun x y => x - y) 100 [2; 0; 1]%nat 4).
  - reflexivity.
  - simpl. apply perm_trans with [0; 2; 1]%nat.
    + apply perm_swap.
    + apply perm_skip. apply perm_swap.
Defined.

(* ------------------------------------------------------------------ *)
(** ** A communicator without devices *)

(** X24: on a communicator constructed from an empty list of graphs, with
    or without MPI: [dataSize], [shardSize] and the planner index
    [graphs_[0]], which does not exist; [foreachAcc] returns the initial
    value without consulting the planner or invoking the function, in
    either mode; [scatterState] divides by zero ranks; and the first loop
    of [gatherState] still asks the getter for the item of device 0. *)
Theorem no_devices_edge_cases
        (Ret St : Type) (c : NCCLCommunicator) (func : ForeachFunc Ret St) (acc : AccFunc Ret)
        (init : Ret) (parallel : bool) (schedule : list nat) (s : St)
        (setFn : ScatterStateSetFunc St) (B : Item) (getFn : GatherStateGetFunc) :
  graphs_ c = [] ->
  dataSize c = Undefined /\
  shardSize c = Undefined /\
  (forall rank, ncclRankShardRange c rank = Undefined) /\
  numNcclRanks c = 0 /\
  foreachAcc c func acc init parallel schedule s = Ok (init, s) /\
  scatterState c setFn B s = Undefined /\
  localData c getFn = getFn 0 /\
  postReduceScatter c = Ok [] /\
  postAllGather c = Ok [].
Proof.
  intros Hnone.
  assert (dataSize c = Undefined) as Hd by (unfold dataSize; now rewrite Hnone).
  assert (shardSize c = Undefined) as Hs by (unfold shardSize; now rewrite Hd).
  assert (numNcclRanks c = 0) as Hn.
  { unfold numNcclRanks, devices_size, zlen. rewrite Hnone.
    destruct (mpi_ c) as [m|]; [|reflexivity].
    unfold size_mul. now rewrite Z.mul_0_r. }
  split; [exact Hd|]. split; [exact Hs|].
  split; [intros rank; unfold ncclRankShardRange; now rewrite Hs|].
  split; [exact Hn|].
  split.
  { unfold foreachAcc, devices_size, zlen. rewrite Hnone. cbn [length indices seq map].
    rewrite andb_false_r. reflexivity. }
  split; [unfold scatterState; now rewrite Hn|].
  split; [unfold localData; now rewrite Hnone|].
  split; [unfold postReduceScatter|unfold postAllGather]; now rewrite Hnone.
Qed.

(** X24, at the communicator of no graphs without MPI. *)
Lemma no_devices_edge_cases_witness :
  dataSize (mkComm [] None) = Undefined /\
  shardSize (mkComm [] None) = Undefined /\
  (forall rank, ncclRankShardRange (mkComm [] None) rank = Undefined) /\
  numNcclRanks (mkComm [] None) = 0 /\
  foreachAcc (mkComm [] None) (loggedFunc (fun i b e => i + b + e)) (fun x y => x + y)
             7 true [] [] = Ok (7, []) /\
  scatterState (mkComm [] None) (fun _ b e log => Ok (log ++ [b; e])) (mkItem [Byte.x2a]) []
    = Undefined /\
  localData (mkComm [] None) (getShard []) = getShard [] 0 /\
  postReduceScatter (mkComm [] None) = Ok [] /\
  postAllGather (mkComm [] None) = Ok [].
Proof.
  apply (@no_devices_edge_cases Z (list Z) (mkComm [] None)
           (loggedFunc (fun i b e => i + b + e)) (fun x y => x + y) 7 true [] []
           (fun _ b e log => Ok (log ++ [b; e])) (mkItem [Byte.x2a]) (getShard [])).
  reflexivity.
Defined.
